(** * GOES time series for eight speakers: the numeric core of the notebook

    A shallow embedding of the functions of [goes-data-timeseries.ipynb]
    (calculate_degrees, forward_fill_2d, find_nearest_indices,
    calculate_points and the point extraction loop), with the numpy and
    xarray operations they call modelled next to them. *)

From Stdlib Require Import ZArith Lia Bool Floats.
From Stdlib Require Uint63.
From stdpp Require Import base option list strings gmap.

Local Open Scope Z_scope.

(** ** Exceptions and results

    The notebook's functions either return or propagate an exception raised
    by numpy or xarray. *)

Inductive exn : Type :=
| IndexError
| ValueError
| NameError.

Inductive result (A : Type) : Type :=
| Ok (a : A)
| Raise (e : exn).

Arguments Ok {A} a.
Arguments Raise {A} e.

#[global] Instance result_ret : MRet result := fun A a => Ok a.

#[global] Instance result_bind : MBind result := fun A B k m =>
  match m with
  | Ok a => k a
  | Raise e => Raise e
  end.

Definition of_option {A : Type} (e : exn) (o : option A) : result A :=
  match o with
  | Some a => Ok a
  | None => Raise e
  end.

(** ** calculate_points

    A point is the dict [{"i": .., "j": .., "name": ..}] of the source. *)

Module point.
Record t : Type := mk { i : Z; j : Z; name : string }.
End point.

(** [lat_idx] and [lon_idx] are notebook globals (set by the cell that runs
    find_nearest_indices); the function reads them, so they are parameters
    here.  The first statement of the body rebinds [istep] to 1. *)
Definition calculate_points (lat_idx lon_idx : Z) (istep : Z) : list point.t :=
  let istep := 1 in
  [ point.mk (lon_idx + istep) (lat_idx + istep) "NE";
    point.mk (lon_idx + istep) lat_idx "East";
    point.mk (lon_idx + istep) (lat_idx - istep) "SW";
    point.mk lon_idx (lat_idx + istep) "N";
    point.mk lon_idx (lat_idx - istep) "S";
    point.mk (lon_idx - istep) (lat_idx + istep) "NW";
    point.mk (lon_idx - istep) lat_idx "W";
    point.mk (lon_idx - istep) (lat_idx - istep) "SW" ].

(** [p] lies on the ring of radius [s] around the centre: row and column
    each differ from the centre by [s] or by nothing, and not both by
    nothing. *)
Definition on_ring (lat_idx lon_idx s : Z) (p : point.t) : bool :=
  let di := Z.abs (point.i p - lon_idx) in
  let dj := Z.abs (point.j p - lat_idx) in
  ((di =? s) || (di =? 0)) && ((dj =? s) || (dj =? 0))
  && negb ((di =? 0) && (dj =? 0)).

(** ** The point extraction loop

    [ds] is the dataset opened with [xr.open_mfdataset (.., concat_dim='time')];
    one of its data variables (CMI_C01 in the notebook) is modelled, with
    dimensions (time, y, x).  The element type is left abstract: samples are
    only moved, never computed with. *)

Record DataArray (A : Type) : Type := mkDataArray {
  size_y : nat;
  size_x : nat;
  values : list (list (list A))
}.

Arguments mkDataArray {A} _ _ _.
Arguments size_y {A} _.
Arguments size_x {A} _.
Arguments values {A} _.

(** Every time step holds a [size_y] by [size_x] frame. *)
Definition wf_DataArray {A : Type} (ds : DataArray A) : Prop :=
  Forall (fun frame =>
            length frame = size_y ds
            /\ Forall (fun row => length row = size_x ds) frame)
         (values ds).

(** An integer indexer on an axis of length [n], as numpy and xarray read
    it: [0 <= k < n] is the position itself, [-n <= k < 0] counts from the
    end, anything else raises IndexError. *)
Definition normalize_index (n : nat) (k : Z) : result nat :=
  if bool_decide (0 <= k < Z.of_nat n) then Ok (Z.to_nat k)
  else if bool_decide (- Z.of_nat n <= k < 0) then Ok (Z.to_nat (Z.of_nat n + k))
  else Raise IndexError.

(** [ds.isel(y=y, x=x)]: the series over the remaining dimension, time. *)
Definition isel {A : Type} (ds : DataArray A) (y x : Z) : result (list A) :=
  jy ← normalize_index (size_y ds) y;
  ix ← normalize_index (size_x ds) x;
  of_option IndexError
    (mapM (fun frame : list (list A) => frame !! jy ≫= (.!! ix)) (values ds)).

(** [combined_data] is first the series of one point (dimension time only);
    [xr.concat (.., dim="points_index")] then stacks series along a new
    leading dimension. *)
Inductive combined (A : Type) : Type :=
| Series (s : list A)
| Stacked (rs : list (list A)).

Arguments Series {A} s.
Arguments Stacked {A} rs.

Definition concat_points_index {A : Type} (c : combined A) (tem : list A) : combined A :=
  match c with
  | Series s => Stacked [s; tem]
  | Stacked rs => Stacked (rs ++ [tem])
  end.

(** What [combined_data] holds once the series [rs] of the first points
    have been put together: one series as it is, more of them stacked. *)
Definition combined_of {A : Type} (rs : list (list A)) : combined A :=
  match rs with
  | [s] => Series s
  | _ => Stacked rs
  end.

Fixpoint foldM {A S : Type} (body : S -> A -> result S) (s : S) (l : list A) : result S :=
  match l with
  | [] => Ok s
  | a :: l' => s' ← body s a; foldM body s' l'
  end.

Definition extract_step {A : Type} (ds : DataArray A) (points : list point.t)
    (combined_data : combined A) (p : nat) : result (combined A) :=
  if bool_decide (0 < p)%nat then
    pt ← of_option IndexError (points !! p);
    tem ← isel ds (point.j pt) (point.i pt);
    Ok (concat_points_index combined_data tem)
  else Ok combined_data.

Definition extract_points {A : Type} (ds : DataArray A) (points : list point.t)
    : result (combined A) :=
  p0 ← of_option IndexError (points !! 0%nat);
  s0 ← isel ds (point.j p0) (point.i p0);
  foldM (extract_step ds points) (Series s0) (seq 0 (length points)).

(** Direct indexing of the field: [values[t][y][x]] with in-range indices. *)
Definition direct_index {A : Type} (ds : DataArray A) (t : nat) (y x : Z) : option A :=
  frame ← values ds !! t; row ← frame !! Z.to_nat y; row !! Z.to_nat x.

Definition in_bounds {A : Type} (ds : DataArray A) (p : point.t) : Prop :=
  0 <= point.j p < Z.of_nat (size_y ds) /\ 0 <= point.i p < Z.of_nat (size_x ds).

(** An index the axis cannot take, even counted from the end. *)
Definition beyond (n : nat) (k : Z) : Prop :=
  Z.of_nat n <= k \/ k < - Z.of_nat n.


(** Where a negative index in range lands: [n + k], counted from the end. *)
Definition wrap_index (n : nat) (k : Z) : Z :=
  if k <? 0 then Z.of_nat n + k else k.

Definition wrap_point {A : Type} (ds : DataArray A) (p : point.t) : point.t :=
  point.mk (wrap_index (size_x ds) (point.i p))
           (wrap_index (size_y ds) (point.j p))
           (point.name p).

(** The field of the spec's scenario: value [row*10 + col] at every time
    step, on a 5 by 5 grid. *)
Definition field_5x5 (T : nat) : DataArray Z :=
  mkDataArray 5 5
    (replicate T
       (map (fun r => map (fun c => 10 * Z.of_nat r + Z.of_nat c) (seq 0 5)) (seq 0 5))).

(** ** Numbers and arrays

    The grids hold float64 values: binary64 floats with the arithmetic and
    the comparisons of IEEE 754, as numpy computes them (round to nearest
    even, no trap: numpy's default error state warns, and the notebook only
    ever sets it to 'ignore'). *)

Abbreviation cell := float.

(** [np.isnan] *)
Abbreviation isnan := PrimFloat.is_nan.

(** Neither NaN nor an infinity. *)
Abbreviation isfinite := PrimFloat.is_finite.

(** The classes of binary64 values the arithmetic distinguishes: zero or
    a finite value other than zero, against the infinities and NaN. *)
Definition SF_is_finite (x : spec_float) : bool :=
  match x with
  | S754_zero _ | S754_finite _ _ _ => true
  | _ => false
  end.

Definition SF_is_nonzero (x : spec_float) : bool :=
  match x with
  | S754_finite _ _ _ => true
  | _ => false
  end.

(** A two-dimensional ndarray: [shape1] columns, and the rows. *)
Record array2 (A : Type) : Type := mkArray2 {
  shape1 : nat;
  rows : list (list A)
}.

Arguments mkArray2 {A} _ _.
Arguments shape1 {A} _.
Arguments rows {A} _.

Definition shape0 {A : Type} (a : array2 A) : nat := length (rows a).

Definition wf_array2 {A : Type} (a : array2 A) : Prop :=
  Forall (fun r => length r = shape1 a) (rows a).

(** [a[:, c]] and [a[r, :]] for indices that are not negative. *)
Definition column {A : Type} (a : array2 A) (c : nat) : result (list A) :=
  if bool_decide (c < shape1 a)%nat
  then of_option IndexError (mapM (fun r : list A => r !! c) (rows a))
  else Raise IndexError.

Definition row {A : Type} (a : array2 A) (r : nat) : result (list A) :=
  of_option IndexError (rows a !! r).

(** [a[r, c]] *)
Definition item {A : Type} (a : array2 A) (r c : nat) : option A :=
  rows a !! r ≫= (.!! c).

(** ** find_nearest_indices *)

(** [ndarray.argmin] on float64: the scan keeps the running minimum [mp] and
    replaces it by the next entry unless that entry is [>= mp]; so the first
    minimum in index order wins, and a NaN (for which every comparison is
    false) counts as minimal and ends the scan.  An empty array raises
    ValueError. *)
Fixpoint argmin_scan (mp : cell) (min_ind : nat) (i : nat) (l : list cell) : nat :=
  match l with
  | [] => min_ind
  | c :: l' =>
      if (mp <=? c)%float then argmin_scan mp min_ind (S i) l'
      else if isnan c then i
      else argmin_scan c i (S i) l'
  end.

Definition argmin (a : list cell) : result nat :=
  match a with
  | [] => Raise ValueError
  | c :: l => if isnan c then Ok 0%nat else Ok (argmin_scan c 0 1 l)
  end.

(** [np.abs(arr - target)] *)
Definition abs_diff (arr : list cell) (target : float) : list cell :=
  map (fun c => abs (c - target)%float) arr.

Definition find_nearest_indices (lat_arr lon_arr : list cell) (target_lat target_lon : float)
    : result (nat * nat) :=
  lat_idx ← argmin (abs_diff lat_arr target_lat);
  lon_idx ← argmin (abs_diff lon_arr target_lon);
  Ok (lat_idx, lon_idx).

(** The notebook's target, Miami: [target_lat = 25.76] and
    [target_lon = -80.19], as the float64 values these literals denote. *)
Definition target_lat : float := 0x1.9c28f5c28f5c3p+4.

Definition target_lon : float := (-0x1.40c28f5c28f5cp+6)%float.

(** The notebook cell that georeferences the target: a first guess on the
    first column and first row, then a second search on the column and the
    row through the first guess.  Both guesses are returned. *)
Definition nearest_two_pass (abi_lat abi_lon : array2 cell) (target_lat target_lon : float)
    : result ((nat * nat) * (nat * nat)) :=
  lat_0 ← column abi_lat 0;
  lon_0 ← row abi_lon 0;
  first_guess ← find_nearest_indices lat_0 lon_0 target_lat target_lon;
  lat_1 ← column abi_lat (snd first_guess);
  lon_1 ← row abi_lon (fst first_guess);
  closer_guess ← find_nearest_indices lat_1 lon_1 target_lat target_lon;
  Ok (first_guess, closer_guess).

(** The error of a grid cell on one axis, as the search computes it:
    [np.abs(a[r, c] - target)] in float64. *)
Definition axis_error (a : array2 cell) (target : float) (rc : nat * nat) : option float :=
  v ← item a (fst rc) (snd rc);
  Some (abs (v - target)%float).

(** [i] is the first index at which the computed distance of [arr] to
    [target] is smallest: no entry has a smaller [np.abs(arr - target)], and
    every earlier entry has a larger one. *)
Definition first_nearest (arr : list cell) (target : float) (i : nat) : Prop :=
  exists v : float,
    arr !! i = Some v
    /\ (forall (k : nat) (w : float), arr !! k = Some w ->
          (abs (v - target) <=? abs (w - target))%float = true)
    /\ (forall (k : nat) (w : float), (k < i)%nat -> arr !! k = Some w ->
          (abs (v - target) <? abs (w - target))%float = true).

Definition no_nan (arr : list cell) : Prop :=
  Forall (fun c => isnan c = false) arr.

Definition no_nan2 (a : array2 cell) : Prop :=
  Forall no_nan (rows a).

(** No cell is an infinity: every cell is NaN or finite, as the grids of
    calculate_degrees are (an arctangent times a constant). *)
Definition no_inf (arr : list cell) : Prop :=
  Forall (fun c => is_infinity c = false) arr.

Definition no_inf2 (a : array2 cell) : Prop :=
  Forall no_inf (rows a).

(** A 2 by 2 grid without undefined cells on which the second pass moves
    away from the target (0, 0). *)
Definition skewed_lat : array2 cell :=
  mkArray2 2 [[3; 0]; [1; 2]]%float.

Definition skewed_lon : array2 cell :=
  mkArray2 2 [[3; 1]; [0; 2]]%float.

(** ** forward_fill_2d *)

(** An index as a float64: [np.interp] converts the int64 positions given
    by [np.flatnonzero] to float64. *)
Definition of_index (k : nat) : cell := of_uint63 (Uint63.of_Z (Z.of_nat k)).

(** [np.flatnonzero(mask)]: the positions where the mask is set. *)
Fixpoint flatnonzero_from (s : nat) (mask : list bool) : list nat :=
  match mask with
  | [] => []
  | b :: mask' =>
      if b then s :: flatnonzero_from (S s) mask' else flatnonzero_from (S s) mask'
  end.

Definition flatnonzero (mask : list bool) : list nat := flatnonzero_from 0 mask.

(** [a[mask]] for a boolean mask. *)
Fixpoint select {A : Type} (mask : list bool) (a : list A) : list A :=
  match mask, a with
  | b :: mask', v :: a' => if b then v :: select mask' a' else select mask' a'
  | _, _ => []
  end.

(** The interpolant of [np.interp] between the sample points [(x0, y0)]
    and [(x1, y1)], in float64:
    [slope = (fp[j+1] - fp[j]) / (xp[j+1] - xp[j])] and
    [slope*(x - xp[j]) + fp[j]], every operation rounded on its own. *)
Definition interpolant (x0 : nat) (y0 : cell) (x1 : nat) (y1 : cell) (x : nat) : cell :=
  let slope := ((y1 - y0) / (of_index x1 - of_index x0))%float in
  (slope * (of_index x - of_index x0) + y0)%float.

(** What [np.interp] stores between two sample points: the interpolant;
    if that is NaN, the same line taken from the right sample point,
    [slope*(x - xp[j+1]) + fp[j+1]]; and if that is NaN too and the two
    sample values are equal, their value. *)
Definition lerp (x0 : nat) (y0 : cell) (x1 : nat) (y1 : cell) (x : nat) : cell :=
  let slope := ((y1 - y0) / (of_index x1 - of_index x0))%float in
  let res := (slope * (of_index x - of_index x0) + y0)%float in
  if isnan res then
    let res' := (slope * (of_index x - of_index x1) + y1)%float in
    if isnan res' && (y0 =? y1)%float then y0 else res'
  else res.

(** The search of [np.interp] for one [x] that is not left of the sample
    point [(x0, y0)]: at a sample point its value, between two sample points
    what [lerp] gives, right of the last one the last value ([right], by
    default [fp[-1]]).  Positions are compared as integers: they are row
    indices, on which the float64 comparisons of the search give the same
    answers (below 2^53: [of_index_ltb], [of_index_eqb]). *)
Fixpoint interp_from (x : nat) (x0 : nat) (y0 : cell) (pts : list (nat * cell)) : cell :=
  match pts with
  | [] => y0
  | (x1, y1) :: pts' =>
      if (x <? x1)%nat then
        if (x =? x0)%nat then y0 else lerp x0 y0 x1 y1 x
      else interp_from x x1 y1 pts'
  end.

(** Left of the first sample point the value is [left], by default [fp[0]]. *)
Definition interp1 (x : nat) (pts : list (nat * cell)) : cell :=
  match pts with
  | [] => nan
  | (x0, y0) :: pts' => if (x <? x0)%nat then y0 else interp_from x x0 y0 pts'
  end.

(** [np.interp(x, xp, fp)] with increasing sample positions [xp]; no sample
    point, or [xp] and [fp] of different lengths, raises ValueError. *)
Definition np_interp (x xp : list nat) (fp : list cell) : result (list cell) :=
  if bool_decide (length xp = length fp) then
    match xp with
    | [] => Raise ValueError
    | _ => Ok (map (fun xi => interp1 xi (combine xp fp)) x)
    end
  else Raise ValueError.

(** [arr[mask, i] = vals]: the cells of column [i] in the rows selected by
    the mask take the next value of [vals], in row order.  (With fewer
    values than selected rows numpy raises; forward_fill_2d passes as many
    values as selected rows.) *)
Fixpoint setitem_mask_column (mask : list bool) (i : nat)
    (rs : list (list cell)) (vals : list cell) : list (list cell) :=
  match mask, rs with
  | true :: mask', r :: rs' =>
      match vals with
      | v :: vals' => <[i := v]> r :: setitem_mask_column mask' i rs' vals'
      | [] => r :: rs'
      end
  | false :: mask', r :: rs' => r :: setitem_mask_column mask' i rs' vals
  | _, _ => rs
  end.

(** The body of the loop, for column [i] of the array [a]. *)
Definition fill_column (a : array2 cell) (i : nat) : result (array2 cell) :=
  col ← column a i;
  let mask := map isnan col in
  vals ← np_interp (flatnonzero mask) (flatnonzero (map negb mask))
                   (select (map negb mask) col);
  Ok (mkArray2 (shape1 a) (setitem_mask_column mask i (rows a) vals)).

(** Arrays are objects: a variable holds a reference, and the heap maps
    references to arrays.  forward_fill_2d writes into the array it is
    given and returns the reference it was given.  (A reference to no array
    is a name that was never bound: NameError.) *)
Abbreviation loc := positive (only parsing).
Abbreviation heap := (gmap positive (array2 cell)) (only parsing).

Fixpoint forward_fill_loop (arr : loc) (cols : list nat) (h : heap)
    : heap * result unit :=
  match cols with
  | [] => (h, Ok tt)
  | i :: cols' =>
      match h !! arr with
      | None => (h, Raise NameError)
      | Some a =>
          match fill_column a i with
          | Ok a' => forward_fill_loop arr cols' (<[arr := a']> h)
          | Raise e => (h, Raise e)
          end
      end
  end.

Definition forward_fill_2d (arr : loc) (h : heap) : heap * result loc :=
  match h !! arr with
  | None => (h, Raise NameError)
  | Some a =>
      let '(h', r) := forward_fill_loop arr (seq 0 (shape1 a)) h in
      (h', _ ← r; Ok arr)
  end.

(** [a.copy()]: a new array with the same cells. *)
Definition ndarray_copy (arr : loc) (h : heap) : heap * result loc :=
  match h !! arr with
  | None => (h, Raise NameError)
  | Some a => let l := fresh (dom h) in (<[l := a]> h, Ok l)
  end.

(** [forward_fill_2d(a.copy())], as every call site has it. *)
Definition forward_fill_copy (arr : loc) (h : heap) : heap * result loc :=
  match ndarray_copy arr h with
  | (h', Ok l) => forward_fill_2d l h'
  | (h', Raise e) => (h', Raise e)
  end.

(** The sample points [np.interp] receives for a column: the positions and
    values of its defined cells, counted from [s]. *)
Fixpoint defined_points (s : nat) (col : list cell) : list (nat * cell) :=
  match col with
  | [] => []
  | c :: col' =>
      if isnan c then defined_points (S s) col'
      else (s, c) :: defined_points (S s) col'
  end.

Definition has_defined (col : list cell) : Prop :=
  Exists (fun c => isnan c = false) col.

(** Every column of the array holds a defined cell. *)
Definition columns_defined (a : array2 cell) : Prop :=
  forall c : nat, (c < shape1 a)%nat ->
    exists (r : nat) (v : float), item a r c = Some v /\ isnan v = false.

(** Row indices that float64 holds exactly: fewer than 2^53 rows. *)
Definition exact_rows (a : array2 cell) : Prop :=
  Z.of_nat (shape0 a) <= 2 ^ 53.

(** Linear extrapolation through two sample points, as the spec has it for
    a run of undefined cells at a column edge. *)
Definition linear_extrapolation (x0 : nat) (y0 : cell) (x1 : nat) (y1 : cell) (x : nat)
    : cell :=
  interpolant x0 y0 x1 y1 x.

(** What a column holds after the loop body has run on it: a defined cell
    keeps its value, an undefined cell at row [k] takes the value of
    [np.interp] at [k]. *)
Definition filled (col : list cell) : list cell :=
  imap (fun k c => if isnan c then interp1 k (defined_points 0 col) else c) col.

(** [col] is column [c] of [a]. *)
Definition is_column {A : Type} (a : array2 A) (c : nat) (col : list A) : Prop :=
  length col = shape0 a /\ forall r : nat, col !! r = item a r c.

(** A column that starts with an undefined cell, and a grid with gaps at
    both edges and in the middle of its columns. *)
Definition edge_grid : array2 cell :=
  mkArray2 1 [[nan]; [1]; [2]]%float.

Definition gappy_grid : array2 cell :=
  mkArray2 2 [[nan; 5]; [1; nan]; [nan; nan]; [4; 0.5]; [nan; nan]]%float.

Definition edge_heap : gmap positive (array2 cell) := {[ 1%positive := edge_grid ]}.

Definition gappy_heap : gmap positive (array2 cell) := {[ 1%positive := gappy_grid ]}.

(** ** calculate_degrees

    The projection is modelled on binary64 floats, with the arithmetic and
    the square root of IEEE 754 (what numpy computes with; its default error
    state warns and never traps, and the notebook only ever sets it to
    'ignore').  Sine, cosine and arctangent come from the C library: they
    are parameters of the model. *)

Record libm : Type := mkLibm {
  np_sin : float -> float;
  np_cos : float -> float;
  np_arctan : float -> float
}.

(** [file_id.variables['goes_imager_projection'].attrs] *)
Record projection_info : Type := mkProjectionInfo {
  longitude_of_projection_origin : float;
  perspective_point_height : float;
  semi_major_axis : float;
  semi_minor_axis : float
}.

(** [file_id]: the scan angles [x], [y] and the projection attributes. *)
Record dataset : Type := mkDataset {
  variables_x : list float;
  variables_y : list float;
  goes_imager_projection : projection_info
}.

Definition np_pi : float := 0x1.921fb54442d18p+1%float.

(** [np.meshgrid(x, y)]: two arrays of shape (len y, len x). *)
Definition np_meshgrid (xs ys : list float) : array2 float * array2 float :=
  (mkArray2 (length xs) (map (fun _ => xs) ys),
   mkArray2 (length xs) (map (fun yv => map (fun _ => yv) xs) ys)).

(** A ufunc applied to one array, or to an array and a scalar. *)
Definition elementwise (f : float -> float) (a : array2 float) : array2 float :=
  mkArray2 (shape1 a) (map (map f) (rows a)).

Definition same_shape (a b : array2 float) : bool :=
  (shape0 a =? shape0 b)%nat && (shape1 a =? shape1 b)%nat.

(** A ufunc applied to two arrays.  All operands of calculate_degrees have
    the shape of the meshgrid; operands of different shapes that numpy
    cannot broadcast raise ValueError. *)
Definition elementwise2 (f : float -> float -> float) (a b : array2 float)
    : result (array2 float) :=
  if same_shape a b
  then Ok (mkArray2 (shape1 a) (zip_with (zip_with f) (rows a) (rows b)))
  else Raise ValueError.

(** [np.power(a, 2.0)] and [a**2] *)
Definition square (v : float) : float := (v * v)%float.

Definition calculate_degrees (m : libm) (file_id : dataset)
    : result (array2 float * array2 float) :=
  let x_coordinate_1d := variables_x file_id in
  let y_coordinate_1d := variables_y file_id in
  let projection_info := goes_imager_projection file_id in
  let lon_origin := longitude_of_projection_origin projection_info in
  let H := (perspective_point_height projection_info
            + semi_major_axis projection_info)%float in
  let r_eq := semi_major_axis projection_info in
  let r_pol := semi_minor_axis projection_info in
  let '(x_coordinate_2d, y_coordinate_2d) :=
    np_meshgrid x_coordinate_1d y_coordinate_1d in
  let sin_x := elementwise (np_sin m) x_coordinate_2d in
  let cos_x := elementwise (np_cos m) x_coordinate_2d in
  let sin_y := elementwise (np_sin m) y_coordinate_2d in
  let cos_y := elementwise (np_cos m) y_coordinate_2d in
  let lambda_0 := ((lon_origin * np_pi) / 180)%float in
  let ratio := ((r_eq * r_eq) / (r_pol * r_pol))%float in
  a1 ← elementwise2 PrimFloat.add (elementwise square cos_y)
         (elementwise (PrimFloat.mul ratio) (elementwise square sin_y));
  a2 ← elementwise2 PrimFloat.mul (elementwise square cos_x) a1;
  a_var ← elementwise2 PrimFloat.add (elementwise square sin_x) a2;
  b_var ← elementwise2 PrimFloat.mul
            (elementwise (PrimFloat.mul (-2 * H)%float) cos_x) cos_y;
  let c_var := (square H - square r_eq)%float in
  disc ← elementwise2 PrimFloat.sub (elementwise square b_var)
           (elementwise (fun v => (v * c_var)%float)
              (elementwise (PrimFloat.mul 4%float) a_var));
  num ← elementwise2 PrimFloat.sub (elementwise (PrimFloat.mul (-1)%float) b_var)
          (elementwise PrimFloat.sqrt disc);
  r_s ← elementwise2 PrimFloat.div num (elementwise (PrimFloat.mul 2%float) a_var);
  sx1 ← elementwise2 PrimFloat.mul r_s cos_x;
  s_x ← elementwise2 PrimFloat.mul sx1 cos_y;
  s_y ← elementwise2 PrimFloat.mul (elementwise PrimFloat.opp r_s) sin_x;
  sz1 ← elementwise2 PrimFloat.mul r_s cos_x;
  s_z ← elementwise2 PrimFloat.mul sz1 sin_y;
  (* np.seterr(all='ignore') *)
  let h_sx := elementwise (PrimFloat.sub H) s_x in
  d1 ← elementwise2 PrimFloat.mul h_sx h_sx;
  d2 ← elementwise2 PrimFloat.mul s_y s_y;
  d3 ← elementwise2 PrimFloat.add d1 d2;
  q ← elementwise2 PrimFloat.div s_z (elementwise PrimFloat.sqrt d3);
  let abi_lat :=
    elementwise (PrimFloat.mul (180 / np_pi)%float)
      (elementwise (np_arctan m) (elementwise (PrimFloat.mul ratio) q)) in
  t ← elementwise2 PrimFloat.div s_y h_sx;
  let abi_lon :=
    elementwise (fun v => (v * (180 / np_pi))%float)
      (elementwise (PrimFloat.sub lambda_0) (elementwise (np_arctan m) t)) in
  Ok (abi_lat, abi_lon).

(** The same computation for one pair of scan angles. *)
Section Cell.
Variables (m : libm) (info : projection_info) (xv yv : float).
Local Open Scope float_scope.

Let H : float := perspective_point_height info + semi_major_axis info.
Let r_eq : float := semi_major_axis info.
Let r_pol : float := semi_minor_axis info.
Let ratio : float := (r_eq * r_eq) / (r_pol * r_pol).

Definition a_var_at : float :=
  square (np_sin m xv)
  + square (np_cos m xv) * (square (np_cos m yv) + ratio * square (np_sin m yv)).

Definition b_var_at : float := (-2 * H) * np_cos m xv * np_cos m yv.

Definition c_var_at : float := square H - square r_eq.

(** The discriminant of the quadratic in the slant range. *)
Definition discriminant_at : float := square b_var_at - 4 * a_var_at * c_var_at.

Definition r_s_at : float := (-1 * b_var_at - sqrt discriminant_at) / (2 * a_var_at).

Definition s_x_at : float := r_s_at * np_cos m xv * np_cos m yv.
Definition s_y_at : float := - r_s_at * np_sin m xv.
Definition s_z_at : float := r_s_at * np_cos m xv * np_sin m yv.

Definition abi_lat_at : float :=
  (180 / np_pi)
  * np_arctan m (ratio * (s_z_at / sqrt ((H - s_x_at) * (H - s_x_at) + s_y_at * s_y_at))).

Definition abi_lon_at : float :=
  ((longitude_of_projection_origin info * np_pi) / 180
   - np_arctan m (s_y_at / (H - s_x_at)))
  * (180 / np_pi).

End Cell.

(** The C library's arctangent of NaN is NaN. *)
Definition arctan_keeps_nan (m : libm) : Prop :=
  forall v : float, PrimFloat.is_nan v = true -> PrimFloat.is_nan (np_arctan m v) = true.

(** A small libm to run the model: truncated power series. *)
Definition series_libm : libm :=
  mkLibm
    (fun v => v - v * v * v / 6 + v * v * v * v * v / 120)%float
    (fun v => 1 - v * v / 2 + v * v * v * v / 24)%float
    (fun v => v - v * v * v / 3 + v * v * v * v * v / 5)%float.

(** The GOES-16 projection attributes, and a scan grid whose last column
    looks past the limb of the Earth. *)
Definition goes16 : projection_info :=
  mkProjectionInfo (-75)%float 35786023%float 6378137%float
    0x1.83fc4141adea9p+22%float.

Definition limb_file : dataset :=
  mkDataset [(-0.0625)%float; 0%float; 0.3125%float] [0.078125%float; 0.0625%float] goes16.

(** The array holding [f x y] at the cell of scan angles [(x, y)]. *)
Definition tabulate (f : float -> float -> float) (xs ys : list float) : array2 float :=
  mkArray2 (length xs) (map (fun yv => map (fun xv => f xv yv) xs) ys).

(** The arrays of a run that returned. *)
Definition calculate_degrees_cells (m : libm) (file_id : dataset)
    : option (array2 float * array2 float) :=
  match calculate_degrees m file_id with
  | Ok r => Some r
  | Raise _ => None
  end.

(** A grid whose latitude depends on the row only and whose longitude
    depends on the column only. *)
Definition plate_lat : array2 cell :=
  mkArray2 3 [[30; 30; 30]; [25; 25; 25]]%float.

Definition plate_lon : array2 cell :=
  mkArray2 3 [[-82; -80; -78]; [-82; -80; -78]]%float.

(** The grid position of a point, as (row, column): ["j"] is the row index
    ([y]) and ["i"] the column index ([x]) in [ds.isel]. *)
Definition position (p : point.t) : Z * Z := (point.j p, point.i p).

(** The notebook cell that tries out distances builds the same eight
    neighbours by hand, as [row, column] pairs:
    [data_points = [north_point, east_point, south_point, west_point,
    northeast_point, northwest_point, southeast_point, southwest_point]].
    [istep] is a variable of that cell. *)
Definition data_points (lat_idx lon_idx istep : Z) : list (Z * Z) :=
  let north_point := (lat_idx + istep, lon_idx) in
  let east_point := (lat_idx, lon_idx + istep) in
  let south_point := (lat_idx - istep, lon_idx) in
  let west_point := (lat_idx, lon_idx - istep) in
  let northeast_point := (lat_idx + istep, lon_idx + istep) in
  let northwest_point := (lat_idx + istep, lon_idx - istep) in
  let southeast_point := (lat_idx - istep, lon_idx + istep) in
  let southwest_point := (lat_idx - istep, lon_idx - istep) in
  [north_point; east_point; south_point; west_point;
   northeast_point; northwest_point; southeast_point; southwest_point].

(** An index the axis accepts: [-n <= k < n]. *)
Definition accepted {A : Type} (ds : DataArray A) (p : point.t) : Prop :=
  ~ beyond (size_y ds) (point.j p) /\ ~ beyond (size_x ds) (point.i p).

(** A grid whose second column holds no defined value. *)
Definition blind_grid : array2 cell :=
  mkArray2 3 [[nan; nan; nan]; [1; nan; 2]]%float.

Definition blind_heap : gmap positive (array2 cell) := {[ 1%positive := blind_grid ]}.

(** What the C library guarantees of its sine, cosine and arctangent and
    the projection relies on: NaN in, NaN out, and the symmetries of the
    three functions. *)
Definition sin_keeps_nan (m : libm) : Prop :=
  forall v : float, PrimFloat.is_nan v = true -> PrimFloat.is_nan (np_sin m v) = true.

Definition libm_symmetric (m : libm) : Prop :=
  (forall v : float, np_sin m (- v)%float = (- np_sin m v)%float)
  /\ (forall v : float, np_cos m (- v)%float = np_cos m v)
  /\ (forall v : float, np_arctan m (- v)%float = (- np_arctan m v)%float).

(** The small-angle libm: sin v = v, cos v = 1, arctan v = v. *)
Definition small_angle_libm : libm :=
  mkLibm (fun v => v) (fun _ => 1%float) (fun v => v).

(** The notebook's way from the raw coordinate grids to the guesses:
    [abi_lat = forward_fill_2d(abi_lat.copy())],
    [abi_lon = forward_fill_2d(abi_lon.copy())], then the two calls of
    find_nearest_indices on the filled grids. *)
Definition fill_and_search (abi_lat abi_lon : loc) (target_lat target_lon : float)
    (h : heap) : heap * result ((nat * nat) * (nat * nat)) :=
  match forward_fill_copy abi_lat h with
  | (h1, Raise e) => (h1, Raise e)
  | (h1, Ok abi_lat') =>
      match forward_fill_copy abi_lon h1 with
      | (h2, Raise e) => (h2, Raise e)
      | (h2, Ok abi_lon') =>
          match h2 !! abi_lat', h2 !! abi_lon' with
          | Some a, Some b => (h2, nearest_two_pass a b target_lat target_lon)
          | _, _ => (h2, Raise NameError)
          end
      end
  end.

(** Raw coordinate grids with gaps, as two arrays of the heap. *)
Definition gappy_lon : array2 cell :=
  mkArray2 2 [[-80; nan]; [nan; nan]; [nan; -78]; [-81; nan]; [nan; nan]]%float.

Definition raw_heap : gmap positive (array2 cell) :=
  {[ 1%positive := gappy_grid; 2%positive := gappy_lon ]}.

(** ** The plotted differences

    The last cell plots, for [i in range(8)], the series
    [subset.CMI_C01[i,:] - subset.CMI_C01[0,:]] under the label
    [points[i].get('name')].  The lines and their labels are modelled, the
    drawing is not. *)




(** * Properties *)

(** *** The result monad *)

Lemma bind_Ok {A B : Type} (a : A) (k : A -> result B) : Ok a ≫= k = k a.
Proof. reflexivity. Qed.

Lemma bind_Raise {A B : Type} (e : exn) (k : A -> result B) :
  @Raise A e ≫= k = Raise e.
Proof. reflexivity. Qed.

(** *** Facts about calculate_points *)

Lemma calculate_points_length (lat_idx lon_idx istep : Z) :
  length (calculate_points lat_idx lon_idx istep) = 8%nat.
Proof. reflexivity. Qed.

Lemma calculate_points_names (lat_idx lon_idx istep : Z) :
  map point.name (calculate_points lat_idx lon_idx istep)
  = ["NE"; "East"; "SW"; "N"; "S"; "NW"; "W"; "SW"]%string.
Proof. reflexivity. Qed.

(** C1 (defect in the code): calculate_points returns 8 entries, but their
    names are not pairwise distinct: the entry at (lon_idx+1, lat_idx-1),
    the south-east neighbour of the comment block, is labelled "SW", the
    label of the last entry too; no entry is labelled "SE". *)
Theorem calculate_points_duplicate_name (lat_idx lon_idx istep : Z) :
  length (calculate_points lat_idx lon_idx istep) = 8%nat
  /\ ~ NoDup (map point.name (calculate_points lat_idx lon_idx istep))
  /\ map point.name (calculate_points lat_idx lon_idx istep) !! 2%nat = Some "SW"%string
  /\ map point.name (calculate_points lat_idx lon_idx istep) !! 7%nat = Some "SW"%string
  /\ "SE"%string ∉ map point.name (calculate_points lat_idx lon_idx istep).
Proof.
  rewrite calculate_points_names.
  split; [reflexivity|].
  split.
  - intros Hnd.
    apply NoDup_cons in Hnd as [_ Hnd].
    apply NoDup_cons in Hnd as [_ Hnd].
    apply NoDup_cons in Hnd as [Hin _].
    apply Hin. repeat constructor.
  - split; [reflexivity|]. split; [reflexivity|].
    intros Hin.
    repeat (apply elem_of_cons in Hin as [Hin|Hin]; [discriminate Hin|]).
    by apply elem_of_nil in Hin.
Qed.

Lemma calculate_points_ignores_istep (lat_idx lon_idx istep : Z) :
  calculate_points lat_idx lon_idx istep = calculate_points lat_idx lon_idx 1.
Proof. reflexivity. Qed.

Lemma calculate_points_on_ring_1 (lat_idx lon_idx istep : Z) :
  Forall (fun p => on_ring lat_idx lon_idx 1 p = true)
         (calculate_points lat_idx lon_idx istep).
Proof.
  unfold calculate_points, on_ring.
  repeat constructor; cbn [point.i point.j];
    repeat match goal with
           | |- context [Z.abs ?e] =>
               let v := fresh "v" in
               let Hv := fresh "Hv" in
               remember (Z.abs e) as v eqn:Hv;
               first [ assert (v = 1) as -> by lia
                     | assert (v = 0) as -> by lia ]
           end; reflexivity.
Qed.

(** C2 (defect in the code): the step argument is overwritten by
    [istep = 1], so for a step s > 1 none of the 8 returned offsets lies
    at distance s from the centre: all of them lie at distance 1. *)
Theorem calculate_points_step_not_used (lat_idx lon_idx s : Z) :
  1 < s ->
  Forall (fun p => on_ring lat_idx lon_idx s p = false
                   /\ on_ring lat_idx lon_idx 1 p = true)
         (calculate_points lat_idx lon_idx s).
Proof.
  intros Hs.
  pose proof (calculate_points_on_ring_1 lat_idx lon_idx s) as H1.
  eapply Forall_impl; [exact H1|].
  intros p Hp; split; [|exact Hp].
  unfold on_ring in *.
  destruct (Z.abs (point.i p - lon_idx) =? 1) eqn:Ei;
    destruct (Z.abs (point.j p - lat_idx) =? 1) eqn:Ej;
    destruct (Z.abs (point.i p - lon_idx) =? 0) eqn:Ei0;
    destruct (Z.abs (point.j p - lat_idx) =? 0) eqn:Ej0;
    try discriminate Hp;
    repeat match goal with
           | H : (_ =? _) = true |- _ => apply Z.eqb_eq in H
           | H : (_ =? _) = false |- _ => apply Z.eqb_neq in H
           end;
    try lia;
    repeat match goal with
           | H : Z.abs _ = _ |- _ => rewrite H
           end;
    replace (1 =? s) with false by (symmetry; apply Z.eqb_neq; lia);
    reflexivity.
Qed.

Lemma calculate_points_step_not_used_witness :
  1 < 2 /\
  Forall (fun p => on_ring 10 20 2 p = false /\ on_ring 10 20 1 p = true)
         (calculate_points 10 20 2).
Proof.
  split; [lia|]. apply calculate_points_step_not_used. lia.
Defined.

(** *** Facts about the point extraction loop *)

Section Extraction.
Context {A : Type}.
Implicit Types (ds : DataArray A) (points : list point.t).

Lemma normalize_index_in_range (n : nat) (k : Z) :
  0 <= k < Z.of_nat n -> normalize_index n k = Ok (Z.to_nat k).
Proof.
  intros Hk. unfold normalize_index.
  rewrite bool_decide_eq_true_2 by exact Hk. reflexivity.
Qed.

Lemma normalize_index_wraps (n : nat) (k : Z) :
  - Z.of_nat n <= k < 0 -> normalize_index n k = Ok (Z.to_nat (Z.of_nat n + k)).
Proof.
  intros Hk. unfold normalize_index.
  rewrite bool_decide_eq_false_2 by lia.
  rewrite bool_decide_eq_true_2 by exact Hk. reflexivity.
Qed.

Lemma normalize_index_beyond (n : nat) (k : Z) :
  beyond n k -> normalize_index n k = Raise IndexError.
Proof.
  intros Hk. unfold beyond in Hk. unfold normalize_index.
  rewrite !bool_decide_eq_false_2 by lia. reflexivity.
Qed.

Lemma normalize_index_Ok (n : nat) (k : Z) (m : nat) :
  normalize_index n k = Ok m -> (m < n)%nat.
Proof.
  unfold normalize_index. repeat case_bool_decide; intros [= <-]; lia.
Qed.

(** On a well-formed field, gathering position (jy, ix) of every frame
    succeeds. *)
Lemma gather_frames ds (jy ix : nat) :
  wf_DataArray ds -> (jy < size_y ds)%nat -> (ix < size_x ds)%nat ->
  exists s : list A,
    mapM (fun frame : list (list A) => frame !! jy ≫= (.!! ix)) (values ds) = Some s
    /\ Forall2 (fun frame v => frame !! jy ≫= (.!! ix) = Some v) (values ds) s.
Proof.
  intros Hwf Hj Hi. unfold wf_DataArray in Hwf.
  induction Hwf as [|frame frames [Hlen Hrows] _ IH].
  - exists []. split; [reflexivity|constructor].
  - destruct IH as (s & Hs & HF).
    destruct (lookup_lt_is_Some_2 frame jy ltac:(lia)) as [row Hrow].
    assert (Hr : length row = size_x ds).
    { eapply (proj1 (Forall_forall _ _) Hrows), list_elem_of_lookup_2, Hrow. }
    destruct (lookup_lt_is_Some_2 row ix ltac:(lia)) as [v Hv].
    exists (v :: s). split.
    + cbn. rewrite Hrow. cbn. rewrite Hv. cbn. rewrite Hs. reflexivity.
    + constructor; [|exact HF]. rewrite Hrow. cbn. exact Hv.
Qed.

Lemma isel_in_bounds ds (p : point.t) :
  wf_DataArray ds -> in_bounds ds p ->
  exists s : list A,
    isel ds (point.j p) (point.i p) = Ok s
    /\ length s = length (values ds)
    /\ forall t : nat, (t < length (values ds))%nat ->
         is_Some (s !! t)
         /\ s !! t = direct_index ds t (point.j p) (point.i p).
Proof.
  intros Hwf [Hj Hi]. unfold isel.
  rewrite (normalize_index_in_range _ _ Hj), (normalize_index_in_range _ _ Hi).
  cbn.
  destruct (gather_frames ds (Z.to_nat (point.j p)) (Z.to_nat (point.i p)) Hwf)
    as (s & Hs & HF); [lia|lia|].
  exists s. rewrite Hs. split; [reflexivity|].
  pose proof (Forall2_length _ _ _ HF) as Hlen.
  split; [lia|].
  intros t Ht.
  destruct (lookup_lt_is_Some_2 (values ds) t Ht) as [frame Hframe].
  destruct (lookup_lt_is_Some_2 s t ltac:(lia)) as [v Hv].
  pose proof (Forall2_lookup_lr _ _ _ _ _ _ HF Hframe Hv) as Hgv.
  split; [by exists v|].
  unfold direct_index. rewrite Hframe. cbn. rewrite Hv. symmetry. exact Hgv.
Qed.

Lemma concat_combined_of (rs : list (list A)) (tem : list A) :
  rs <> [] -> concat_points_index (combined_of rs) tem = combined_of (rs ++ [tem]).
Proof.
  destruct rs as [|s [|s' rs]]; [congruence|reflexivity|].
  intros _. cbn. destruct rs; reflexivity.
Qed.

Lemma extract_step_first ds points (c : combined A) :
  extract_step ds points c 0 = Ok c.
Proof. reflexivity. Qed.

Lemma extract_step_next ds points (c : combined A) (p : nat) (pt : point.t) (s : list A) :
  (0 < p)%nat -> points !! p = Some pt ->
  isel ds (point.j pt) (point.i pt) = Ok s ->
  extract_step ds points c p = Ok (concat_points_index c s).
Proof.
  intros Hp Hpt Hs. unfold extract_step.
  rewrite bool_decide_eq_true_2 by exact Hp.
  rewrite Hpt. cbn. rewrite Hs. reflexivity.
Qed.

Lemma extract_loop ds points (rs : list (list A)) :
  Forall2 (fun p s => isel ds (point.j p) (point.i p) = Ok s) points rs ->
  forall (m k : nat),
    (1 <= k)%nat -> (k + m = length points)%nat ->
    foldM (extract_step ds points) (combined_of (take k rs)) (seq k m)
    = Ok (combined_of rs).
Proof.
  intros HF. pose proof (Forall2_length _ _ _ HF) as Hlen.
  induction m as [|m IH]; intros k Hk Hkm.
  - cbn. rewrite take_ge by lia. reflexivity.
  - cbn [seq foldM].
    destruct (lookup_lt_is_Some_2 points k ltac:(lia)) as [pt Hpt].
    destruct (lookup_lt_is_Some_2 rs k ltac:(lia)) as [s Hs].
    rewrite (extract_step_next ds points _ k pt s ltac:(lia) Hpt
               (Forall2_lookup_lr _ _ _ _ _ _ HF Hpt Hs)).
    rewrite bind_Ok.
    rewrite concat_combined_of.
    2:{ intros Hnil. apply (f_equal length) in Hnil.
        rewrite length_take in Hnil. cbn in Hnil. lia. }
    rewrite <- (take_S_r _ _ _ Hs).
    apply IH; lia.
Qed.

Lemma extract_points_stacks ds points (rs : list (list A)) :
  (2 <= length points)%nat ->
  Forall2 (fun p s => isel ds (point.j p) (point.i p) = Ok s) points rs ->
  extract_points ds points = Ok (Stacked rs).
Proof.
  intros Hlen HF. pose proof (Forall2_length _ _ _ HF) as Hlen'.
  unfold extract_points.
  destruct points as [|p0 points']; [cbn in Hlen; lia|].
  destruct rs as [|s0 rs']; [discriminate Hlen'|].
  change (of_option IndexError ((p0 :: points') !! 0%nat)) with (Ok p0).
  rewrite bind_Ok.
  pose proof (Forall2_cons_1 _ _ _ _ _ HF) as [H0 _]. rewrite H0, bind_Ok.
  change (seq 0 (length (p0 :: points'))) with (0%nat :: seq 1 (length points')).
  cbn [foldM]. rewrite extract_step_first, bind_Ok.
  pose proof (extract_loop ds (p0 :: points') (s0 :: rs') HF (length points') 1) as HL.
  change (combined_of (take 1 (s0 :: rs'))) with (combined_of (s0 :: take 0 rs')) in HL.
  rewrite take_0 in HL. cbn [combined_of] in HL.
  rewrite HL by (cbn [length]; lia).
  destruct rs' as [|s1 rs'']; [cbn in *; lia|]. reflexivity.
Qed.

Lemma isel_all_in_bounds ds points :
  wf_DataArray ds -> Forall (in_bounds ds) points ->
  exists rs : list (list A),
    Forall2 (fun p s => isel ds (point.j p) (point.i p) = Ok s) points rs.
Proof.
  intros Hwf HF. induction HF as [|p points Hp _ IH].
  - exists []. constructor.
  - destruct IH as [rs Hrs].
    destruct (isel_in_bounds ds p Hwf Hp) as (s & Hs & _).
    exists (s :: rs). by constructor.
Qed.



(** The only exception the loop propagates is the IndexError of [isel]. *)
Lemma isel_raises ds (y x : Z) (e : exn) :
  isel ds y x = Raise e -> e = IndexError.
Proof.
  unfold isel, normalize_index.
  repeat case_bool_decide; cbn;
    repeat match goal with
           | |- context [mapM ?f ?l] => destruct (mapM f l)
           end; cbn; congruence.
Qed.

Lemma extract_step_raises ds points (c : combined A) (p : nat) (e : exn) :
  extract_step ds points c p = Raise e -> e = IndexError.
Proof.
  unfold extract_step. case_bool_decide; [|discriminate].
  destruct (points !! p) as [pt|]; cbn; [|congruence].
  destruct (isel ds (point.j pt) (point.i pt)) as [s|e'] eqn:Hs; cbn; [discriminate|].
  intros [= <-]. eapply isel_raises, Hs.
Qed.

Lemma extract_loop_raises ds points (l : list nat) (c : combined A) (e : exn) :
  foldM (extract_step ds points) c l = Raise e -> e = IndexError.
Proof.
  revert c. induction l as [|p l IH]; intros c; [discriminate|].
  cbn [foldM].
  destruct (extract_step ds points c p) as [c'|e'] eqn:Hstep.
  - rewrite bind_Ok. apply IH.
  - rewrite bind_Raise. intros [= <-]. eapply extract_step_raises, Hstep.
Qed.

Lemma extract_points_raises ds points (e : exn) :
  extract_points ds points = Raise e -> e = IndexError.
Proof.
  unfold extract_points.
  destruct (points !! 0%nat) as [p0|]; cbn [of_option]; [|rewrite bind_Raise; congruence].
  rewrite bind_Ok.
  destruct (isel ds (point.j p0) (point.i p0)) as [s0|e'] eqn:Hs.
  - rewrite bind_Ok. apply extract_loop_raises.
  - rewrite bind_Raise. intros [= <-]. eapply isel_raises, Hs.
Qed.

(** When the loop returns, every point it visited was selected without
    error. *)
Lemma extract_loop_Ok ds points (l : list nat) (c c' : combined A) :
  foldM (extract_step ds points) c l = Ok c' ->
  forall (p : nat) (pt : point.t),
    p ∈ l -> (0 < p)%nat -> points !! p = Some pt ->
    exists s, isel ds (point.j pt) (point.i pt) = Ok s.
Proof.
  revert c. induction l as [|q l IH]; intros c Hfold p pt Hin Hp Hpt.
  - by apply elem_of_nil in Hin.
  - cbn [foldM] in Hfold.
    destruct (extract_step ds points c q) as [c1|e] eqn:Hstep;
      [rewrite bind_Ok in Hfold|rewrite bind_Raise in Hfold; discriminate].
    apply elem_of_cons in Hin as [->|Hin]; [|by eapply IH].
    unfold extract_step in Hstep.
    rewrite bool_decide_eq_true_2 in Hstep by exact Hp.
    rewrite Hpt in Hstep. cbn [of_option] in Hstep. rewrite bind_Ok in Hstep.
    destruct (isel ds (point.j pt) (point.i pt)) as [s|e]; [by exists s|].
    rewrite bind_Raise in Hstep. discriminate.
Qed.

Lemma extract_points_Ok ds points (c : combined A) :
  extract_points ds points = Ok c ->
  Forall (fun pt => exists s, isel ds (point.j pt) (point.i pt) = Ok s) points.
Proof.
  intros Hex. apply Forall_lookup. intros p pt Hpt.
  unfold extract_points in Hex.
  destruct (points !! 0%nat) as [p0|] eqn:Hp0; cbn [of_option] in Hex;
    [rewrite bind_Ok in Hex|rewrite bind_Raise in Hex; discriminate].
  destruct (isel ds (point.j p0) (point.i p0)) as [s0|e] eqn:Hs0;
    [rewrite bind_Ok in Hex|rewrite bind_Raise in Hex; discriminate].
  destruct p as [|p].
  - rewrite Hp0 in Hpt. injection Hpt as <-. by exists s0.
  - eapply (extract_loop_Ok _ _ _ _ _ Hex (S p)); [|lia|exact Hpt].
    apply elem_of_seq. apply lookup_lt_Some in Hpt. lia.
Qed.

Lemma isel_beyond ds (y x : Z) :
  beyond (size_y ds) y \/ beyond (size_x ds) x -> isel ds y x = Raise IndexError.
Proof.
  intros Hb. unfold isel.
  destruct (normalize_index (size_y ds) y) as [jy|e] eqn:Hy.
  - destruct Hb as [Hb|Hb].
    + rewrite (normalize_index_beyond _ _ Hb) in Hy. discriminate.
    + rewrite (normalize_index_beyond _ _ Hb). reflexivity.
  - rewrite bind_Raise. f_equal.
    unfold normalize_index in Hy. repeat case_bool_decide; congruence.
Qed.

Lemma normalize_index_wrap_index (n : nat) (k : Z) :
  ~ beyond n k -> normalize_index n k = normalize_index n (wrap_index n k)
                  /\ 0 <= wrap_index n k < Z.of_nat n.
Proof.
  unfold beyond, wrap_index. intros Hb.
  destruct (Z.ltb_spec k 0) as [Hneg|Hpos]; [|split; [reflexivity|lia]].
  split; [|lia].
  rewrite normalize_index_wraps by lia.
  rewrite normalize_index_in_range by lia. reflexivity.
Qed.

Lemma isel_wrap_point ds (p : point.t) :
  ~ beyond (size_y ds) (point.j p) -> ~ beyond (size_x ds) (point.i p) ->
  isel ds (point.j p) (point.i p)
  = isel ds (point.j (wrap_point ds p)) (point.i (wrap_point ds p))
  /\ in_bounds ds (wrap_point ds p).
Proof.
  intros Hy Hx.
  destruct (normalize_index_wrap_index _ _ Hy) as [Ey Ry].
  destruct (normalize_index_wrap_index _ _ Hx) as [Ex Rx].
  split; [|split; assumption].
  unfold isel. cbn [wrap_point point.i point.j]. rewrite <- Ey, <- Ex. reflexivity.
Qed.

End Extraction.

(** C10: on a field with T time steps, 8 in-bounds points give 8 series,
    each of length T, and series k at time t is the field's sample directly
    indexed at point k and time t; the samples are moved as they are,
    whatever they hold (the element type is arbitrary, so a missing sample
    is handed on like any other). *)
Theorem extract_points_pure_gather {A : Type} (ds : DataArray A) (points : list point.t) :
  wf_DataArray ds ->
  length points = 8%nat ->
  Forall (in_bounds ds) points ->
  exists rs : list (list A),
    extract_points ds points = Ok (Stacked rs)
    /\ length rs = 8%nat
    /\ forall (k : nat) (p : point.t),
         points !! k = Some p ->
         exists s : list A,
           rs !! k = Some s
           /\ length s = length (values ds)
           /\ forall t : nat, (t < length (values ds))%nat ->
                is_Some (s !! t)
                /\ s !! t = direct_index ds t (point.j p) (point.i p).
Proof.
  intros Hwf Hlen Hin.
  destruct (isel_all_in_bounds ds points Hwf Hin) as [rs Hrs].
  exists rs. split; [apply extract_points_stacks; [lia|exact Hrs]|].
  pose proof (Forall2_length _ _ _ Hrs) as Hl.
  split; [lia|].
  intros k p Hp.
  destruct (lookup_lt_is_Some_2 rs k) as [s Hs].
  { apply lookup_lt_Some in Hp. lia. }
  exists s. split; [exact Hs|].
  pose proof (Forall2_lookup_lr _ _ _ _ _ _ Hrs Hp Hs) as Hsel.
  destruct (isel_in_bounds ds p Hwf) as (s' & Hs' & Hlen' & Hval).
  { eapply (proj1 (Forall_forall _ _) Hin), list_elem_of_lookup_2, Hp. }
  rewrite Hsel in Hs'. injection Hs' as <-.
  split; [exact Hlen'|exact Hval].
Qed.

Lemma field_5x5_wf (T : nat) : wf_DataArray (field_5x5 T).
Proof.
  unfold wf_DataArray, field_5x5. cbn [values size_y size_x].
  apply Forall_replicate. split; [reflexivity|]. repeat constructor.
Qed.

Lemma ring_in_field_5x5 (T : nat) :
  Forall (in_bounds (field_5x5 T)) (calculate_points 2 2 1).
Proof.
  repeat constructor; cbn; lia.
Qed.

Lemma extract_points_pure_gather_witness :
  exists rs : list (list Z),
    extract_points (field_5x5 3) (calculate_points 2 2 1) = Ok (Stacked rs)
    /\ length rs = 8%nat
    /\ forall (k : nat) (p : point.t),
         calculate_points 2 2 1 !! k = Some p ->
         exists s : list Z,
           rs !! k = Some s
           /\ length s = length (values (field_5x5 3))
           /\ forall t : nat, (t < length (values (field_5x5 3)))%nat ->
                is_Some (s !! t)
                /\ s !! t = direct_index (field_5x5 3) t (point.j p) (point.i p).
Proof.
  apply (extract_points_pure_gather (field_5x5 3) (calculate_points 2 2 1)).
  - apply field_5x5_wf.
  - reflexivity.
  - apply ring_in_field_5x5.
Defined.

(** The spec's scenario: the point (1,1) of the field [row*10 + col] with
    3 time steps gives the constant series 11, 11, 11. *)
Example isel_field_5x5 : isel (field_5x5 3) 1 1 = Ok [11; 11; 11].
Proof. reflexivity. Qed.




(** ** binary64 arithmetic *)

Section Rounding.
Variables prec emax : Z.

Lemma iter_pos_invariant {A : Type} (P : A -> Prop) (f : A -> A) :
  (forall x, P x -> P (f x)) -> forall (n : positive) (x : A), P x -> P (SpecFloat.iter_pos f n x).
Proof.
  intros Hf n. induction n as [n IH | n IH | ]; intros x Hx; cbn; auto.
Qed.

Lemma shr_1_nonneg (r : shr_record) : 0 <= shr_m r -> 0 <= shr_m (shr_1 r).
Proof.
  destruct r as [m r s]. cbn. destruct m as [ | p | p ]; [cbn; lia | | lia].
  intros _. destruct p; cbn; lia.
Qed.

Lemma shr_nonneg (r : shr_record) (e n : Z) : 0 <= shr_m r -> 0 <= shr_m (fst (shr r e n)).
Proof.
  intros H. destruct n as [ | p | p ]; cbn; auto.
  apply (iter_pos_invariant (fun r => 0 <= shr_m r)); auto using shr_1_nonneg.
Qed.

Lemma shr_m_of_loc (m : Z) (l : location) : shr_m (shr_record_of_loc m l) = m.
Proof. destruct l as [ | [ | | ]]; reflexivity. Qed.

Lemma shr_fexp_nonneg (m e : Z) (l : location) :
  0 <= m -> 0 <= shr_m (fst (shr_fexp prec emax m e l)).
Proof.
  intros H. unfold shr_fexp. apply shr_nonneg. rewrite shr_m_of_loc. exact H.
Qed.

Lemma round_nearest_even_nonneg (m : Z) (l : location) :
  0 <= m -> 0 <= round_nearest_even m l.
Proof.
  intros H. destruct l as [ | [ | | ]]; cbn [round_nearest_even]; try lia.
  destruct (Z.even m); lia.
Qed.

(** Rounding a mantissa that is not negative never gives NaN. *)
Lemma binary_round_aux_not_nan (s : bool) (m e : Z) (l : location) :
  0 <= m -> binary_round_aux prec emax s m e l <> S754_nan.
Proof.
  intros H. unfold binary_round_aux.
  pose proof (shr_fexp_nonneg m e l H) as H1.
  destruct (shr_fexp prec emax m e l) as [mrs' e'] eqn:E1. cbn [fst] in H1.
  pose proof (shr_fexp_nonneg _ e' loc_Exact
                (round_nearest_even_nonneg _ (loc_of_shr_record mrs') H1)) as H2.
  destruct (shr_fexp prec emax (round_nearest_even _ _) e' loc_Exact) as [mrs'' e''].
  cbn [fst] in H2. destruct (shr_m mrs'') as [ | p | p ]; [discriminate | | lia].
  destruct (e'' <=? emax - prec); discriminate.
Qed.

Lemma binary_round_not_nan (s : bool) (m : positive) (e : Z) :
  binary_round prec emax s m e <> S754_nan.
Proof.
  unfold binary_round. destruct (shl_align _ _ _) as [mz ez].
  apply binary_round_aux_not_nan. lia.
Qed.

Lemma binary_normalize_not_nan (m e : Z) (sz : bool) :
  binary_normalize prec emax m e sz <> S754_nan.
Proof.
  destruct m; cbn; [discriminate | apply binary_round_not_nan ..].
Qed.

End Rounding.

(** *** The order of binary64 values *)

Lemma is_nan_Prim2SF (v : float) :
  PrimFloat.is_nan v = true <-> Prim2SF v = S754_nan.
Proof.
  unfold PrimFloat.is_nan. rewrite FloatAxioms.eqb_spec.
  destruct (Prim2SF v) as [s|s| |s m e]; cbn.
  - split; discriminate.
  - destruct s; cbn; split; discriminate.
  - split; reflexivity.
  - unfold SFeqb, SFcompare.
    rewrite Z.compare_refl, Pos.compare_cont_refl.
    destruct s; cbn; split; discriminate.
Qed.

Lemma is_nan_false_Prim2SF (v : float) :
  PrimFloat.is_nan v = false <-> Prim2SF v <> S754_nan.
Proof.
  rewrite <- is_nan_Prim2SF. destruct (PrimFloat.is_nan v); split; congruence.
Qed.

Ltac order_cases :=
  repeat match goal with
  | |- context [(?a ?= ?b)%Z] => destruct (Z.compare_spec a b)
  | |- context [(?a ?= ?b)%positive] => destruct (Pos.compare_spec a b)
  | H : context [(?a ?= ?b)%Z] |- _ => destruct (Z.compare_spec a b)
  | H : context [(?a ?= ?b)%positive] |- _ => destruct (Pos.compare_spec a b)
  end.

Lemma SFleb_trans (x y z : spec_float) :
  SFleb x y = true -> SFleb y z = true -> SFleb x z = true.
Proof.
  unfold SFleb, SFcompare.
  destruct x as [sx|sx| |sx mx ex], y as [sy|sy| |sy my ey], z as [sz|sz| |sz mz ez];
    repeat match goal with s : bool |- _ => destruct s end;
    try discriminate; try reflexivity;
    change (Pos.compare_cont Eq) with Pos.compare;
    intros H1 H2; order_cases; cbn in *; try discriminate; try reflexivity; try lia.
Qed.

Lemma SFltb_leb_trans (x y z : spec_float) :
  SFltb x y = true -> SFleb y z = true -> SFltb x z = true.
Proof.
  unfold SFleb, SFltb, SFcompare.
  destruct x as [sx|sx| |sx mx ex], y as [sy|sy| |sy my ey], z as [sz|sz| |sz mz ez];
    repeat match goal with s : bool |- _ => destruct s end;
    try discriminate; try reflexivity;
    change (Pos.compare_cont Eq) with Pos.compare;
    intros H1 H2; order_cases; cbn in *; try discriminate; try reflexivity; try lia.
Qed.

Lemma SFleb_false_ltb (x y : spec_float) :
  x <> S754_nan -> y <> S754_nan -> SFleb x y = false -> SFltb y x = true.
Proof.
  unfold SFleb, SFltb, SFcompare.
  destruct x as [sx|sx| |sx mx ex], y as [sy|sy| |sy my ey];
    repeat match goal with s : bool |- _ => destruct s end;
    try congruence; try discriminate; try reflexivity;
    change (Pos.compare_cont Eq) with Pos.compare;
    intros _ _ H1; order_cases; cbn in *; try discriminate; try reflexivity; try lia.
Qed.

Lemma SFltb_leb (x y : spec_float) : SFltb x y = true -> SFleb x y = true.
Proof.
  unfold SFleb, SFltb. destruct (SFcompare x y) as [[ | | ]|]; congruence.
Qed.


Lemma SFleb_refl (x : spec_float) : x <> S754_nan -> SFleb x x = true.
Proof.
  unfold SFleb, SFcompare. destruct x as [s|s| |s m e]; try congruence;
    destruct s; try reflexivity;
    rewrite Z.compare_refl, Pos.compare_cont_refl; reflexivity.
Qed.

Lemma leb_trans (x y z : float) :
  (x <=? y)%float = true -> (y <=? z)%float = true -> (x <=? z)%float = true.
Proof. rewrite !FloatAxioms.leb_spec. apply SFleb_trans. Qed.

Lemma ltb_leb_trans (x y z : float) :
  (x <? y)%float = true -> (y <=? z)%float = true -> (x <? z)%float = true.
Proof. rewrite !FloatAxioms.ltb_spec, FloatAxioms.leb_spec. apply SFltb_leb_trans. Qed.

Lemma leb_false_ltb (x y : float) :
  PrimFloat.is_nan x = false -> PrimFloat.is_nan y = false ->
  (x <=? y)%float = false -> (y <? x)%float = true.
Proof.
  rewrite !is_nan_false_Prim2SF, FloatAxioms.ltb_spec, FloatAxioms.leb_spec. apply SFleb_false_ltb.
Qed.

Lemma ltb_leb (x y : float) : (x <? y)%float = true -> (x <=? y)%float = true.
Proof. rewrite FloatAxioms.ltb_spec, FloatAxioms.leb_spec. apply SFltb_leb. Qed.


Lemma leb_refl (x : float) : PrimFloat.is_nan x = false -> (x <=? x)%float = true.
Proof. rewrite is_nan_false_Prim2SF, FloatAxioms.leb_spec. apply SFleb_refl. Qed.

(** *** Where NaN comes from *)

Lemma is_finite_Prim2SF (v : float) :
  PrimFloat.is_finite v = SF_is_finite (Prim2SF v).
Proof.
  unfold PrimFloat.is_finite, PrimFloat.is_infinity, PrimFloat.is_nan.
  rewrite !FloatAxioms.eqb_spec, abs_spec.
  change (Prim2SF infinity) with (S754_infinity false).
  destruct (Prim2SF v) as [s|s| |s m e]; try (by destruct s); try reflexivity.
  unfold SFeqb, SFcompare, SFabs. rewrite Z.compare_refl, Pos.compare_cont_refl.
  by destruct s.
Qed.

Lemma is_finite_not_nan (v : float) :
  PrimFloat.is_finite v = true -> PrimFloat.is_nan v = false.
Proof.
  unfold PrimFloat.is_finite. destruct (PrimFloat.is_nan v); [discriminate|done].
Qed.

Lemma abs_is_nan (v : float) : PrimFloat.is_nan (abs v) = PrimFloat.is_nan v.
Proof.
  destruct (PrimFloat.is_nan v) eqn:E.
  - apply is_nan_Prim2SF. rewrite abs_spec. apply is_nan_Prim2SF in E. by rewrite E.
  - apply is_nan_false_Prim2SF. rewrite abs_spec. apply is_nan_false_Prim2SF in E.
    by destruct (Prim2SF v).
Qed.

Lemma SFsub_not_nan (x y : spec_float) :
  x <> S754_nan -> SF_is_finite y = true -> SFsub prec emax x y <> S754_nan.
Proof.
  destruct x as [sx|sx| |sx mx ex], y as [sy|sy| |sy my ey]; cbn;
    try congruence; try discriminate; intros _ _.
  - by destruct sx, sy.
  - apply binary_normalize_not_nan.
Qed.

Lemma SFadd_not_nan (x y : spec_float) :
  x <> S754_nan -> SF_is_finite y = true -> SFadd prec emax x y <> S754_nan.
Proof.
  destruct x as [sx|sx| |sx mx ex], y as [sy|sy| |sy my ey]; cbn;
    try congruence; try discriminate; intros _ _.
  - by destruct sx, sy.
  - apply binary_normalize_not_nan.
Qed.

Lemma SFmul_not_nan (x y : spec_float) :
  x <> S754_nan -> SF_is_nonzero y = true -> SFmul prec emax x y <> S754_nan.
Proof.
  destruct x as [sx|sx| |sx mx ex], y as [sy|sy| |sy my ey]; cbn;
    try congruence; try discriminate; intros _ _.
  apply binary_round_aux_not_nan. lia.
Qed.

Lemma SFdiv_core_binary_nonneg (m1 m2 : positive) (e1 e2 : Z) :
  0 <= fst (fst (SFdiv_core_binary prec emax (Z.pos m1) e1 (Z.pos m2) e2)).
Proof.
  unfold SFdiv_core_binary.
  set (s := _ - _ - _).
  set (m' := match s with Z.pos _ => _ | 0 => _ | Z.neg _ => _ end).
  assert (Hm : 0 <= m').
  { subst m'. destruct s; [lia| |lia]. apply Z.shiftl_nonneg. lia. }
  pose proof (Z_div_mod m' (Z.pos m2) ltac:(lia)) as H.
  destruct (Z.div_eucl m' (Z.pos m2)) as [q r]. cbn [fst].
  destruct H as [H1 H2]. nia.
Qed.

Lemma SFdiv_not_nan (x y : spec_float) :
  x <> S754_nan -> SF_is_nonzero y = true -> SFdiv prec emax x y <> S754_nan.
Proof.
  destruct x as [sx|sx| |sx mx ex], y as [sy|sy| |sy my ey]; cbn [SFdiv SF_is_nonzero];
    try congruence; try discriminate; intros _ _.
  pose proof (SFdiv_core_binary_nonneg mx my ex ey) as H.
  destruct (SFdiv_core_binary prec emax (Z.pos mx) ex (Z.pos my) ey) as [[mz ez] lz].
  apply binary_round_aux_not_nan. exact H.
Qed.

(** *** Integers below 2^53 are binary64 values, and so are their
    differences *)

Lemma iter_pos_eq {A : Type} (f : A -> A) (p : positive) (x : A) :
  SpecFloat.iter_pos f p x = Pos.iter f x p.
Proof.
  revert x. induction p as [p IH | p IH | ]; intros x; cbn; [ | | reflexivity].
  - rewrite !IH, !Pos.iter_swap. reflexivity.
  - rewrite !IH. reflexivity.
Qed.

Lemma digits2_pos_size (p : positive) : digits2_pos p = Pos.size p.
Proof. induction p as [p IH | p IH | ]; cbn; congruence. Qed.

Lemma shiftl_iter (c q : positive) (n : N) :
  Pos.iter xO (Pos.shiftl c n) q = Pos.shiftl c (n + N.pos q).
Proof.
  destruct n as [ | p]; [reflexivity | ].
  change (Pos.iter xO (Pos.iter xO c p) q = Pos.iter xO c (p + q)).
  rewrite (Pos.add_comm p q), Pos.iter_add. reflexivity.
Qed.

Lemma digits2_pos_iter (c q : positive) :
  digits2_pos (Pos.iter xO c q) = (digits2_pos c + q)%positive.
Proof.
  induction q as [ | q IH] using Pos.peano_ind.
  - cbn. lia.
  - rewrite Pos.iter_succ. cbn. rewrite IH. lia.
Qed.

Lemma digits2_pos_shiftl (c : positive) (n : N) :
  Z.pos (digits2_pos (Pos.shiftl c n)) = Z.pos (digits2_pos c) + Z.of_N n.
Proof.
  destruct n as [ | q]; unfold Pos.shiftl; [lia | ].
  rewrite digits2_pos_iter. lia.
Qed.

Lemma Zpos_iter_xO (c q : positive) : Z.pos (Pos.iter xO c q) = Z.pos c * 2 ^ Z.pos q.
Proof.
  induction q as [ | q IH] using Pos.peano_ind.
  - cbn. lia.
  - rewrite Pos.iter_succ, Pos2Z.inj_succ, Z.pow_succ_r by lia.
    rewrite Pos2Z.inj_xO, IH. lia.
Qed.

Lemma Zpos_shiftl (c : positive) (n : N) :
  Z.pos (Pos.shiftl c n) = Z.pos c * 2 ^ Z.of_N n.
Proof.
  destruct n as [ | q]; unfold Pos.shiftl; [cbn; lia | ]. apply Zpos_iter_xO.
Qed.

(** The bits shifted out of a multiple of [2^q] are zeros. *)
Lemma shr_exact (c q : positive) :
  SpecFloat.iter_pos shr_1 q
    {| shr_m := Z.pos (Pos.iter xO c q); shr_r := false; shr_s := false |}
  = {| shr_m := Z.pos c; shr_r := false; shr_s := false |}.
Proof.
  rewrite iter_pos_eq.
  induction q as [ | q IH] using Pos.peano_ind; [reflexivity | ].
  rewrite Pos.iter_succ_r, Pos.iter_succ. cbn [shr_1 orb]. exact IH.
Qed.

Lemma digits2_pos_bounds (p : positive) :
  2 ^ (Z.pos (digits2_pos p) - 1) <= Z.pos p < 2 ^ Z.pos (digits2_pos p).
Proof.
  induction p as [p IH | p IH | ]; cbn [digits2_pos]; [ | | cbn; lia].
  - rewrite Pos2Z.inj_succ.
    replace (Z.succ (Z.pos (digits2_pos p)) - 1) with (Z.succ (Z.pos (digits2_pos p) - 1)) by lia.
    rewrite !Z.pow_succ_r by lia.
    generalize dependent (2 ^ (Z.pos (digits2_pos p) - 1)).
    generalize dependent (2 ^ Z.pos (digits2_pos p)). lia.
  - rewrite Pos2Z.inj_succ.
    replace (Z.succ (Z.pos (digits2_pos p)) - 1) with (Z.succ (Z.pos (digits2_pos p) - 1)) by lia.
    rewrite !Z.pow_succ_r by lia.
    generalize dependent (2 ^ (Z.pos (digits2_pos p) - 1)).
    generalize dependent (2 ^ Z.pos (digits2_pos p)). lia.
Qed.

Lemma digits2_pos_le (p : positive) (d : Z) :
  0 <= d -> Z.pos p < 2 ^ d -> Z.pos (digits2_pos p) <= d.
Proof.
  intros Hd Hp. destruct (Z.le_gt_cases (Z.pos (digits2_pos p)) d) as [H|H]; [exact H|].
  pose proof (digits2_pos_bounds p) as [Hlo _].
  assert (2 ^ d <= 2 ^ (Z.pos (digits2_pos p) - 1)) by (apply Z.pow_le_mono_r; lia).
  lia.
Qed.

Lemma digits2_pos_mono (p q : positive) :
  (p <= q)%positive -> Z.pos (digits2_pos p) <= Z.pos (digits2_pos q).
Proof.
  intros Hpq. apply digits2_pos_le; [lia|].
  pose proof (digits2_pos_bounds q) as [_ Hhi]. lia.
Qed.

(** A mantissa in canonical position is not shifted. *)
Lemma shr_fexp_canonical (m : positive) (e : Z) :
  canonical_mantissa prec emax m e = true ->
  shr_fexp prec emax (Z.pos m) e loc_Exact
  = ({| shr_m := Z.pos m; shr_r := false; shr_s := false |}, e).
Proof.
  unfold canonical_mantissa, shr_fexp. intros H%Z.eqb_eq.
  cbn [Zdigits2 shr_record_of_loc]. rewrite H, Z.sub_diag. reflexivity.
Qed.

Lemma binary_round_aux_canonical (s : bool) (m : positive) (e : Z) :
  canonical_mantissa prec emax m e = true -> e <= emax - prec ->
  binary_round_aux prec emax s (Z.pos m) e loc_Exact = S754_finite s m e.
Proof.
  intros Hc He. unfold binary_round_aux.
  rewrite (shr_fexp_canonical m e Hc).
  cbn [shr_m loc_of_shr_record round_nearest_even].
  rewrite (shr_fexp_canonical m e Hc). cbn [shr_m].
  rewrite (proj2 (Z.leb_le _ _) He). reflexivity.
Qed.

(** The integer [c * 2^k], given as the mantissa [c * 2^k] at exponent
    [-k], is rounded to itself when [c] has at most 53 bits. *)
Lemma binary_round_multiple (s : bool) (c : positive) (k : N) :
  Z.pos (digits2_pos c) <= 53 ->
  binary_round prec emax s (Pos.shiftl c k) (- Z.of_N k)
  = S754_finite s (Pos.shiftl c (Z.to_N (53 - Z.pos (digits2_pos c))))
                  (Z.pos (digits2_pos c) - 53).
Proof.
  intros Hd. set (d := Z.pos (digits2_pos c)) in *.
  assert (Hd1 : 1 <= d) by (subst d; lia).
  assert (Hcanon : canonical_mantissa prec emax (Pos.shiftl c (Z.to_N (53 - d))) (d - 53) = true).
  { unfold canonical_mantissa. apply Z.eqb_eq.
    rewrite digits2_pos_shiftl. fold d. rewrite Z2N.id by lia.
    unfold fexp, SpecFloat.emin, prec, emax. lia. }
  assert (Hle : d - 53 <= emax - prec) by (unfold prec, emax; lia).
  unfold binary_round.
  rewrite digits2_pos_shiftl. fold d.
  replace (fexp prec emax (d + Z.of_N k + - Z.of_N k)) with (d - 53)
    by (unfold fexp, SpecFloat.emin, prec, emax; lia).
  unfold shl_align.
  destruct (d - 53 - - Z.of_N k) as [ | q | q] eqn:Et.
  - replace k with (Z.to_N (53 - d)) by lia.
    replace (- Z.of_N (Z.to_N (53 - d))) with (d - 53) by lia.
    by apply binary_round_aux_canonical.
  - unfold binary_round_aux.
    assert (Ek : k = (Z.to_N (53 - d) + N.pos q)%N) by lia.
    assert (Esh : shr_fexp prec emax (Z.pos (Pos.shiftl c k)) (- Z.of_N k) loc_Exact
                  = ({| shr_m := Z.pos (Pos.shiftl c (Z.to_N (53 - d)));
                        shr_r := false; shr_s := false |}, d - 53)).
    { unfold shr_fexp. cbn [Zdigits2 shr_record_of_loc].
      rewrite digits2_pos_shiftl. fold d.
      replace (fexp prec emax (d + Z.of_N k + - Z.of_N k)) with (d - 53)
        by (unfold fexp, SpecFloat.emin, prec, emax; lia).
      rewrite Et. cbn [shr]. rewrite Ek at 1. rewrite <- shiftl_iter, shr_exact.
      f_equal. lia. }
    rewrite Esh. cbn [shr_m loc_of_shr_record round_nearest_even].
    rewrite (shr_fexp_canonical _ _ Hcanon). cbn [shr_m].
    rewrite (proj2 (Z.leb_le _ _) Hle). reflexivity.
  - rewrite shiftl_iter.
    replace (k + N.pos q)%N with (Z.to_N (53 - d)) by lia.
    by apply binary_round_aux_canonical.
Qed.

(** The binary64 value of a positive index below 2^53. *)
Lemma of_index_pos (n : positive) :
  Z.pos n < 2 ^ 53 ->
  Prim2SF (of_index (Pos.to_nat n))
  = S754_finite false (Pos.shiftl n (Z.to_N (53 - Z.pos (digits2_pos n))))
                      (Z.pos (digits2_pos n) - 53).
Proof.
  intros Hn. unfold of_index. rewrite of_uint63_spec, Uint63.of_Z_spec.
  rewrite positive_nat_Z, Z.mod_small by (change Uint63.wB with (2 ^ 63); lia).
  cbn [binary_normalize].
  apply (binary_round_multiple false n 0).
  apply digits2_pos_le; lia.
Qed.

Lemma of_index_0 : Prim2SF (of_index 0) = S754_zero false.
Proof. reflexivity. Qed.

(** The difference of two distinct indices below 2^53 is a finite
    binary64 value other than zero. *)
Lemma of_index_sub (a b : nat) :
  (a < b)%nat -> Z.of_nat b < 2 ^ 53 ->
  SF_is_nonzero (Prim2SF (of_index b - of_index a)) = true.
Proof.
  intros Hab Hb. rewrite sub_spec.
  assert (Eb : b = Pos.to_nat (Pos.of_nat b)) by (rewrite Nat2Pos.id; lia).
  rewrite Eb, of_index_pos by lia.
  destruct a as [ | a']; [reflexivity | ].
  set (a := S a') in *.
  assert (Ea : a = Pos.to_nat (Pos.of_nat a)) by (rewrite Nat2Pos.id; lia).
  rewrite Ea, of_index_pos by lia.
  set (pa := Pos.of_nat a) in *. set (pb := Pos.of_nat b) in *.
  assert (Hpab : (pa < pb)%positive) by lia.
  set (da := Z.pos (digits2_pos pa)). set (db := Z.pos (digits2_pos pb)).
  assert (Hda : 1 <= da <= 53) by (subst da; split; [lia | apply digits2_pos_le; lia]).
  assert (Hdb : da <= db <= 53).
  { subst da db. split; [apply digits2_pos_mono; lia | apply digits2_pos_le; lia]. }
  unfold SF64sub. cbn [SFsub].
  replace (Z.min (db - 53) (da - 53)) with (da - 53) by lia.
  assert (E1 : fst (shl_align (Pos.shiftl pb (Z.to_N (53 - db))) (db - 53) (da - 53))
               = Pos.shiftl pb (Z.to_N (53 - da))).
  { unfold shl_align. destruct (da - 53 - (db - 53)) as [ | q | q] eqn:Et; cbn [fst].
    - f_equal. lia.
    - lia.
    - rewrite shiftl_iter. f_equal. lia. }
  assert (E2 : fst (shl_align (Pos.shiftl pa (Z.to_N (53 - da))) (da - 53) (da - 53))
               = Pos.shiftl pa (Z.to_N (53 - da))).
  { unfold shl_align. rewrite Z.sub_diag. reflexivity. }
  rewrite E1, E2. cbn [cond_Zopp].
  assert (E3 : Z.pos (Pos.shiftl pb (Z.to_N (53 - da))) - Z.pos (Pos.shiftl pa (Z.to_N (53 - da)))
               = Z.pos (Pos.shiftl (pb - pa) (Z.to_N (53 - da)))).
  { rewrite !Zpos_shiftl, Pos2Z.inj_sub by exact Hpab. lia. }
  rewrite E3. cbn [binary_normalize].
  replace (da - 53) with (- Z.of_N (Z.to_N (53 - da))) by lia.
  rewrite binary_round_multiple; [reflexivity | ].
  apply digits2_pos_le; lia.
Qed.

(** On row indices below 2^53 the float64 comparisons of [np.interp]'s
    search agree with the comparisons of the integers. *)
Lemma of_index_compare (a b : nat) :
  Z.of_nat a < 2 ^ 53 -> Z.of_nat b < 2 ^ 53 ->
  SFcompare (Prim2SF (of_index a)) (Prim2SF (of_index b)) = Some (Nat.compare a b).
Proof.
  intros Ha Hb.
  destruct a as [ | a']; destruct b as [ | b'].
  - reflexivity.
  - set (b := S b') in *.
    assert (Eb : b = Pos.to_nat (Pos.of_nat b)) by (rewrite Nat2Pos.id; lia).
    rewrite Eb at 1. rewrite of_index_pos by lia. reflexivity.
  - set (a := S a') in *.
    assert (Ea : a = Pos.to_nat (Pos.of_nat a)) by (rewrite Nat2Pos.id; lia).
    rewrite Ea at 1. rewrite of_index_pos by lia. reflexivity.
  - set (a := S a') in *. set (b := S b') in *.
    assert (Ea : a = Pos.to_nat (Pos.of_nat a)) by (rewrite Nat2Pos.id; lia).
    assert (Eb : b = Pos.to_nat (Pos.of_nat b)) by (rewrite Nat2Pos.id; lia).
    rewrite Ea at 1. rewrite Eb at 1. rewrite !of_index_pos by lia.
    set (pa := Pos.of_nat a) in *. set (pb := Pos.of_nat b) in *.
    set (da := Z.pos (digits2_pos pa)). set (db := Z.pos (digits2_pos pb)).
    assert (Hda : 1 <= da <= 53) by (subst da; split; [lia | apply digits2_pos_le; lia]).
    assert (Hdb : 1 <= db <= 53) by (subst db; split; [lia | apply digits2_pos_le; lia]).
    cbn [SFcompare]. f_equal.
    change (Pos.compare_cont Eq) with Pos.compare.
    destruct (Nat.compare_spec a b) as [Hab | Hab | Hab].
    + assert (pa = pb) as -> by lia. fold da.
      by rewrite Z.compare_refl, Pos.compare_refl.
    + assert (Hle : da <= db) by (subst da db; apply digits2_pos_mono; lia).
      destruct (Z.compare_spec (da - 53) (db - 53)) as [He | He | He]; [ | reflexivity | lia].
      assert (Hd : da = db) by lia. rewrite <- Hd.
      apply Pos.compare_lt_iff.
      assert (Z.pos (Pos.shiftl pa (Z.to_N (53 - da))) < Z.pos (Pos.shiftl pb (Z.to_N (53 - da))));
        [ | lia].
      rewrite !Zpos_shiftl. apply Z.mul_lt_mono_pos_r; [apply Z.pow_pos_nonneg; lia | lia].
    + assert (Hle : db <= da) by (subst da db; apply digits2_pos_mono; lia).
      destruct (Z.compare_spec (da - 53) (db - 53)) as [He | He | He]; [ | lia | reflexivity].
      assert (Hd : da = db) by lia. rewrite <- Hd.
      apply Pos.compare_gt_iff.
      assert (Z.pos (Pos.shiftl pb (Z.to_N (53 - da))) < Z.pos (Pos.shiftl pa (Z.to_N (53 - da))));
        [ | lia].
      rewrite !Zpos_shiftl. apply Z.mul_lt_mono_pos_r; [apply Z.pow_pos_nonneg; lia | lia].
Qed.

Lemma of_index_ltb (a b : nat) :
  Z.of_nat a < 2 ^ 53 -> Z.of_nat b < 2 ^ 53 ->
  (of_index a <? of_index b)%float = (a <? b)%nat.
Proof.
  intros Ha Hb. rewrite FloatAxioms.ltb_spec. unfold SFltb.
  rewrite (of_index_compare a b Ha Hb).
  destruct (Nat.compare_spec a b) as [Hab | Hab | Hab];
    symmetry; [apply Nat.ltb_ge | apply Nat.ltb_lt | apply Nat.ltb_ge]; lia.
Qed.

Lemma of_index_eqb (a b : nat) :
  Z.of_nat a < 2 ^ 53 -> Z.of_nat b < 2 ^ 53 ->
  (of_index a =? of_index b)%float = (a =? b)%nat.
Proof.
  intros Ha Hb. rewrite FloatAxioms.eqb_spec. unfold SFeqb.
  rewrite (of_index_compare a b Ha Hb).
  destruct (Nat.compare_spec a b) as [Hab | Hab | Hab];
    symmetry; [apply Nat.eqb_eq | apply Nat.eqb_neq | apply Nat.eqb_neq]; lia.
Qed.

(** *** Differences and absolute values *)





(** *** A difference of two binary64 values is zero only if they are equal *)













Lemma sub_is_nan (x t : float) :
  PrimFloat.is_nan x = false -> PrimFloat.is_finite t = true ->
  PrimFloat.is_nan (x - t) = false.
Proof.
  rewrite !is_nan_false_Prim2SF, is_finite_Prim2SF, sub_spec. apply SFsub_not_nan.
Qed.

Lemma abs_sub_is_nan (x t : float) :
  PrimFloat.is_nan x = false -> PrimFloat.is_finite t = true ->
  PrimFloat.is_nan (abs (x - t)) = false.
Proof. intros Hx Ht. rewrite abs_is_nan. by apply sub_is_nan. Qed.

Lemma add_is_nan (a b : float) :
  PrimFloat.is_nan a = false -> PrimFloat.is_finite b = true ->
  PrimFloat.is_nan (a + b) = false.
Proof.
  rewrite !is_nan_false_Prim2SF, is_finite_Prim2SF, add_spec. apply SFadd_not_nan.
Qed.

Lemma mul_is_nan (a b : float) :
  PrimFloat.is_nan a = false -> SF_is_nonzero (Prim2SF b) = true ->
  PrimFloat.is_nan (a * b) = false.
Proof.
  rewrite !is_nan_false_Prim2SF, mul_spec. apply SFmul_not_nan.
Qed.

Lemma div_is_nan (a b : float) :
  PrimFloat.is_nan a = false -> SF_is_nonzero (Prim2SF b) = true ->
  PrimFloat.is_nan (a / b) = false.
Proof.
  rewrite !is_nan_false_Prim2SF, div_spec. apply SFdiv_not_nan.
Qed.

Lemma is_finite_of_not_nan_inf (v : float) :
  PrimFloat.is_nan v = false -> PrimFloat.is_infinity v = false ->
  PrimFloat.is_finite v = true.
Proof. unfold PrimFloat.is_finite. by intros -> ->. Qed.

(** *** The interpolant of finite samples *)

(** Between two finite samples at rows below 2^53 the interpolant is not
    NaN, so [np.interp] stores it. *)
Lemma interpolant_not_nan (x0 x1 x : nat) (y0 y1 : float) :
  (x0 < x < x1)%nat -> Z.of_nat x1 < 2 ^ 53 ->
  PrimFloat.is_finite y0 = true -> PrimFloat.is_finite y1 = true ->
  PrimFloat.is_nan (interpolant x0 y0 x1 y1 x) = false.
Proof.
  intros Hx Hx1 Hy0 Hy1. unfold interpolant.
  apply add_is_nan; [|exact Hy0].
  apply mul_is_nan; [|apply of_index_sub; lia].
  apply div_is_nan; [|apply of_index_sub; lia].
  apply sub_is_nan; [by apply is_finite_not_nan|exact Hy0].
Qed.

Lemma lerp_interpolant (x0 x1 x : nat) (y0 y1 : float) :
  (x0 < x < x1)%nat -> Z.of_nat x1 < 2 ^ 53 ->
  PrimFloat.is_finite y0 = true -> PrimFloat.is_finite y1 = true ->
  lerp x0 y0 x1 y1 x = interpolant x0 y0 x1 y1 x.
Proof.
  intros Hx Hx1 Hy0 Hy1.
  pose proof (interpolant_not_nan x0 x1 x y0 y1 Hx Hx1 Hy0 Hy1) as H.
  unfold lerp, interpolant in *. by rewrite H.
Qed.
(** *** Facts about argmin and find_nearest_indices *)

Lemma no_nan_lookup (arr : list cell) (k : nat) (c : cell) :
  no_nan arr -> arr !! k = Some c -> isnan c = false.
Proof.
  intros Hnn Hk. exact (proj1 (Forall_lookup _ _) Hnn k c Hk).
Qed.

(** The scan keeps the first minimum of what it has seen.  [pre] is the
    part of the array already scanned, [l] the part still to scan. *)
Lemma argmin_scan_first_min (l pre : list cell) (m : float) (min_ind : nat) :
  no_nan l -> isnan m = false ->
  pre !! min_ind = Some m ->
  (forall (k : nat) (w : float), pre !! k = Some w -> (m <=? w)%float = true) ->
  (forall (k : nat) (w : float), (k < min_ind)%nat -> pre !! k = Some w ->
      (m <? w)%float = true) ->
  exists v : float,
    (pre ++ l) !! argmin_scan m min_ind (length pre) l = Some v
    /\ (forall (k : nat) (w : float), (pre ++ l) !! k = Some w -> (v <=? w)%float = true)
    /\ (forall (k : nat) (w : float),
          (k < argmin_scan m min_ind (length pre) l)%nat ->
          (pre ++ l) !! k = Some w -> (v <? w)%float = true).
Proof.
  revert pre m min_ind.
  induction l as [|c l IH]; intros pre m min_ind Hnn Hmn Hm Hle Hlt.
  - cbn [argmin_scan]. rewrite app_nil_r. exists m. done.
  - apply Forall_cons in Hnn as [Hc Hnn]. cbn beta in Hc.
    cbn [argmin_scan].
    change (pre ++ c :: l) with (pre ++ [c] ++ l).
    rewrite app_assoc.
    assert (Elen : S (length pre) = length (pre ++ [c]))
      by (rewrite length_app; cbn; lia).
    rewrite Elen. clear Elen.
    destruct (m <=? c)%float eqn:Hcmp.
    + apply IH; [exact Hnn|exact Hmn| | |].
      * apply lookup_app_l_Some. exact Hm.
      * intros k w Hk. apply lookup_app_Some in Hk as [Hk|[_ Hk]]; [by eapply Hle|].
        apply list_lookup_singleton_Some in Hk as [_ <-]. exact Hcmp.
      * intros k w Hkm Hk. apply lookup_app_Some in Hk as [Hk|[Hge _]]; [by eapply Hlt|].
        apply lookup_lt_Some in Hm. lia.
    + rewrite Hc.
      assert (Hxm : (c <? m)%float = true) by (by apply leb_false_ltb).
      apply IH; [exact Hnn|exact Hc| | |].
      * by apply list_lookup_middle.
      * intros k w Hk. apply lookup_app_Some in Hk as [Hk|[_ Hk]].
        -- apply ltb_leb. eapply ltb_leb_trans; [exact Hxm|]. by eapply Hle.
        -- apply list_lookup_singleton_Some in Hk as [_ <-]. by apply leb_refl.
      * intros k w Hkm Hk. apply lookup_app_Some in Hk as [Hk|[Hge _]]; [|lia].
        eapply ltb_leb_trans; [exact Hxm|]. by eapply Hle.
Qed.

Lemma argmin_first_min (a : list cell) :
  a <> [] -> no_nan a ->
  exists (i : nat) (v : float),
    argmin a = Ok i
    /\ a !! i = Some v
    /\ (forall (k : nat) (w : float), a !! k = Some w -> (v <=? w)%float = true)
    /\ (forall (k : nat) (w : float), (k < i)%nat -> a !! k = Some w ->
          (v <? w)%float = true).
Proof.
  intros Hne Hnn. destruct a as [|m l]; [congruence|].
  apply Forall_cons in Hnn as [Hc Hnn]. cbn beta in Hc.
  cbn [argmin]. rewrite Hc.
  destruct (argmin_scan_first_min l [m] m 0 Hnn Hc) as (v & Hv & Hle & Hlt).
  - reflexivity.
  - intros k w Hk. apply list_lookup_singleton_Some in Hk as [_ <-]. by apply leb_refl.
  - intros k w Hk. lia.
  - exists (argmin_scan m 0 1 l), v. done.
Qed.

Lemma abs_diff_lookup (arr : list cell) (target : float) (k : nat) :
  abs_diff arr target !! k
  = (fun c => abs (c - target)%float) <$> arr !! k.
Proof. unfold abs_diff. apply list_lookup_fmap. Qed.

Lemma abs_diff_no_nan (arr : list cell) (target : float) :
  no_nan arr -> isfinite target = true -> no_nan (abs_diff arr target).
Proof.
  unfold no_nan, abs_diff. intros Hnn Ht. apply Forall_fmap.
  eapply Forall_impl; [exact Hnn|]. intros c Hc. cbn. by apply abs_sub_is_nan.
Qed.

Lemma argmin_abs_diff (arr : list cell) (target : float) :
  arr <> [] -> no_nan arr -> isfinite target = true ->
  exists i : nat, argmin (abs_diff arr target) = Ok i /\ first_nearest arr target i.
Proof.
  intros Hne Hnn Ht.
  destruct (argmin_first_min (abs_diff arr target)) as (i & d & Hi & Hd & Hle & Hlt).
  - destruct arr; [congruence|discriminate].
  - by apply abs_diff_no_nan.
  - exists i. split; [exact Hi|].
    rewrite abs_diff_lookup in Hd.
    destruct (arr !! i) as [v|] eqn:Hv; [|discriminate Hd].
    cbn in Hd. injection Hd as <-.
    exists v. split; [exact Hv|]. split.
    + intros k w Hk. apply (Hle k). rewrite abs_diff_lookup, Hk. reflexivity.
    + intros k w Hki Hk. apply (Hlt k); [exact Hki|].
      rewrite abs_diff_lookup, Hk. reflexivity.
Qed.





Example find_nearest_indices_tie :
  find_nearest_indices [24; target_lat; 27; target_lat]%float [-82; -81; -79]%float
    target_lat target_lon = Ok (1%nat, 1%nat).
Proof. vm_compute. reflexivity. Qed.

(** The distances are the computed ones: 2^53 + 1 is not a float64, so from
    the target -1 the entries 2^53 and 2^53 - 1 are both at computed
    distance 2^53, and the first of them is returned. *)
Example find_nearest_indices_rounding_tie :
  find_nearest_indices [0x1p+53; 0x1.fffffffffffffp+52]%float [0]%float (-1) 0
  = Ok (0%nat, 0%nat)
  /\ abs (0x1p+53 - -1)%float = abs (0x1.fffffffffffffp+52 - -1)%float.
Proof. split; vm_compute; reflexivity. Qed.

(** An undefined entry counts as minimal for [argmin], as in numpy: the
    search is meant for arrays without undefined entries. *)
Example argmin_nan : argmin [1; nan; 0]%float = Ok 1%nat.
Proof. vm_compute. reflexivity. Qed.

Example argmin_empty : argmin [] = Raise ValueError.
Proof. reflexivity. Qed.

(** *** Facts about the two-pass search *)

Lemma column_Ok {A : Type} (a : array2 A) (c : nat) :
  wf_array2 a -> (c < shape1 a)%nat ->
  exists col : list A,
    column a c = Ok col
    /\ length col = shape0 a
    /\ forall r : nat, col !! r = item a r c.
Proof.
  intros Hwf Hc. unfold column. rewrite bool_decide_eq_true_2 by exact Hc.
  unfold item, shape0. unfold wf_array2 in Hwf.
  induction Hwf as [|rw rws Hlen _ IH].
  - exists []. split; [reflexivity|]. split; [reflexivity|]. intros r. reflexivity.
  - destruct IH as (col & Hcol & Hl & Hitem).
    destruct (lookup_lt_is_Some_2 rw c ltac:(lia)) as [v Hv].
    destruct (mapM (fun r : list A => r !! c) rws) as [col'|] eqn:Hm;
      [|discriminate Hcol].
    injection Hcol as <-.
    exists (v :: col'). cbn. rewrite Hv. cbn. rewrite Hm. cbn.
    split; [reflexivity|]. split; [lia|].
    intros [|r]; cbn; [by rewrite Hv|apply Hitem].
Qed.

Lemma row_Ok {A : Type} (a : array2 A) (r : nat) :
  wf_array2 a -> (r < shape0 a)%nat ->
  exists rw : list A,
    row a r = Ok rw
    /\ length rw = shape1 a
    /\ forall c : nat, rw !! c = item a r c.
Proof.
  intros Hwf Hr. unfold row, item.
  destruct (lookup_lt_is_Some_2 (rows a) r Hr) as [rw Hrw].
  exists rw. rewrite Hrw. split; [reflexivity|]. split; [|reflexivity].
  eapply (proj1 (Forall_lookup _ _) Hwf), Hrw.
Qed.

Lemma no_nan2_item (a : array2 cell) (r c : nat) (x : cell) :
  no_nan2 a -> item a r c = Some x -> isnan x = false.
Proof.
  intros Hnn. unfold item.
  destruct (rows a !! r) as [rw|] eqn:Hrw; [|discriminate].
  cbn. intros Hx.
  pose proof (proj1 (Forall_lookup _ _) Hnn r rw Hrw) as Hrow.
  exact (proj1 (Forall_lookup _ _) Hrow c x Hx).
Qed.

Lemma no_nan_of_items (a : array2 cell) (l : list cell) (f : nat -> option cell) :
  (forall k : nat, l !! k = f k) ->
  (forall (k : nat) (x : cell), f k = Some x -> isnan x = false) ->
  no_nan l.
Proof.
  intros Hl Hf. apply Forall_lookup. intros k x Hk. apply (Hf k). by rewrite <- Hl.
Qed.

Lemma first_nearest_lt (arr : list cell) (target : float) (i : nat) :
  first_nearest arr target i -> (i < length arr)%nat.
Proof. intros (v & Hv & _). eapply lookup_lt_Some, Hv. Qed.

Lemma find_nearest_indices_Ok (lat_arr lon_arr : list cell) (target_lat target_lon : float) :
  lat_arr <> [] -> lon_arr <> [] -> no_nan lat_arr -> no_nan lon_arr ->
  isfinite target_lat = true -> isfinite target_lon = true ->
  exists lat_idx lon_idx : nat,
    find_nearest_indices lat_arr lon_arr target_lat target_lon = Ok (lat_idx, lon_idx)
    /\ first_nearest lat_arr target_lat lat_idx
    /\ first_nearest lon_arr target_lon lon_idx.
Proof.
  intros Hlat Hlon Hnlat Hnlon Htlat Htlon.
  destruct (argmin_abs_diff lat_arr target_lat Hlat Hnlat Htlat) as (lat_idx & Hi & Hfi).
  destruct (argmin_abs_diff lon_arr target_lon Hlon Hnlon Htlon) as (lon_idx & Hj & Hfj).
  exists lat_idx, lon_idx.
  split; [unfold find_nearest_indices; rewrite Hi, bind_Ok, Hj, bind_Ok; reflexivity|].
  split; assumption.
Qed.

Lemma nonempty_of_length {A : Type} (l : list A) : (0 < length l)%nat -> l <> [].
Proof. destruct l; cbn; [lia|discriminate]. Qed.

(** C6 as stated fails: on the grid [skewed_lat], [skewed_lon] (no cell
    undefined: forward_fill_2d returns it as it is) with target (0, 0) the
    first pass gives (1, 1), at latitude error 2 and longitude error 2, and
    the second pass gives (0, 0), at latitude error 3 and longitude error 3:
    farther on both axes. *)
Lemma nearest_two_pass_moves_away :
  no_nan2 skewed_lat /\ no_nan2 skewed_lon
  /\ forward_fill_2d 1%positive {[ 1%positive := skewed_lat ]}
     = ({[ 1%positive := skewed_lat ]}, Ok 1%positive)
  /\ forward_fill_2d 1%positive {[ 1%positive := skewed_lon ]}
     = ({[ 1%positive := skewed_lon ]}, Ok 1%positive)
  /\ nearest_two_pass skewed_lat skewed_lon 0 0 = Ok ((1%nat, 1%nat), (0%nat, 0%nat))
  /\ axis_error skewed_lat 0 (1%nat, 1%nat) = Some 2%float
  /\ axis_error skewed_lat 0 (0%nat, 0%nat) = Some 3%float
  /\ axis_error skewed_lon 0 (1%nat, 1%nat) = Some 2%float
  /\ axis_error skewed_lon 0 (0%nat, 0%nat) = Some 3%float
  /\ (3 <=? 2)%float = false.
Proof.
  split; [repeat constructor|]. split; [repeat constructor|].
  repeat split; vm_compute; reflexivity.
Qed.

(** C6 (amended): on grids of one shape, without undefined cells and with
    at least one row and one column, and for finite targets, both passes
    return, and the second pass is no farther from the target than the first
    guess along the slices it searches, in the distances the search computes
    (float64 [np.abs(a - target)]): the latitude error at (closer row, first
    column guess) is at most the latitude error at the first guess, and the
    longitude error at (first row guess, closer column) is at most the
    longitude error at the first guess. *)
Theorem nearest_two_pass_improves_on_slices
    (abi_lat abi_lon : array2 cell) (target_lat target_lon : float) :
  wf_array2 abi_lat -> wf_array2 abi_lon ->
  shape0 abi_lat = shape0 abi_lon -> shape1 abi_lat = shape1 abi_lon ->
  (0 < shape0 abi_lat)%nat -> (0 < shape1 abi_lat)%nat ->
  no_nan2 abi_lat -> no_nan2 abi_lon ->
  isfinite target_lat = true -> isfinite target_lon = true ->
  exists (i0 j0 i1 j1 : nat) (e0 e1 f0 f1 : float),
    nearest_two_pass abi_lat abi_lon target_lat target_lon = Ok ((i0, j0), (i1, j1))
    /\ axis_error abi_lat target_lat (i0, j0) = Some e0
    /\ axis_error abi_lat target_lat (i1, j0) = Some e1
    /\ (e1 <=? e0)%float = true
    /\ axis_error abi_lon target_lon (i0, j0) = Some f0
    /\ axis_error abi_lon target_lon (i0, j1) = Some f1
    /\ (f1 <=? f0)%float = true.
Proof.
  intros Hwlat Hwlon Hs0 Hs1 Hr Hc Hnlat Hnlon Htlat Htlon.
  unfold nearest_two_pass.
  destruct (column_Ok abi_lat 0 Hwlat Hc) as (lat_0 & -> & Hl0 & Hi0).
  destruct (row_Ok abi_lon 0 Hwlon ltac:(lia)) as (lon_0 & -> & Hm0 & Hj0).
  rewrite !bind_Ok.
  destruct (find_nearest_indices_Ok lat_0 lon_0 target_lat target_lon)
    as (i0 & j0 & -> & Hfi0 & Hfj0); try assumption.
  { apply nonempty_of_length. lia. }
  { apply nonempty_of_length. lia. }
  { eapply (no_nan_of_items abi_lat); [exact Hi0|].
    intros k x. by apply no_nan2_item. }
  { eapply (no_nan_of_items abi_lon); [exact Hj0|].
    intros k x. by apply no_nan2_item. }
  rewrite bind_Ok. cbn [fst snd].
  apply first_nearest_lt in Hfi0, Hfj0.
  destruct (column_Ok abi_lat j0 Hwlat ltac:(lia)) as (lat_1 & -> & Hl1 & Hi1).
  destruct (row_Ok abi_lon i0 Hwlon ltac:(lia)) as (lon_1 & -> & Hm1 & Hj1).
  rewrite !bind_Ok.
  destruct (find_nearest_indices_Ok lat_1 lon_1 target_lat target_lon)
    as (i1 & j1 & -> & Hfi1 & Hfj1); try assumption.
  { apply nonempty_of_length. lia. }
  { apply nonempty_of_length. lia. }
  { eapply (no_nan_of_items abi_lat); [exact Hi1|].
    intros k x. by apply no_nan2_item. }
  { eapply (no_nan_of_items abi_lon); [exact Hj1|].
    intros k x. by apply no_nan2_item. }
  rewrite bind_Ok.
  destruct Hfi1 as (v1 & Hv1 & Hle1 & _).
  destruct Hfj1 as (w1 & Hw1 & Hle2 & _).
  destruct (lookup_lt_is_Some_2 lat_1 i0 ltac:(lia)) as [v0 Hv0].
  destruct (lookup_lt_is_Some_2 lon_1 j0 ltac:(lia)) as [w0 Hw0].
  exists i0, j0, i1, j1.
  exists (abs (v0 - target_lat)), (abs (v1 - target_lat)),
         (abs (w0 - target_lon)), (abs (w1 - target_lon)).
  split; [reflexivity|].
  unfold axis_error. cbn [fst snd].
  rewrite <- !Hi1, <- !Hj1, Hv0, Hv1, Hw0, Hw1.
  split; [reflexivity|]. split; [reflexivity|].
  split; [by apply (Hle1 i0)|].
  split; [reflexivity|]. split; [reflexivity|].
  by apply (Hle2 j0).
Qed.

Lemma nearest_two_pass_improves_on_slices_witness :
  exists (i0 j0 i1 j1 : nat) (e0 e1 f0 f1 : float),
    nearest_two_pass skewed_lat skewed_lon 0 0 = Ok ((i0, j0), (i1, j1))
    /\ axis_error skewed_lat 0 (i0, j0) = Some e0
    /\ axis_error skewed_lat 0 (i1, j0) = Some e1
    /\ (e1 <=? e0)%float = true
    /\ axis_error skewed_lon 0 (i0, j0) = Some f0
    /\ axis_error skewed_lon 0 (i0, j1) = Some f1
    /\ (f1 <=? f0)%float = true.
Proof.
  apply (nearest_two_pass_improves_on_slices skewed_lat skewed_lon 0 0).
  - repeat constructor.
  - repeat constructor.
  - reflexivity.
  - reflexivity.
  - cbn. lia.
  - cbn. lia.
  - repeat constructor.
  - repeat constructor.
  - reflexivity.
  - reflexivity.
Defined.

(** *** Facts about np.interp on the defined cells of a column *)

(** float64 has one NaN here: the payload of a NaN is not modelled. *)
Lemma isnan_eq (c : cell) : isnan c = true <-> c = nan.
Proof.
  split; [|by intros ->].
  intros H. apply Prim2SF_inj. apply is_nan_Prim2SF in H. by rewrite H.
Qed.

Lemma flatnonzero_select_length (col : list cell) (s : nat) :
  length (flatnonzero_from s (map negb (map isnan col)))
  = length (select (map negb (map isnan col)) col).
Proof.
  revert s. induction col as [|c col IH]; intros s; [reflexivity|].
  cbn [map flatnonzero_from select]. destruct (isnan c); cbn [negb length]; [apply IH|].
  f_equal. apply IH.
Qed.

Lemma combine_defined_points (col : list cell) (s : nat) :
  combine (flatnonzero_from s (map negb (map isnan col)))
          (select (map negb (map isnan col)) col)
  = defined_points s col.
Proof.
  revert s. induction col as [|c col IH]; intros s; [reflexivity|].
  cbn [map flatnonzero_from select defined_points].
  destruct (isnan c); cbn [negb combine]; [apply IH|].
  f_equal. apply IH.
Qed.

Lemma flatnonzero_defined_nil (col : list cell) (s : nat) :
  flatnonzero_from s (map negb (map isnan col)) = [] <-> ~ has_defined col.
Proof.
  unfold has_defined. revert s.
  induction col as [|c col IH]; intros s.
  - split; [intros _ H; by apply Exists_nil in H|done].
  - cbn [map flatnonzero_from]. destruct (isnan c) eqn:Hc; cbn [negb].
    + rewrite IH. split.
      * intros H H'. apply Exists_cons in H' as [H'|H']; [congruence|by apply H].
      * intros H H'. apply H. by apply Exists_cons_tl.
    + split; [discriminate|]. intros H. exfalso. apply H. by apply Exists_cons_hd.
Qed.

Lemma np_interp_column (col : list cell) (x : list nat) :
  has_defined col ->
  np_interp x (flatnonzero (map negb (map isnan col)))
            (select (map negb (map isnan col)) col)
  = Ok (map (fun xi => interp1 xi (defined_points 0 col)) x).
Proof.
  intros Hdef. unfold np_interp, flatnonzero.
  rewrite bool_decide_eq_true_2 by apply flatnonzero_select_length.
  rewrite combine_defined_points.
  destruct (flatnonzero_from 0 (map negb (map isnan col))) eqn:E; [|reflexivity].
  exfalso. by apply (proj1 (flatnonzero_defined_nil col 0)) in E.
Qed.

Lemma np_interp_column_undefined (col : list cell) (x : list nat) :
  ~ has_defined col ->
  np_interp x (flatnonzero (map negb (map isnan col)))
            (select (map negb (map isnan col)) col)
  = Raise ValueError.
Proof.
  intros Hdef. unfold np_interp, flatnonzero.
  apply (proj2 (flatnonzero_defined_nil col 0)) in Hdef. rewrite Hdef.
  by case_bool_decide.
Qed.

Lemma defined_points_app (a b : list cell) (s : nat) :
  defined_points s (a ++ b) = defined_points s a ++ defined_points (s + length a) b.
Proof.
  revert s. induction a as [|c a IH]; intros s.
  - cbn. by rewrite Nat.add_0_r.
  - cbn [app defined_points length]. rewrite IH.
    replace (S s + length a)%nat with (s + S (length a))%nat by lia.
    by destruct (isnan c).
Qed.

Lemma defined_points_all_nan (a : list cell) (s : nat) :
  Forall (fun c => c = nan) a -> defined_points s a = [].
Proof.
  intros H. revert s. induction H as [|c a -> _ IH]; intros s; [reflexivity|].
  cbn [defined_points]. change (isnan nan) with true. apply IH.
Qed.

Lemma defined_points_range (a : list cell) (s : nat) :
  Forall (fun p => (s <= fst p < s + length a)%nat /\ isnan (snd p) = false)
         (defined_points s a).
Proof.
  revert s. induction a as [|c a IH]; intros s; [constructor|].
  cbn [defined_points length]. destruct (isnan c) eqn:Hc.
  - eapply Forall_impl; [apply IH|]. cbn. intros p [Hp Hv]. split; [lia|exact Hv].
  - constructor; [cbn; split; [lia|exact Hc]|].
    eapply Forall_impl; [apply IH|]. cbn. intros p [Hp Hv]. split; [lia|exact Hv].
Qed.

Lemma defined_points_values (a : list cell) (s : nat) :
  Forall (fun p => snd p ∈ a) (defined_points s a).
Proof.
  revert s. induction a as [|c a IH]; intros s; [constructor|].
  cbn [defined_points]. destruct (isnan c).
  - eapply Forall_impl; [apply IH|]. cbn. intros p Hp. by apply list_elem_of_further.
  - constructor; [apply list_elem_of_here|].
    eapply Forall_impl; [apply IH|]. cbn. intros p Hp. by apply list_elem_of_further.
Qed.

(** The sample points of a column without infinities, of fewer than 2^53
    rows: finite values at rows that float64 holds exactly. *)
Lemma defined_points_finite (col : list cell) :
  no_inf col -> Z.of_nat (length col) <= 2 ^ 53 ->
  Forall (fun p => isfinite (snd p) = true /\ Z.of_nat (fst p) < 2 ^ 53)
         (defined_points 0 col).
Proof.
  intros Hinf Hlen.
  pose proof (defined_points_range col 0) as H1.
  pose proof (defined_points_values col 0) as H2.
  apply Forall_lookup. intros k p Hk.
  destruct (proj1 (Forall_lookup _ _) H1 k p Hk) as [Hp Hn].
  pose proof (proj1 (Forall_lookup _ _) H2 k p Hk) as Hv. cbn beta in Hv.
  split; [|lia].
  apply is_finite_of_not_nan_inf; [exact Hn|].
  exact (proj1 (Forall_forall _ _) Hinf _ Hv).
Qed.

Lemma interp_from_not_nan (pts : list (nat * cell)) (x x0 : nat) (y0 : cell) :
  (x0 <= x)%nat -> isfinite y0 = true ->
  Forall (fun p => isfinite (snd p) = true /\ Z.of_nat (fst p) < 2 ^ 53) pts ->
  isnan (interp_from x x0 y0 pts) = false.
Proof.
  revert x0 y0. induction pts as [|[x1 y1] pts IH]; intros x0 y0 Hx Hy0 Hpts.
  - by apply is_finite_not_nan.
  - apply Forall_cons in Hpts as [[Hy1 Hx1] Hpts]. cbn [fst snd] in Hy1, Hx1.
    cbn [interp_from].
    destruct (Nat.ltb_spec x x1) as [Hlt|Hge].
    + destruct (Nat.eqb_spec x x0) as [_|Hne]; [by apply is_finite_not_nan|].
      rewrite lerp_interpolant by (try assumption; lia).
      apply interpolant_not_nan; try assumption; lia.
    + apply IH; [exact Hge|exact Hy1|exact Hpts].
Qed.

Lemma interp1_not_nan (pts : list (nat * cell)) (x : nat) :
  pts <> [] ->
  Forall (fun p => isfinite (snd p) = true /\ Z.of_nat (fst p) < 2 ^ 53) pts ->
  isnan (interp1 x pts) = false.
Proof.
  intros Hne Hpts. destruct pts as [|[x0 y0] pts]; [congruence|].
  apply Forall_cons in Hpts as [[Hy0 Hx0] Hpts]. cbn [fst snd] in Hy0, Hx0.
  cbn [interp1]. destruct (Nat.ltb_spec x x0) as [Hlt|Hge];
    [by apply is_finite_not_nan|].
  by apply interp_from_not_nan.
Qed.

(** Left of the first defined cell: its value. *)
Lemma interp1_left (pts : list (nat * cell)) (x hi : nat) (y : cell) :
  (x < hi)%nat -> interp1 x ((hi, y) :: pts) = y.
Proof.
  intros Hlt. cbn [interp1]. by rewrite (proj2 (Nat.ltb_lt x hi) Hlt).
Qed.

Lemma interp_from_skip (p : list (nat * cell)) (x x0 : nat) (y0 : cell)
    (lo : nat) (ylo : cell) (rest : list (nat * cell)) :
  Forall (fun q => (fst q <= x)%nat) p -> (lo <= x)%nat ->
  interp_from x x0 y0 (p ++ (lo, ylo) :: rest) = interp_from x lo ylo rest.
Proof.
  revert x0 y0. induction p as [|[x1 y1] p IH]; intros x0 y0 Hp Hlo.
  - cbn [app interp_from]. by rewrite (proj2 (Nat.ltb_ge x lo) Hlo).
  - apply Forall_cons in Hp as [Hx1 Hp]. cbn in Hx1. cbn [app interp_from].
    rewrite (proj2 (Nat.ltb_ge x x1) Hx1). by apply IH.
Qed.

Lemma interp1_skip (p : list (nat * cell)) (x lo : nat) (ylo : cell)
    (rest : list (nat * cell)) :
  Forall (fun q => (fst q <= x)%nat) p -> (lo <= x)%nat ->
  interp1 x (p ++ (lo, ylo) :: rest) = interp_from x lo ylo rest.
Proof.
  intros Hp Hlo. destruct p as [|[x0 y0] p].
  - cbn [app interp1]. by rewrite (proj2 (Nat.ltb_ge x lo) Hlo).
  - apply Forall_cons in Hp as [Hx0 Hp]. cbn in Hx0. cbn [app interp1].
    rewrite (proj2 (Nat.ltb_ge x x0) Hx0). by apply interp_from_skip.
Qed.

(** *** What the loop body writes into a column *)

Lemma filled_lookup (col : list cell) (k : nat) :
  filled col !! k
  = (fun c => if isnan c then interp1 k (defined_points 0 col) else c) <$> col !! k.
Proof. unfold filled. apply list_lookup_imap. Qed.

Lemma filled_length (col : list cell) : length (filled col) = length col.
Proof. unfold filled. apply length_imap. Qed.

Lemma filled_defined (col : list cell) (r : nat) (v : float) :
  col !! r = Some v -> isnan v = false -> filled col !! r = Some v.
Proof. intros H Hv. rewrite filled_lookup, H. cbn. by rewrite Hv. Qed.

Lemma filled_undefined (col : list cell) (r : nat) :
  col !! r = Some nan -> filled col !! r = Some (interp1 r (defined_points 0 col)).
Proof. intros H. rewrite filled_lookup, H. reflexivity. Qed.

Lemma defined_points_nil_of_lookup (l : list cell) (s : nat) :
  (forall k : nat, (k < length l)%nat -> l !! k = Some nan) ->
  defined_points s l = [].
Proof.
  intros H. apply defined_points_all_nan. apply Forall_lookup. intros k c Hk.
  rewrite (H k) in Hk by (eapply lookup_lt_Some, Hk). congruence.
Qed.

Lemma defined_points_middle (pre post : list cell) (s : nat) (v : float) :
  isnan v = false ->
  defined_points s (pre ++ v :: post)
  = defined_points s pre
    ++ (s + length pre, v)%nat :: defined_points (S (s + length pre)) post.
Proof.
  intros Hv. rewrite defined_points_app. cbn [defined_points]. by rewrite Hv.
Qed.

Lemma defined_points_first (l : list cell) (s n : nat) (v : float) :
  l !! n = Some v -> isnan v = false ->
  (forall k : nat, (k < n)%nat -> l !! k = Some nan) ->
  defined_points s l = (s + n, v)%nat :: defined_points (S (s + n)) (drop (S n) l).
Proof.
  intros Hn Hv Hnone.
  rewrite <- (take_drop_middle l n _ Hn) at 1.
  pose proof (lookup_lt_Some _ _ _ Hn) as Hlen.
  rewrite (defined_points_middle _ _ _ _ Hv), length_take, Nat.min_l by lia.
  rewrite defined_points_nil_of_lookup.
  - reflexivity.
  - intros k Hk. rewrite length_take in Hk. rewrite lookup_take_lt by lia.
    apply Hnone. lia.
Qed.

Lemma defined_points_at (col : list cell) (lo : nat) (vlo : float) :
  col !! lo = Some vlo -> isnan vlo = false ->
  defined_points 0 col
  = defined_points 0 (take lo col)
    ++ (lo, vlo) :: defined_points (S lo) (drop (S lo) col).
Proof.
  intros Hlo Hv.
  rewrite <- (take_drop_middle col lo _ Hlo) at 1.
  pose proof (lookup_lt_Some _ _ _ Hlo) as Hlen.
  rewrite (defined_points_middle _ _ _ _ Hv), length_take, Nat.min_l by lia.
  reflexivity.
Qed.

Lemma defined_points_before (col : list cell) (lo x : nat) :
  (lo <= x)%nat ->
  Forall (fun q => (fst q <= x)%nat) (defined_points 0 (take lo col)).
Proof.
  intros Hx. eapply Forall_impl; [apply defined_points_range|].
  cbn. intros p [Hp _]. rewrite length_take in Hp. lia.
Qed.

(** Inside a run of undefined cells between two defined cells: what
    [np.interp] computes from those two cells. *)
Lemma filled_between (col : list cell) (lo hi r : nat) (vlo vhi : float) :
  col !! lo = Some vlo -> isnan vlo = false ->
  col !! hi = Some vhi -> isnan vhi = false ->
  (lo < r < hi)%nat ->
  (forall k : nat, (lo < k < hi)%nat -> col !! k = Some nan) ->
  filled col !! r = Some (lerp lo vlo hi vhi r).
Proof.
  intros Hlo Hvlo Hhi Hvhi Hr Hrun.
  rewrite (filled_undefined col r (Hrun r Hr)). f_equal.
  rewrite (defined_points_at col lo vlo Hlo Hvlo).
  rewrite interp1_skip by (try apply defined_points_before; lia).
  rewrite (defined_points_first (drop (S lo) col) (S lo) (hi - S lo) vhi).
  - replace (S lo + (hi - S lo))%nat with hi by lia.
    cbn [interp_from].
    rewrite (proj2 (Nat.ltb_lt r hi)) by lia.
    rewrite (proj2 (Nat.eqb_neq r lo)) by lia. reflexivity.
  - rewrite lookup_drop. replace (S lo + (hi - S lo))%nat with hi by lia. exact Hhi.
  - exact Hvhi.
  - intros k Hk. rewrite lookup_drop. apply Hrun. lia.
Qed.

(** Before the first defined cell of the column: the value of that cell. *)
Lemma filled_leading (col : list cell) (hi r : nat) (vhi : float) :
  col !! hi = Some vhi -> isnan vhi = false -> (r < hi)%nat ->
  (forall k : nat, (k < hi)%nat -> col !! k = Some nan) ->
  filled col !! r = Some vhi.
Proof.
  intros Hhi Hvhi Hr Hrun.
  rewrite (filled_undefined col r (Hrun r Hr)). f_equal.
  rewrite (defined_points_first col 0 hi vhi Hhi Hvhi Hrun).
  cbn [Nat.add]. by apply interp1_left.
Qed.

(** After the last defined cell of the column: the value of that cell. *)
Lemma filled_trailing (col : list cell) (lo r : nat) (vlo : float) :
  col !! lo = Some vlo -> isnan vlo = false -> (lo < r < length col)%nat ->
  (forall k : nat, (lo < k < length col)%nat -> col !! k = Some nan) ->
  filled col !! r = Some vlo.
Proof.
  intros Hlo Hvlo Hr Hrun.
  rewrite (filled_undefined col r (Hrun r Hr)). f_equal.
  rewrite (defined_points_at col lo vlo Hlo Hvlo).
  rewrite interp1_skip by (try apply defined_points_before; lia).
  rewrite defined_points_nil_of_lookup; [reflexivity|].
  intros k Hk. rewrite length_drop in Hk. rewrite lookup_drop. apply Hrun. lia.
Qed.

Lemma has_defined_points (col : list cell) :
  has_defined col -> defined_points 0 col <> [].
Proof.
  intros Hd Hnil. apply Exists_exists in Hd as (c & Hc & Hcn).
  apply list_elem_of_lookup_1 in Hc as [k Hk].
  rewrite (defined_points_at col k c Hk Hcn) in Hnil.
  symmetry in Hnil. by apply app_cons_not_nil in Hnil.
Qed.

(** A column of fewer than 2^53 rows with a defined cell and no infinity
    has no undefined cell left after the loop body. *)
Lemma filled_no_nan (col : list cell) :
  has_defined col -> no_inf col -> Z.of_nat (length col) <= 2 ^ 53 ->
  no_nan (filled col).
Proof.
  intros Hd Hinf Hlen. apply Forall_lookup. intros k c Hk.
  rewrite filled_lookup in Hk.
  destruct (col !! k) as [x|]; cbn in Hk; [|discriminate Hk].
  injection Hk as <-. destruct (isnan x) eqn:Hx; [|exact Hx].
  apply interp1_not_nan; [by apply has_defined_points|].
  by apply defined_points_finite.
Qed.

Lemma filled_id (col : list cell) : no_nan col -> filled col = col.
Proof.
  intros Hnn. apply list_eq. intros k. rewrite filled_lookup.
  destruct (col !! k) as [c|] eqn:Hk; [|reflexivity].
  cbn. by rewrite (no_nan_lookup _ _ _ Hnn Hk).
Qed.

(** *** The loop body on an array *)

Lemma column_is_column {A : Type} (a : array2 A) (c : nat) :
  wf_array2 a -> (c < shape1 a)%nat ->
  exists col : list A, column a c = Ok col /\ is_column a c col.
Proof.
  intros Hwf Hc. destruct (column_Ok a c Hwf Hc) as (col & H1 & H2 & H3).
  exists col. split; [exact H1|]. split; assumption.
Qed.

Lemma is_column_unique {A : Type} (a : array2 A) (c : nat) (col col' : list A) :
  is_column a c col -> is_column a c col' -> col = col'.
Proof.
  intros [_ H] [_ H']. apply list_eq. intros r. by rewrite H, H'.
Qed.

Lemma is_column_ext {A : Type} (a a' : array2 A) (c : nat) (col : list A) :
  shape0 a' = shape0 a -> (forall r : nat, item a' r c = item a r c) ->
  is_column a c col -> is_column a' c col.
Proof.
  intros Hs Hi [Hl Hc]. split; [congruence|]. intros r. by rewrite Hc, Hi.
Qed.

Lemma item_out_of_columns {A : Type} (a : array2 A) (r c : nat) :
  wf_array2 a -> (shape1 a <= c)%nat -> item a r c = None.
Proof.
  intros Hwf Hc. unfold item.
  destruct (rows a !! r) as [rw|] eqn:Hrw; [|reflexivity].
  cbn. apply lookup_ge_None.
  rewrite (proj1 (Forall_lookup _ _) Hwf r rw Hrw). exact Hc.
Qed.

Lemma setitem_mask_column_length (mask : list bool) (i : nat)
    (rs : list (list cell)) (vals : list cell) :
  length (setitem_mask_column mask i rs vals) = length rs.
Proof.
  revert rs vals. induction mask as [|[|] mask IH]; intros [|r rs] vals; cbn;
    try reflexivity.
  - destruct vals as [|v vals]; cbn; [reflexivity|]. by rewrite IH.
  - by rewrite IH.
Qed.

Lemma setitem_mask_column_nil (mask : list bool) (i : nat) (rs : list (list cell)) :
  setitem_mask_column mask i rs [] = rs.
Proof.
  revert rs. induction mask as [|[|] mask IH]; intros [|r rs]; cbn; try reflexivity.
  by rewrite IH.
Qed.

Lemma setitem_mask_column_lookup (rs : list (list cell)) (col : list cell)
    (s i : nat) (g : nat -> cell) (k : nat) :
  length col = length rs ->
  setitem_mask_column (map isnan col) i rs
    (map g (flatnonzero_from s (map isnan col))) !! k
  = match col !! k, rs !! k with
    | Some c, Some r => Some (if isnan c then <[i := g (s + k)%nat]> r else r)
    | _, _ => None
    end.
Proof.
  revert col s k. induction rs as [|r rs IH]; intros [|c col] s k Hlen;
    try discriminate Hlen.
  - reflexivity.
  - cbn in Hlen. injection Hlen as Hlen.
    cbn [map flatnonzero_from].
    destruct (isnan c) eqn:Hc; cbn [map setitem_mask_column].
    + destruct k as [|k].
      * cbn. by rewrite Hc, Nat.add_0_r.
      * rewrite !lookup_cons.
        rewrite (IH col (S s) k Hlen).
        by replace (S s + k)%nat with (s + S k)%nat by lia.
    + destruct k as [|k]; [cbn; by rewrite Hc|].
      rewrite !lookup_cons.
      rewrite (IH col (S s) k Hlen).
      by replace (S s + k)%nat with (s + S k)%nat by lia.
Qed.

Lemma flatnonzero_no_nan (col : list cell) (s : nat) :
  no_nan col -> flatnonzero_from s (map isnan col) = [].
Proof.
  intros Hnn. revert s. induction Hnn as [|c col Hc _ IH]; intros s; [reflexivity|].
  cbn [map flatnonzero_from]. rewrite Hc. apply IH.
Qed.

Lemma has_defined_of_lookup (col : list cell) (r : nat) (v : float) :
  col !! r = Some v -> isnan v = false -> has_defined col.
Proof.
  intros H Hv. apply Exists_exists. exists v.
  split; [eapply list_elem_of_lookup_2, H|exact Hv].
Qed.

Lemma fill_column_filled (a : array2 cell) (i : nat) (col : list cell) :
  wf_array2 a -> (i < shape1 a)%nat -> column a i = Ok col -> is_column a i col ->
  has_defined col ->
  exists a' : array2 cell,
    fill_column a i = Ok a'
    /\ shape1 a' = shape1 a /\ shape0 a' = shape0 a /\ wf_array2 a'
    /\ (forall r : nat, item a' r i = filled col !! r)
    /\ (forall r c : nat, c <> i -> item a' r c = item a r c).
Proof.
  intros Hwf Hi Hcol [Hlen Hitem] Hdef.
  unfold fill_column. rewrite Hcol, bind_Ok.
  rewrite (np_interp_column col _ Hdef), bind_Ok.
  set (g := fun xi => interp1 xi (defined_points 0 col)).
  unfold flatnonzero.
  pose proof (setitem_mask_column_lookup (rows a) col 0 i g) as Hlk.
  eexists. split; [reflexivity|].
  split; [reflexivity|].
  split; [unfold shape0; cbn [rows]; apply setitem_mask_column_length|].
  assert (Hrow : forall (k : nat) (rw : list cell),
             rows a !! k = Some rw ->
             length rw = shape1 a /\ exists c : cell, col !! k = Some c /\ rw !! i = Some c).
  { intros k rw Hrw.
    pose proof (proj1 (Forall_lookup _ _) Hwf k rw Hrw) as Hl. cbn beta in Hl.
    split; [exact Hl|].
    destruct (lookup_lt_is_Some_2 rw i ltac:(lia)) as [c Hc].
    exists c. split; [|exact Hc]. rewrite Hitem. unfold item. rewrite Hrw. exact Hc. }
  split; [|split].
  - unfold wf_array2. cbn [rows shape1]. apply Forall_lookup. intros k rw' Hk.
    rewrite Hlk in Hk by exact Hlen.
    destruct (col !! k) as [c|]; [|discriminate Hk].
    destruct (rows a !! k) as [rw|] eqn:Hrw; [|discriminate Hk].
    injection Hk as <-.
    destruct (Hrow k rw Hrw) as [Hl _].
    destruct (isnan c); [by rewrite length_insert|exact Hl].
  - intros r. unfold item at 1. cbn [rows].
    rewrite Hlk by exact Hlen. rewrite filled_lookup.
    destruct (rows a !! r) as [rw|] eqn:Hrw.
    + destruct (Hrow r rw Hrw) as (Hl & c & Hc & Hrc). rewrite Hc. cbn.
      destruct (isnan c) eqn:Hn; [|exact Hrc].
      rewrite list_lookup_insert_eq by lia. reflexivity.
    + assert (Hnone : col !! r = None).
      { rewrite Hitem. unfold item. by rewrite Hrw. }
      rewrite Hnone. reflexivity.
  - intros r c Hne. unfold item. cbn [rows].
    rewrite Hlk by exact Hlen.
    destruct (rows a !! r) as [rw|] eqn:Hrw.
    + destruct (Hrow r rw Hrw) as (Hl & c0 & Hc0 & Hrc). rewrite Hc0. cbn.
      destruct (isnan c0); [|reflexivity].
      by rewrite list_lookup_insert_ne by congruence.
    + by destruct (col !! r).
Qed.

Lemma fill_column_undefined (a : array2 cell) (i : nat) (col : list cell) :
  column a i = Ok col -> ~ has_defined col -> fill_column a i = Raise ValueError.
Proof.
  intros Hcol Hdef. unfold fill_column. rewrite Hcol, bind_Ok.
  by rewrite (np_interp_column_undefined col _ Hdef).
Qed.

Lemma array2_eta {A : Type} (a : array2 A) : mkArray2 (shape1 a) (rows a) = a.
Proof. by destruct a. Qed.

Lemma no_nan_column (a : array2 cell) (c : nat) (col : list cell) :
  no_nan2 a -> is_column a c col -> no_nan col.
Proof.
  intros Hnn [_ Hitem]. apply Forall_lookup. intros k x Hk.
  apply (no_nan2_item a k c x Hnn). by rewrite <- Hitem.
Qed.

Lemma no_inf_column (a : array2 cell) (c : nat) (col : list cell) :
  no_inf2 a -> is_column a c col -> no_inf col.
Proof.
  intros Hinf [_ Hitem]. apply Forall_lookup. intros k x Hk.
  rewrite Hitem in Hk. unfold item in Hk.
  destruct (rows a !! k) as [rw|] eqn:Hrw; [|discriminate].
  cbn in Hk.
  pose proof (proj1 (Forall_lookup _ _) Hinf k rw Hrw) as Hrow.
  exact (proj1 (Forall_lookup _ _) Hrow c x Hk).
Qed.

(** On an array without undefined cells the loop body changes nothing. *)
Lemma fill_column_no_nan (a : array2 cell) (i : nat) :
  wf_array2 a -> (i < shape1 a)%nat -> (0 < shape0 a)%nat -> no_nan2 a ->
  fill_column a i = Ok a.
Proof.
  intros Hwf Hi Hr Hnn.
  destruct (column_is_column a i Hwf Hi) as (col & Hcol & Hic).
  pose proof (no_nan_column a i col Hnn Hic) as Hcn.
  assert (Hdef : has_defined col).
  { destruct Hic as [Hlen _]. destruct col as [|c col]; [cbn in Hlen; lia|].
    apply Exists_cons_hd. by apply Forall_cons in Hcn as [Hc _]. }
  unfold fill_column. rewrite Hcol, bind_Ok.
  rewrite (np_interp_column col _ Hdef), bind_Ok.
  unfold flatnonzero. rewrite (flatnonzero_no_nan col 0 Hcn). cbn [map].
  rewrite setitem_mask_column_nil. by rewrite array2_eta.
Qed.

(** *** The loop over the columns, on the heap *)

Section Loop.
Variable arr : positive.
Implicit Types (h : gmap positive (array2 cell)) (a : array2 cell).

Lemma forward_fill_loop_frame (cols : list nat) :
  forall h a,
    h !! arr = Some a -> wf_array2 a ->
    Forall (fun c => (c < shape1 a)%nat) cols ->
    exists (a' : array2 cell) (res : result unit),
      forward_fill_loop arr cols h = (<[arr := a']> h, res)
      /\ (res = Ok tt \/ res = Raise ValueError)
      /\ shape1 a' = shape1 a /\ shape0 a' = shape0 a /\ wf_array2 a'
      /\ (forall (r c : nat) (v : float),
            item a r c = Some v -> isnan v = false -> item a' r c = Some v).
Proof.
  induction cols as [|i cols IH]; intros h a Ha Hwf Hcols.
  - exists a, (Ok tt). cbn. rewrite (insert_id h arr a Ha). by repeat split; auto.
  - apply Forall_cons in Hcols as [Hi Hcols].
    cbn [forward_fill_loop]. rewrite Ha.
    destruct (column_is_column a i Hwf Hi) as (col & Hcol & Hic).
    destruct (decide (Exists (fun c => isnan c = false) col)) as [Hdef|Hdef].
    + destruct (fill_column_filled a i col Hwf Hi Hcol Hic Hdef)
        as (a1 & -> & Hs1 & Hs0 & Hwf1 & Hfi & Hfo).
      destruct (IH (<[arr := a1]> h) a1) as (a' & res & Hloop & Hres & Hs1' & Hs0' & Hwf' & Hkeep).
      { apply lookup_insert_eq. }
      { exact Hwf1. }
      { rewrite Hs1. exact Hcols. }
      exists a', res. rewrite Hloop, insert_insert_eq.
      split; [reflexivity|]. split; [exact Hres|].
      split; [congruence|]. split; [congruence|]. split; [exact Hwf'|].
      intros r c v Hv Hvn. apply Hkeep; [|exact Hvn].
      destruct (decide (c = i)) as [->|Hne].
      * rewrite Hfi. apply filled_defined; [|exact Hvn].
        destruct Hic as [_ Hitem]. by rewrite Hitem.
      * by rewrite Hfo.
    + rewrite (fill_column_undefined a i col Hcol Hdef).
      exists a, (Raise ValueError). rewrite (insert_id h arr a Ha).
      by repeat split; auto.
Qed.

Lemma forward_fill_loop_filled (cols : list nat) :
  forall h a,
    h !! arr = Some a -> wf_array2 a -> NoDup cols ->
    Forall (fun c => (c < shape1 a)%nat) cols ->
    columns_defined a ->
    exists a' : array2 cell,
      forward_fill_loop arr cols h = (<[arr := a']> h, Ok tt)
      /\ shape1 a' = shape1 a /\ shape0 a' = shape0 a /\ wf_array2 a'
      /\ (forall (c : nat) (col : list cell),
            c ∈ cols -> is_column a c col -> is_column a' c (filled col))
      /\ (forall r c : nat, c ∉ cols -> item a' r c = item a r c).
Proof.
  induction cols as [|i cols IH]; intros h a Ha Hwf Hnd Hcols Hdef.
  - exists a. cbn. rewrite (insert_id h arr a Ha).
    split; [reflexivity|]. split; [reflexivity|]. split; [reflexivity|].
    split; [exact Hwf|]. split; [|reflexivity].
    intros c col Hc. by apply elem_of_nil in Hc.
  - apply Forall_cons in Hcols as [Hi Hcols].
    apply NoDup_cons in Hnd as [Hni Hnd].
    cbn [forward_fill_loop]. rewrite Ha.
    destruct (column_is_column a i Hwf Hi) as (col & Hcol & Hic).
    assert (Hdcol : has_defined col).
    { destruct (Hdef i Hi) as (r & v & Hv & Hvn).
      apply (has_defined_of_lookup col r v); [|exact Hvn].
      destruct Hic as [_ Hitem]. by rewrite Hitem. }
    destruct (fill_column_filled a i col Hwf Hi Hcol Hic Hdcol)
      as (a1 & -> & Hs1 & Hs0 & Hwf1 & Hfi & Hfo).
    destruct (IH (<[arr := a1]> h) a1) as (a' & Hloop & Hs1' & Hs0' & Hwf' & Hin & Hout).
    { apply lookup_insert_eq. }
    { exact Hwf1. }
    { exact Hnd. }
    { rewrite Hs1. exact Hcols. }
    { intros c Hc. rewrite Hs1 in Hc. destruct (Hdef c Hc) as (r & v & Hv & Hvn).
      exists r, v. split; [|exact Hvn]. destruct (decide (c = i)) as [->|Hne].
      - rewrite Hfi. apply filled_defined; [|exact Hvn].
        destruct Hic as [_ Hitem]. by rewrite Hitem.
      - by rewrite Hfo. }
    exists a'. rewrite Hloop, insert_insert_eq.
    split; [reflexivity|]. split; [congruence|]. split; [congruence|].
    split; [exact Hwf'|]. split.
    + intros c col' Hc Hic'. apply elem_of_cons in Hc as [->|Hc].
      * rewrite (is_column_unique a i col' col Hic' Hic).
        split; [rewrite filled_length; destruct Hic as [Hl _]; congruence|].
        intros r. by rewrite (Hout r i Hni), Hfi.
      * apply Hin; [exact Hc|].
        apply (is_column_ext a a1 c col' Hs0); [|exact Hic'].
        intros r. apply Hfo. intros ->. by apply Hni.
    + intros r c Hc. apply not_elem_of_cons in Hc as [Hne Hc].
      by rewrite (Hout r c Hc), Hfo.
Qed.

Lemma forward_fill_loop_no_nan (cols : list nat) :
  forall h a,
    h !! arr = Some a -> wf_array2 a ->
    Forall (fun c => (c < shape1 a)%nat) cols ->
    (0 < shape0 a)%nat -> no_nan2 a ->
    forward_fill_loop arr cols h = (h, Ok tt).
Proof.
  induction cols as [|i cols IH]; intros h a Ha Hwf Hcols Hr Hnn; [reflexivity|].
  apply Forall_cons in Hcols as [Hi Hcols].
  cbn [forward_fill_loop]. rewrite Ha.
  rewrite (fill_column_no_nan a i Hwf Hi Hr Hnn).
  rewrite (insert_id h arr a Ha). by apply (IH h a).
Qed.

End Loop.

(** *** forward_fill_2d *)

Lemma item_Some_lt {A : Type} (a : array2 A) (r c : nat) (x : A) :
  wf_array2 a -> item a r c = Some x -> (r < shape0 a)%nat /\ (c < shape1 a)%nat.
Proof.
  intros Hwf. unfold item, shape0.
  destruct (rows a !! r) as [rw|] eqn:Hrw; [|discriminate].
  cbn. intros Hx. split; [eapply lookup_lt_Some, Hrw|].
  pose proof (proj1 (Forall_lookup _ _) Hwf r rw Hrw) as Hl. cbn beta in Hl.
  apply lookup_lt_Some in Hx. lia.
Qed.

Lemma forward_fill_2d_filled (h : gmap positive (array2 cell)) (arr : positive)
    (a : array2 cell) :
  h !! arr = Some a -> wf_array2 a -> columns_defined a ->
  exists a' : array2 cell,
    forward_fill_2d arr h = (<[arr := a']> h, Ok arr)
    /\ shape1 a' = shape1 a /\ shape0 a' = shape0 a /\ wf_array2 a'
    /\ (forall (c : nat) (col : list cell),
          (c < shape1 a)%nat -> is_column a c col -> is_column a' c (filled col)).
Proof.
  intros Ha Hwf Hdef. unfold forward_fill_2d. rewrite Ha.
  destruct (forward_fill_loop_filled arr (seq 0 (shape1 a)) h a Ha Hwf)
    as (a' & -> & Hs1 & Hs0 & Hwf' & Hin & _).
  { apply NoDup_seq. }
  { apply Forall_forall. intros c Hc. apply elem_of_seq in Hc. lia. }
  { exact Hdef. }
  exists a'. split; [reflexivity|]. split; [exact Hs1|]. split; [exact Hs0|].
  split; [exact Hwf'|].
  intros c col Hc. apply Hin. apply elem_of_seq. lia.
Qed.

Lemma forward_fill_2d_item (a a' : array2 cell) (r c : nat) (x : cell) :
  wf_array2 a -> wf_array2 a' -> shape1 a' = shape1 a ->
  (forall (c : nat) (col : list cell),
     (c < shape1 a)%nat -> is_column a c col -> is_column a' c (filled col)) ->
  item a r c = Some x ->
  exists col : list cell,
    is_column a c col /\ col !! r = Some x /\ item a' r c = filled col !! r.
Proof.
  intros Hwf Hwf' Hs1 Hfill Hx.
  destruct (item_Some_lt a r c x Hwf Hx) as [_ Hc].
  destruct (column_is_column a c Hwf Hc) as (col & _ & Hic).
  exists col. split; [exact Hic|].
  split; [destruct Hic as [_ Hi]; by rewrite Hi|].
  destruct (Hfill c col Hc Hic) as [_ Hi']. by rewrite Hi'.
Qed.

(** An array of fewer than 2^53 rows without infinities, whose every
    column holds a defined value, has no undefined cell left once every
    column holds what the loop body writes. *)
Lemma filled_columns_no_nan (a a' : array2 cell) :
  wf_array2 a -> wf_array2 a' -> shape1 a' = shape1 a ->
  columns_defined a -> no_inf2 a -> exact_rows a ->
  (forall (c : nat) (col : list cell),
     (c < shape1 a)%nat -> is_column a c col -> is_column a' c (filled col)) ->
  no_nan2 a'.
Proof.
  intros Hwf Hwf' Hs1 Hdef Hinf Hrows Hfill.
  apply Forall_lookup. intros r rw Hrw. apply Forall_lookup. intros c x Hx.
  assert (Hitem : item a' r c = Some x) by (unfold item; rewrite Hrw; exact Hx).
  destruct (item_Some_lt a' r c x Hwf' Hitem) as [_ Hc]. rewrite Hs1 in Hc.
  destruct (column_is_column a c Hwf Hc) as (col & _ & Hic).
  destruct (Hfill c col Hc Hic) as [_ Hi'].
  rewrite <- Hi' in Hitem.
  assert (Hd : has_defined col).
  { destruct (Hdef c Hc) as (r0 & v & Hv & Hvn).
    apply (has_defined_of_lookup col r0 v); [|exact Hvn].
    destruct Hic as [_ Hi]. by rewrite Hi. }
  assert (Hlen : Z.of_nat (length col) <= 2 ^ 53).
  { destruct Hic as [Hl _]. rewrite Hl. exact Hrows. }
  exact (proj1 (Forall_lookup _ _)
           (filled_no_nan col Hd (no_inf_column a c col Hinf Hic) Hlen) r x Hitem).
Qed.

(** C8: on a grid whose every column holds a defined value (its cells NaN
    or finite, its rows fewer than 2^53), forward_fill_2d returns, its
    output has no undefined cell left, and applying it to that output
    returns again and leaves every value (the whole heap) as it is. *)
Theorem forward_fill_2d_idempotent (h : gmap positive (array2 cell)) (arr : positive)
    (a : array2 cell) :
  h !! arr = Some a -> wf_array2 a -> columns_defined a ->
  no_inf2 a -> exact_rows a ->
  exists a' : array2 cell,
    forward_fill_2d arr h = (<[arr := a']> h, Ok arr)
    /\ no_nan2 a'
    /\ forward_fill_2d arr (<[arr := a']> h) = (<[arr := a']> h, Ok arr).
Proof.
  intros Ha Hwf Hdef Hinf Hrows.
  destruct (forward_fill_2d_filled h arr a Ha Hwf Hdef)
    as (a' & Hrun & Hs1 & Hs0 & Hwf' & Hfill).
  exists a'. split; [exact Hrun|].
  pose proof (filled_columns_no_nan a a' Hwf Hwf' Hs1 Hdef Hinf Hrows Hfill) as Hnn.
  split; [exact Hnn|].
  unfold forward_fill_2d. rewrite lookup_insert_eq.
  destruct (shape1 a') as [|n] eqn:Hn; [reflexivity|].
  rewrite (forward_fill_loop_no_nan arr (seq 0 (S n)) (<[arr := a']> h) a');
    [reflexivity|apply lookup_insert_eq|exact Hwf'| | |exact Hnn].
  - apply Forall_forall. intros c Hc. apply elem_of_seq in Hc. lia.
  - destruct (Hdef 0%nat ltac:(lia)) as (r0 & v & Hv & _).
    destruct (item_Some_lt a r0 0 _ Hwf Hv) as [Hr _]. lia.
Qed.

Lemma gappy_grid_columns_defined : columns_defined gappy_grid.
Proof.
  intros c Hc. destruct c as [|[|c]].
  - exists 1%nat, 1%float. split; reflexivity.
  - exists 0%nat, 5%float. split; reflexivity.
  - cbn in Hc. lia.
Qed.

Lemma gappy_grid_no_inf : no_inf2 gappy_grid.
Proof. repeat constructor. Qed.

Lemma gappy_grid_exact_rows : exact_rows gappy_grid.
Proof. unfold exact_rows. cbn. lia. Qed.

Lemma forward_fill_2d_idempotent_witness :
  exists a' : array2 cell,
    forward_fill_2d 1%positive gappy_heap
    = (<[1%positive := a']> gappy_heap, Ok 1%positive)
    /\ no_nan2 a'
    /\ forward_fill_2d 1%positive (<[1%positive := a']> gappy_heap)
       = (<[1%positive := a']> gappy_heap, Ok 1%positive).
Proof.
  apply (forward_fill_2d_idempotent gappy_heap 1%positive gappy_grid).
  - reflexivity.
  - repeat constructor.
  - exact gappy_grid_columns_defined.
  - exact gappy_grid_no_inf.
  - exact gappy_grid_exact_rows.
Defined.

(** C7 as stated fails at a column edge: in the column NaN, 1, 2 the
    leading undefined cell has its nearest defined cells at rows 1 and 2;
    linear extrapolation through them gives 0 at row 0, but the grid
    forward_fill_2d leaves holds 1 there, the value of the nearest defined
    cell. *)
Lemma forward_fill_2d_edge_not_extrapolated :
  columns_defined edge_grid
  /\ forward_fill_2d 1%positive edge_heap
     = ({[ 1%positive := mkArray2 1 [[1]; [1]; [2]]%float ]}, Ok 1%positive)
  /\ linear_extrapolation 1 1 2 2 0 = 0%float
  /\ (1 =? 0)%float = false.
Proof.
  split.
  { intros c Hc. destruct c as [|c]; [|cbn in Hc; lia].
    exists 1%nat, 1%float. split; reflexivity. }
  split; [vm_compute; reflexivity|].
  split; vm_compute; reflexivity.
Qed.

(** C7 (amended): on a grid whose every column holds a defined value,
    forward_fill_2d keeps every defined cell; an undefined cell inside a
    run bounded by defined cells at rows lo and hi of its column takes what
    [np.interp] computes in float64 from those two cells, which for finite
    values (and rows below 2^53) is the interpolant
    [(vhi - vlo) / (hi - lo) * (r - lo) + vlo] with every operation rounded;
    an undefined cell in a run that touches the top or the bottom edge of
    its column takes the value of the nearest defined cell (held constant,
    not extrapolated). *)
Theorem forward_fill_2d_interpolates (h : gmap positive (array2 cell)) (arr : positive)
    (a : array2 cell) :
  h !! arr = Some a -> wf_array2 a -> columns_defined a ->
  exists a' : array2 cell,
    forward_fill_2d arr h = (<[arr := a']> h, Ok arr)
    /\ shape0 a' = shape0 a /\ shape1 a' = shape1 a
    /\ (forall (r c : nat) (v : float),
          item a r c = Some v -> isnan v = false -> item a' r c = Some v)
    /\ (forall (c lo hi r : nat) (vlo vhi : float),
          item a lo c = Some vlo -> isnan vlo = false ->
          item a hi c = Some vhi -> isnan vhi = false ->
          (lo < r < hi)%nat ->
          (forall k : nat, (lo < k < hi)%nat -> item a k c = Some nan) ->
          item a' r c = Some (lerp lo vlo hi vhi r)
          /\ (isfinite vlo = true -> isfinite vhi = true -> Z.of_nat hi < 2 ^ 53 ->
              item a' r c
              = Some ((vhi - vlo) / (of_index hi - of_index lo)
                      * (of_index r - of_index lo) + vlo)%float))
    /\ (forall (c hi r : nat) (vhi : float),
          item a hi c = Some vhi -> isnan vhi = false -> (r < hi)%nat ->
          (forall k : nat, (k < hi)%nat -> item a k c = Some nan) ->
          item a' r c = Some vhi)
    /\ (forall (c lo r : nat) (vlo : float),
          item a lo c = Some vlo -> isnan vlo = false -> (lo < r < shape0 a)%nat ->
          (forall k : nat, (lo < k < shape0 a)%nat -> item a k c = Some nan) ->
          item a' r c = Some vlo).
Proof.
  intros Ha Hwf Hdef.
  destruct (forward_fill_2d_filled h arr a Ha Hwf Hdef)
    as (a' & Hrun & Hs1 & Hs0 & Hwf' & Hfill).
  exists a'. split; [exact Hrun|]. split; [exact Hs0|]. split; [exact Hs1|].
  split; [|split; [|split]].
  - intros r c v Hv Hvn.
    destruct (forward_fill_2d_item a a' r c _ Hwf Hwf' Hs1 Hfill Hv)
      as (col & Hic & Hcr & ->).
    by apply filled_defined.
  - intros c lo hi r vlo vhi Hlo Hvlo Hhi Hvhi Hr Hrun'.
    destruct (forward_fill_2d_item a a' r c _ Hwf Hwf' Hs1 Hfill (Hrun' r Hr))
      as (col & Hic & Hcr & ->).
    destruct Hic as [_ Hi].
    assert (Hb : filled col !! r = Some (lerp lo vlo hi vhi r)).
    { apply filled_between; rewrite ?Hi; auto. intros k Hk; rewrite Hi; auto. }
    split; [exact Hb|].
    intros Hflo Hfhi Hhi53. rewrite Hb. f_equal.
    by apply lerp_interpolant.
  - intros c hi r vhi Hhi Hvhi Hr Hrun'.
    destruct (forward_fill_2d_item a a' r c _ Hwf Hwf' Hs1 Hfill (Hrun' r Hr))
      as (col & Hic & Hcr & ->).
    destruct Hic as [_ Hi].
    apply (filled_leading col hi r vhi); rewrite ?Hi; auto.
    intros k Hk; rewrite Hi; auto.
  - intros c lo r vlo Hlo Hvlo Hr Hrun'.
    destruct (forward_fill_2d_item a a' r c _ Hwf Hwf' Hs1 Hfill (Hrun' r Hr))
      as (col & Hic & Hcr & ->).
    destruct Hic as [Hl Hi].
    apply (filled_trailing col lo r vlo); rewrite ?Hi, ?Hl; auto.
    intros k Hk; rewrite Hi; auto.
Qed.

Lemma forward_fill_2d_interpolates_witness :
  exists a' : array2 cell,
    forward_fill_2d 1%positive gappy_heap
    = (<[1%positive := a']> gappy_heap, Ok 1%positive)
    /\ item a' 1 1 = Some ((0.5 - 5) / (of_index 3 - of_index 0)
                           * (of_index 1 - of_index 0) + 5)%float
    /\ item a' 0 0 = Some 1%float
    /\ item a' 4 1 = Some 0.5%float.
Proof.
  destruct (forward_fill_2d_interpolates gappy_heap 1%positive gappy_grid)
    as (a' & Hrun & _ & _ & _ & Hmid & Htop & Hbot).
  - reflexivity.
  - repeat constructor.
  - exact gappy_grid_columns_defined.
  - exists a'. split; [exact Hrun|]. split; [|split].
    + refine (proj2 (Hmid 1%nat 0%nat 3%nat 1%nat 5%float 0.5%float _ _ _ _ _ _) _ _ _);
        [reflexivity|reflexivity|reflexivity|reflexivity|lia|
         |reflexivity|reflexivity|cbn; lia].
      intros k Hk. destruct k as [|[|[|k]]]; try lia; reflexivity.
    + apply (Htop 0%nat 1%nat 0%nat 1%float); [reflexivity|reflexivity|lia|].
      intros k Hk. destruct k as [|k]; [reflexivity|lia].
    + apply (Hbot 1%nat 3%nat 4%nat 0.5%float); [reflexivity|reflexivity|cbn; lia|].
      intros k Hk. cbn in Hk. destruct k as [|[|[|[|[|k]]]]]; try lia; reflexivity.
Defined.

(** The stored value is the rounded one: a third of the way from 0 to 1
    the cell holds the float64 nearest to 1/3, and between the smallest
    subnormal values or near the largest finite ones the result leaves the
    range of the two samples. *)
Example lerp_rounds :
  lerp 0 0 3 1 1 = 0x1.5555555555555p-2%float
  /\ lerp 0 0 5 0x0.0000000000003p-1022 4 = 0x0.0000000000004p-1022%float
  /\ lerp 0 (-0x1.e42d130773b76p+1023) 2 0x1.e42d130773b76p+1023 1 = infinity.
Proof. repeat split; vm_compute; reflexivity. Qed.

(** C3 as stated fails: forward_fill_2d writes into the array it is
    given and returns the reference it was given.  After the call on
    [edge_grid] the cell (0, 0) of that very array, undefined before, holds
    1, and the result is the input reference, not a new array. *)
Lemma forward_fill_2d_mutates_input :
  edge_heap !! 1%positive
    = Some edge_grid
  /\ item edge_grid 0 0 = Some nan
  /\ snd (forward_fill_2d 1%positive edge_heap) = Ok 1%positive
  /\ fst (forward_fill_2d 1%positive edge_heap) !! 1%positive
     = Some (mkArray2 1 [[1]; [1]; [2]]%float)
  /\ dom (fst (forward_fill_2d 1%positive edge_heap))
     = dom edge_heap.
Proof.
  split; [reflexivity|]. split; [reflexivity|].
  split; [vm_compute; reflexivity|].
  split; [vm_compute; reflexivity|].
  vm_compute. reflexivity.
Qed.

Lemma forward_fill_2d_frame (h : gmap positive (array2 cell)) (arr : positive)
    (a : array2 cell) :
  h !! arr = Some a -> wf_array2 a ->
  exists (a' : array2 cell) (res : result positive),
    forward_fill_2d arr h = (<[arr := a']> h, res)
    /\ (res = Ok arr \/ res = Raise ValueError)
    /\ shape0 a' = shape0 a /\ shape1 a' = shape1 a
    /\ (forall (r c : nat) (v : float),
          item a r c = Some v -> isnan v = false -> item a' r c = Some v)
    /\ (columns_defined a ->
          res = Ok arr
          /\ (forall (r c : nat) (col : list cell),
                is_column a c col -> item a r c = Some nan ->
                item a' r c = Some (interp1 r (defined_points 0 col)))
          /\ (no_inf2 a -> exact_rows a -> no_nan2 a')).
Proof.
  intros Ha Hwf. unfold forward_fill_2d. rewrite Ha.
  destruct (forward_fill_loop_frame arr (seq 0 (shape1 a)) h a Ha Hwf)
    as (a' & res & Hloop & Hres & Hs1 & Hs0 & Hwf' & Hkeep).
  { apply Forall_forall. intros c Hc. apply elem_of_seq in Hc. lia. }
  rewrite Hloop.
  exists a', (res ≫= fun _ => Ok arr).
  split; [reflexivity|].
  split; [destruct Hres as [-> | ->]; [by left|by right]|].
  split; [exact Hs0|]. split; [exact Hs1|]. split; [exact Hkeep|].
  intros Hdef.
  destruct (forward_fill_loop_filled arr (seq 0 (shape1 a)) h a Ha Hwf)
    as (a2 & Hloop2 & _ & _ & _ & Hin & _).
  { apply NoDup_seq. }
  { apply Forall_forall. intros c Hc. apply elem_of_seq in Hc. lia. }
  { exact Hdef. }
  rewrite Hloop in Hloop2. injection Hloop2 as Hh ->.
  assert (Ea : a2 = a').
  { apply (f_equal (fun m => m !! arr)) in Hh. rewrite !lookup_insert_eq in Hh.
    congruence. }
  subst a2.
  assert (Hfill : forall (c : nat) (col : list cell),
             (c < shape1 a)%nat -> is_column a c col -> is_column a' c (filled col)).
  { intros c col Hc. apply Hin. apply elem_of_seq. lia. }
  split; [reflexivity|]. split.
  - intros r c col Hic Hnan.
    destruct (forward_fill_2d_item a a' r c _ Hwf Hwf' Hs1 Hfill Hnan)
      as (col' & Hic' & Hcr & ->).
    rewrite (is_column_unique a c col col' Hic Hic').
    by apply filled_undefined.
  - intros Hinf Hrows.
    exact (filled_columns_no_nan a a' Hwf Hwf' Hs1 Hdef Hinf Hrows Hfill).
Qed.

(** C3 (amended): forward_fill_2d fills the array it is given in place
    and returns the reference it was given (or raises ValueError on a
    column without a defined value): the array keeps its shape and its
    defined cells, no other array of the heap changes, and none is created;
    when every column holds a defined value it returns, every undefined cell
    of the array has been overwritten with the value of [np.interp] at its
    row, and (cells NaN or finite, rows fewer than 2^53) no undefined cell
    is left.  The caller's grid is left as it is only when a copy is passed,
    as in [forward_fill_2d(abi_lat.copy())]: then the result is a new
    array, filled in the same way, and the original is unchanged. *)
Theorem forward_fill_2d_in_place (h : gmap positive (array2 cell)) (arr : positive)
    (a : array2 cell) :
  h !! arr = Some a -> wf_array2 a ->
  (exists (a' : array2 cell) (res : result positive),
     forward_fill_2d arr h = (<[arr := a']> h, res)
     /\ (res = Ok arr \/ res = Raise ValueError)
     /\ shape0 a' = shape0 a /\ shape1 a' = shape1 a
     /\ (forall (r c : nat) (v : float),
           item a r c = Some v -> isnan v = false -> item a' r c = Some v)
     /\ (columns_defined a ->
           res = Ok arr
           /\ (forall (r c : nat) (col : list cell),
                 is_column a c col -> item a r c = Some nan ->
                 item a' r c = Some (interp1 r (defined_points 0 col)))
           /\ (no_inf2 a -> exact_rows a -> no_nan2 a')))
  /\ (exists (l : positive) (a' : array2 cell) (res : result positive),
        h !! l = None
        /\ forward_fill_copy arr h = (<[l := a']> h, res)
        /\ (res = Ok l \/ res = Raise ValueError)
        /\ (<[l := a']> h) !! arr = Some a
        /\ shape0 a' = shape0 a /\ shape1 a' = shape1 a
        /\ (forall (r c : nat) (v : float),
              item a r c = Some v -> isnan v = false -> item a' r c = Some v)
        /\ (columns_defined a ->
              res = Ok l
              /\ (forall (r c : nat) (col : list cell),
                    is_column a c col -> item a r c = Some nan ->
                    item a' r c = Some (interp1 r (defined_points 0 col)))
              /\ (no_inf2 a -> exact_rows a -> no_nan2 a'))).
Proof.
  intros Ha Hwf. split; [by apply forward_fill_2d_frame|].
  set (l := fresh (dom h)).
  assert (Hl : h !! l = None).
  { apply not_elem_of_dom. apply is_fresh. }
  assert (Hne : l <> arr) by (intros ->; congruence).
  destruct (forward_fill_2d_frame (<[l := a]> h) l a (lookup_insert_eq h l a) Hwf)
    as (a' & res & Hrun & Hres & Hs0 & Hs1 & Hkeep & Hfill).
  exists l, a', res. split; [exact Hl|].
  split.
  { unfold forward_fill_copy, ndarray_copy. rewrite Ha. fold l.
    rewrite Hrun, insert_insert_eq. reflexivity. }
  split; [exact Hres|].
  split; [by rewrite lookup_insert_ne|].
  split; [exact Hs0|]. split; [exact Hs1|]. split; [exact Hkeep|exact Hfill].
Qed.

Lemma edge_grid_columns_defined : columns_defined edge_grid.
Proof.
  intros c Hc. destruct c as [|c]; [|cbn in Hc; lia].
  exists 1%nat, 1%float. split; reflexivity.
Qed.

Lemma forward_fill_2d_in_place_witness :
  (exists (a' : array2 cell) (res : result positive),
     forward_fill_2d 1%positive edge_heap
     = (<[1%positive := a']> edge_heap, res)
     /\ (res = Ok 1%positive \/ res = Raise ValueError)
     /\ shape0 a' = shape0 edge_grid /\ shape1 a' = shape1 edge_grid
     /\ (forall (r c : nat) (v : float),
           item edge_grid r c = Some v -> isnan v = false -> item a' r c = Some v)
     /\ (columns_defined edge_grid ->
           res = Ok 1%positive
           /\ (forall (r c : nat) (col : list cell),
                 is_column edge_grid c col -> item edge_grid r c = Some nan ->
                 item a' r c = Some (interp1 r (defined_points 0 col)))
           /\ (no_inf2 edge_grid -> exact_rows edge_grid -> no_nan2 a')))
  /\ (exists (l : positive) (a' : array2 cell) (res : result positive),
        edge_heap !! l = None
        /\ forward_fill_copy 1%positive edge_heap
           = (<[l := a']> edge_heap, res)
        /\ (res = Ok l \/ res = Raise ValueError)
        /\ (<[l := a']> edge_heap) !! 1%positive = Some edge_grid
        /\ shape0 a' = shape0 edge_grid /\ shape1 a' = shape1 edge_grid
        /\ (forall (r c : nat) (v : float),
              item edge_grid r c = Some v -> isnan v = false -> item a' r c = Some v)
        /\ (columns_defined edge_grid ->
              res = Ok l
              /\ (forall (r c : nat) (col : list cell),
                    is_column edge_grid c col -> item edge_grid r c = Some nan ->
                    item a' r c = Some (interp1 r (defined_points 0 col)))
              /\ (no_inf2 edge_grid -> exact_rows edge_grid -> no_nan2 a'))).
Proof.
  apply (forward_fill_2d_in_place edge_heap 1%positive edge_grid).
  - reflexivity.
  - repeat constructor.
Defined.

Example forward_fill_copy_edge_grid :
  forward_fill_copy 1%positive edge_heap
  = ({[ 1%positive := edge_grid;
        2%positive := mkArray2 1 [[1]; [1]; [2]]%float ]},
     Ok 2%positive).
Proof. vm_compute. reflexivity. Qed.

(** A column without any defined value makes forward_fill_2d raise, after
    the columns before it have been filled. *)
Example forward_fill_2d_unfillable :
  forward_fill_2d 1%positive
    {[ 1%positive := mkArray2 2 [[nan; nan]; [1; nan]]%float ]}
  = ({[ 1%positive := mkArray2 2 [[1; nan]; [1; nan]]%float ]},
     Raise ValueError).
Proof. vm_compute. reflexivity. Qed.


(** *** IEEE 754: where NaN comes from and where it goes *)

Lemma sqrt_negative_nan (d : float) :
  (d <? 0)%float = true -> PrimFloat.is_nan (PrimFloat.sqrt d) = true.
Proof.
  intros Hneg. apply is_nan_Prim2SF. rewrite sqrt_spec.
  rewrite ltb_spec in Hneg.
  change (Prim2SF 0%float) with (S754_zero false) in Hneg.
  destruct (Prim2SF d) as [s|s| |s m e]; cbn in Hneg.
  - discriminate Hneg.
  - destruct s; [reflexivity|discriminate Hneg].
  - reflexivity.
  - destruct s; [reflexivity|discriminate Hneg].
Qed.

Lemma opp_nan (a : float) :
  PrimFloat.is_nan a = true -> PrimFloat.is_nan (- a)%float = true.
Proof.
  rewrite !is_nan_Prim2SF, opp_spec. by intros ->.
Qed.

Lemma add_nan_l (a b : float) :
  PrimFloat.is_nan a = true -> PrimFloat.is_nan (a + b)%float = true.
Proof. rewrite !is_nan_Prim2SF, add_spec. by intros ->. Qed.

Lemma add_nan_r (a b : float) :
  PrimFloat.is_nan b = true -> PrimFloat.is_nan (a + b)%float = true.
Proof.
  rewrite !is_nan_Prim2SF, add_spec. intros ->. by destruct (Prim2SF a).
Qed.

Lemma sub_nan_l (a b : float) :
  PrimFloat.is_nan a = true -> PrimFloat.is_nan (a - b)%float = true.
Proof. rewrite !is_nan_Prim2SF, sub_spec. by intros ->. Qed.

Lemma sub_nan_r (a b : float) :
  PrimFloat.is_nan b = true -> PrimFloat.is_nan (a - b)%float = true.
Proof.
  rewrite !is_nan_Prim2SF, sub_spec. intros ->. by destruct (Prim2SF a).
Qed.

Lemma mul_nan_l (a b : float) :
  PrimFloat.is_nan a = true -> PrimFloat.is_nan (a * b)%float = true.
Proof. rewrite !is_nan_Prim2SF, mul_spec. by intros ->. Qed.

Lemma mul_nan_r (a b : float) :
  PrimFloat.is_nan b = true -> PrimFloat.is_nan (a * b)%float = true.
Proof.
  rewrite !is_nan_Prim2SF, mul_spec. intros ->. by destruct (Prim2SF a).
Qed.

Lemma div_nan_l (a b : float) :
  PrimFloat.is_nan a = true -> PrimFloat.is_nan (a / b)%float = true.
Proof. rewrite !is_nan_Prim2SF, div_spec. by intros ->. Qed.

Lemma div_nan_r (a b : float) :
  PrimFloat.is_nan b = true -> PrimFloat.is_nan (a / b)%float = true.
Proof.
  rewrite !is_nan_Prim2SF, div_spec. intros ->. by destruct (Prim2SF a).
Qed.

Lemma series_libm_arctan_keeps_nan : arctan_keeps_nan series_libm.
Proof.
  intros v Hv. cbn [np_arctan series_libm].
  by apply add_nan_l, sub_nan_l.
Qed.

(** *** Facts about calculate_degrees *)

Section CellFacts.
Variables (m : libm) (info : projection_info) (xv yv : float).
Hypothesis Harctan : arctan_keeps_nan m.
Hypothesis Hdisc : (discriminant_at m info xv yv <? 0)%float = true.

Lemma r_s_nan : PrimFloat.is_nan (r_s_at m info xv yv) = true.
Proof.
  unfold r_s_at. apply div_nan_l, sub_nan_r, sqrt_negative_nan, Hdisc.
Qed.

Lemma abi_lat_nan : PrimFloat.is_nan (abi_lat_at m info xv yv) = true.
Proof.
  unfold abi_lat_at. apply mul_nan_r, Harctan, mul_nan_r, div_nan_l.
  unfold s_z_at. apply mul_nan_l, mul_nan_l, r_s_nan.
Qed.

Lemma abi_lon_nan : PrimFloat.is_nan (abi_lon_at m info xv yv) = true.
Proof.
  unfold abi_lon_at. apply mul_nan_l, sub_nan_r, Harctan, div_nan_l.
  unfold s_y_at. apply mul_nan_l, opp_nan, r_s_nan.
Qed.

End CellFacts.

Lemma zip_with_map_same {A B C D : Type} (f : B -> C -> D) (g : A -> B) (g' : A -> C)
    (l : list A) :
  zip_with f (map g l) (map g' l) = map (fun v => f (g v) (g' v)) l.
Proof. induction l as [|v l IH]; cbn; [reflexivity|by rewrite IH]. Qed.

Lemma np_meshgrid_tabulate (xs ys : list float) :
  np_meshgrid xs ys = (tabulate (fun v _ => v) xs ys, tabulate (fun _ w => w) xs ys).
Proof.
  unfold np_meshgrid, tabulate. do 2 f_equal.
  apply map_ext. intros _. symmetry. apply map_id.
Qed.

Lemma elementwise_tabulate (f : float -> float) (g : float -> float -> float)
    (xs ys : list float) :
  elementwise f (tabulate g xs ys) = tabulate (fun v w => f (g v w)) xs ys.
Proof.
  unfold elementwise, tabulate. cbn [shape1 rows]. f_equal.
  rewrite map_map. apply map_ext. intros w. apply map_map.
Qed.

Lemma elementwise2_tabulate (f : float -> float -> float)
    (g g' : float -> float -> float) (xs ys : list float) :
  elementwise2 f (tabulate g xs ys) (tabulate g' xs ys)
  = Ok (tabulate (fun v w => f (g v w) (g' v w)) xs ys).
Proof.
  unfold elementwise2, same_shape, shape0, tabulate. cbn [shape1 rows].
  rewrite !length_map, !Nat.eqb_refl. cbn [andb]. do 2 f_equal.
  rewrite zip_with_map_same. apply map_ext. intros w. apply zip_with_map_same.
Qed.

Lemma tabulate_item (f : float -> float -> float) (xs ys : list float)
    (r c : nat) (v w : float) :
  xs !! c = Some v -> ys !! r = Some w ->
  item (tabulate f xs ys) r c = Some (f v w).
Proof.
  intros Hc Hr. unfold item, tabulate. cbn [rows].
  change (map ?g ys) with (g <$> ys). rewrite list_lookup_fmap, Hr. cbn.
  change (map ?g xs) with (g <$> xs). rewrite list_lookup_fmap, Hc. reflexivity.
Qed.

Lemma tabulate_wf (f : float -> float -> float) (xs ys : list float) :
  wf_array2 (tabulate f xs ys) /\ shape0 (tabulate f xs ys) = length ys
  /\ shape1 (tabulate f xs ys) = length xs.
Proof.
  unfold wf_array2, shape0, tabulate. cbn [rows shape1].
  split; [|split; [apply length_map|reflexivity]].
  apply Forall_forall. intros rw Hrw.
  apply list_elem_of_In, in_map_iff in Hrw as (w & <- & _). apply length_map.
Qed.

(** The arrays calculate_degrees returns hold, cell by cell, the
    computation for the scan angles of that cell. *)
Lemma calculate_degrees_tabulate (m : libm) (file_id : dataset) :
  calculate_degrees m file_id
  = Ok (tabulate (abi_lat_at m (goes_imager_projection file_id))
                 (variables_x file_id) (variables_y file_id),
        tabulate (abi_lon_at m (goes_imager_projection file_id))
                 (variables_x file_id) (variables_y file_id)).
Proof.
  unfold calculate_degrees. rewrite np_meshgrid_tabulate. cbv zeta.
  repeat (rewrite ?elementwise_tabulate, ?elementwise2_tabulate, ?bind_Ok).
  reflexivity.
Qed.

(** C5: calculate_degrees returns (it raises nothing) latitude and
    longitude arrays of the shape of the scan grid; every cell holds the
    value computed from its own pair of scan angles, whatever the other
    cells hold; and a cell whose discriminant is negative holds NaN in both
    arrays. *)
Theorem calculate_degrees_nan_off_earth (m : libm) (file_id : dataset) :
  arctan_keeps_nan m ->
  exists abi_lat abi_lon : array2 float,
    calculate_degrees m file_id = Ok (abi_lat, abi_lon)
    /\ shape0 abi_lat = length (variables_y file_id)
    /\ shape1 abi_lat = length (variables_x file_id)
    /\ shape0 abi_lon = length (variables_y file_id)
    /\ shape1 abi_lon = length (variables_x file_id)
    /\ forall (r c : nat) (xv yv : float),
         variables_x file_id !! c = Some xv ->
         variables_y file_id !! r = Some yv ->
         item abi_lat r c = Some (abi_lat_at m (goes_imager_projection file_id) xv yv)
         /\ item abi_lon r c = Some (abi_lon_at m (goes_imager_projection file_id) xv yv)
         /\ ((discriminant_at m (goes_imager_projection file_id) xv yv <? 0)%float = true ->
             exists lat lon : float,
               item abi_lat r c = Some lat /\ PrimFloat.is_nan lat = true
               /\ item abi_lon r c = Some lon /\ PrimFloat.is_nan lon = true).
Proof.
  intros Harctan.
  eexists _, _. split; [apply calculate_degrees_tabulate|].
  split; [apply tabulate_wf|]. split; [apply tabulate_wf|].
  split; [apply tabulate_wf|]. split; [apply tabulate_wf|].
  intros r c xv yv Hx Hy.
  rewrite !(tabulate_item _ _ _ r c xv yv Hx Hy).
  split; [reflexivity|]. split; [reflexivity|].
  intros Hdisc. eexists _, _.
  split; [reflexivity|]. split; [by apply abi_lat_nan|].
  split; [reflexivity|by apply abi_lon_nan].
Qed.

Lemma calculate_degrees_nan_off_earth_witness :
  exists abi_lat abi_lon : array2 float,
    calculate_degrees series_libm limb_file = Ok (abi_lat, abi_lon)
    /\ (exists lat lon : float,
          item abi_lat 0 2 = Some lat /\ PrimFloat.is_nan lat = true
          /\ item abi_lon 0 2 = Some lon /\ PrimFloat.is_nan lon = true)
    /\ (exists lat lon : float,
          item abi_lat 0 0 = Some lat /\ PrimFloat.is_nan lat = false
          /\ item abi_lon 0 0 = Some lon /\ PrimFloat.is_nan lon = false).
Proof.
  destruct (calculate_degrees_nan_off_earth series_libm limb_file
              series_libm_arctan_keeps_nan)
    as (abi_lat & abi_lon & Hrun & _ & _ & _ & _ & Hcell).
  exists abi_lat, abi_lon. split; [exact Hrun|]. split.
  - destruct (Hcell 0%nat 2%nat 0.3125%float 0.078125%float eq_refl eq_refl)
      as (_ & _ & Hnan).
    apply Hnan. vm_compute. reflexivity.
  - destruct (Hcell 0%nat 0%nat (-0.0625)%float 0.078125%float eq_refl eq_refl)
      as (Hlat & Hlon & _).
    eexists _, _. split; [exact Hlat|]. split; [vm_compute; reflexivity|].
    split; [exact Hlon|vm_compute; reflexivity].
Defined.

(** On [limb_file] the third column of scan angles misses the Earth. *)
Example calculate_degrees_limb_file :
  (fun '(abi_lat, abi_lon) =>
     (map (map PrimFloat.is_nan) (rows abi_lat), map (map PrimFloat.is_nan) (rows abi_lon)))
    <$> calculate_degrees_cells series_libm limb_file
  = Some ([[false; false; true]; [false; false; true]],
          [[false; false; true]; [false; false; true]]).
Proof. vm_compute. reflexivity. Qed.

(** ** Further properties of the notebook's functions *)

(** *** find_nearest_indices on arbitrary arrays *)

Lemma argmin_scan_lt (l : list cell) (mp : cell) (min_ind i : nat) :
  (min_ind < i)%nat -> (argmin_scan mp min_ind i l < i + length l)%nat.
Proof.
  revert mp min_ind i. induction l as [|c l IH]; intros mp min_ind i Hlt.
  - cbn. lia.
  - cbn [argmin_scan length].
    destruct (mp <=? c)%float.
    + specialize (IH mp min_ind (S i) ltac:(lia)). lia.
    + destruct (isnan c); [lia|].
      specialize (IH c i (S i) ltac:(lia)). lia.
Qed.

Lemma argmin_nonempty (a : list cell) :
  a <> [] -> exists i : nat, argmin a = Ok i /\ (i < length a)%nat.
Proof.
  destruct a as [|c l]; [congruence|]. intros _. cbn [argmin length].
  destruct (isnan c).
  - exists 0%nat. split; [reflexivity|lia].
  - exists (argmin_scan c 0 1 l). split; [reflexivity|].
    pose proof (argmin_scan_lt l c 0 1 ltac:(lia)). lia.
Qed.

Lemma abs_diff_length (arr : list cell) (target : float) :
  length (abs_diff arr target) = length arr.
Proof. unfold abs_diff. apply length_map. Qed.

Lemma abs_diff_nil (arr : list cell) (target : float) :
  abs_diff arr target = [] <-> arr = [].
Proof. unfold abs_diff. destruct arr; cbn; split; congruence. Qed.

Lemma find_nearest_indices_in_range
    (lat_arr lon_arr : list cell) (target_lat target_lon : float) :
  lat_arr <> [] -> lon_arr <> [] ->
  exists lat_idx lon_idx : nat,
    find_nearest_indices lat_arr lon_arr target_lat target_lon = Ok (lat_idx, lon_idx)
    /\ (lat_idx < length lat_arr)%nat /\ (lon_idx < length lon_arr)%nat.
Proof.
  intros Hlat Hlon.
  destruct (argmin_nonempty (abs_diff lat_arr target_lat)) as (i & Hi & Hil).
  { by rewrite abs_diff_nil. }
  destruct (argmin_nonempty (abs_diff lon_arr target_lon)) as (j & Hj & Hjl).
  { by rewrite abs_diff_nil. }
  rewrite abs_diff_length in Hil, Hjl.
  exists i, j. unfold find_nearest_indices. rewrite Hi, bind_Ok, Hj, bind_Ok.
  done.
Qed.

(** X1: find_nearest_indices raises ValueError when one of the reference
    arrays is empty; on non-empty arrays, whatever they hold (undefined
    entries included), it returns a pair of indices that are valid
    positions of the two arrays. *)
Theorem find_nearest_indices_total
    (lat_arr lon_arr : list cell) (target_lat target_lon : float) :
  (lat_arr = [] \/ lon_arr = [] ->
   find_nearest_indices lat_arr lon_arr target_lat target_lon = Raise ValueError)
  /\ (lat_arr <> [] -> lon_arr <> [] ->
      exists lat_idx lon_idx : nat,
        find_nearest_indices lat_arr lon_arr target_lat target_lon
        = Ok (lat_idx, lon_idx)
        /\ (lat_idx < length lat_arr)%nat /\ (lon_idx < length lon_arr)%nat).
Proof.
  split; [|apply find_nearest_indices_in_range].
  intros [-> | ->]; [reflexivity|].
  unfold find_nearest_indices.
  destruct lat_arr as [|c l]; [reflexivity|].
  destruct (argmin_nonempty (abs_diff (c :: l) target_lat)) as (i & -> & _);
    [discriminate|reflexivity].
Qed.

Lemma leb_nan_r (m : float) : (m <=? nan)%float = false.
Proof.
  rewrite FloatAxioms.leb_spec. change (Prim2SF nan) with S754_nan.
  by destruct (Prim2SF m).
Qed.

Lemma abs_sub_nan (target : float) : abs (nan - target) = nan.
Proof.
  apply isnan_eq. rewrite abs_is_nan. by apply sub_nan_l.
Qed.

Lemma argmin_scan_first_nan (pre rest : list cell) (m : float) (min_ind i : nat) :
  no_nan pre ->
  argmin_scan m min_ind i (pre ++ nan :: rest) = (i + length pre)%nat.
Proof.
  revert m min_ind i. induction pre as [|c pre IH]; intros m min_ind i Hnn.
  - cbn [app argmin_scan length]. rewrite leb_nan_r. change (isnan nan) with true. lia.
  - apply Forall_cons in Hnn as [Hc Hnn]. cbn beta in Hc.
    cbn [app argmin_scan length]. rewrite Hc.
    destruct (m <=? c)%float; rewrite IH by exact Hnn; lia.
Qed.

Lemma argmin_first_nan (pre rest : list cell) :
  no_nan pre -> argmin (pre ++ nan :: rest) = Ok (length pre).
Proof.
  intros Hnn. destruct pre as [|c pre]; [reflexivity|].
  apply Forall_cons in Hnn as [Hc Hnn]. cbn beta in Hc.
  cbn [app argmin length]. rewrite Hc.
  by rewrite argmin_scan_first_nan.
Qed.

(** X2: an undefined entry wins the search: when the latitude array
    holds an undefined value, the returned latitude index is the position
    of the first undefined entry, wherever the (finite) target is. *)
Theorem find_nearest_indices_first_nan
    (lat_arr lon_arr : list cell) (target_lat target_lon : float) (k : nat) :
  isfinite target_lat = true ->
  lat_arr !! k = Some nan ->
  (forall k' : nat, (k' < k)%nat ->
     exists v : float, lat_arr !! k' = Some v /\ isnan v = false) ->
  lon_arr <> [] ->
  exists lon_idx : nat,
    find_nearest_indices lat_arr lon_arr target_lat target_lon = Ok (k, lon_idx).
Proof.
  intros Ht Hk Hbefore Hlon.
  destruct (argmin_nonempty (abs_diff lon_arr target_lon)) as (j & Hj & _).
  { by rewrite abs_diff_nil. }
  exists j. unfold find_nearest_indices.
  assert (Hsplit : abs_diff lat_arr target_lat
                   = abs_diff (take k lat_arr) target_lat
                     ++ nan :: abs_diff (drop (S k) lat_arr) target_lat).
  { rewrite <- (take_drop_middle lat_arr k nan Hk) at 1.
    unfold abs_diff. rewrite map_app. cbn [map]. by rewrite abs_sub_nan. }
  rewrite Hsplit, argmin_first_nan.
  - rewrite abs_diff_length, length_take, Nat.min_l
      by (apply lookup_lt_Some in Hk; lia).
    rewrite bind_Ok, Hj, bind_Ok. reflexivity.
  - apply abs_diff_no_nan; [|exact Ht]. apply Forall_lookup. intros k' c Hc.
    pose proof (lookup_lt_Some _ _ _ Hc) as Hlt. rewrite length_take in Hlt.
    rewrite lookup_take_lt in Hc by lia.
    destruct (Hbefore k' ltac:(lia)) as (v & Hv & Hvn). rewrite Hv in Hc.
    by injection Hc as <-.
Qed.

Lemma find_nearest_indices_first_nan_witness :
  exists lon_idx : nat,
    find_nearest_indices [3; 0; nan; 0]%float [1]%float 0 1
    = Ok (2%nat, lon_idx).
Proof.
  apply (find_nearest_indices_first_nan [3; 0; nan; 0]%float [1]%float 0 1 2).
  - reflexivity.
  - reflexivity.
  - intros k' Hk'.
    destruct k' as [|[|k']]; [by exists 3%float|by exists 0%float|lia].
  - discriminate.
Defined.

(** *** The two-pass search on arbitrary grids *)

Lemma column_raises {A : Type} (a : array2 A) (c : nat) (e : exn) :
  column a c = Raise e -> e = IndexError.
Proof.
  unfold column. case_bool_decide; [|congruence].
  destruct (mapM _ _); cbn; congruence.
Qed.

Lemma column_no_columns {A : Type} (a : array2 A) (c : nat) :
  (shape1 a <= c)%nat -> column a c = Raise IndexError.
Proof.
  intros Hc. unfold column. by rewrite bool_decide_eq_false_2 by lia.
Qed.

Lemma row_no_rows {A : Type} (a : array2 A) (r : nat) :
  (shape0 a <= r)%nat -> row a r = Raise IndexError.
Proof.
  intros Hr. unfold row. by rewrite (proj2 (lookup_ge_None (rows a) r) Hr).
Qed.

Lemma nearest_two_pass_returns
    (abi_lat abi_lon : array2 cell) (target_lat target_lon : float) :
  wf_array2 abi_lat -> wf_array2 abi_lon ->
  shape0 abi_lat = shape0 abi_lon -> shape1 abi_lat = shape1 abi_lon ->
  (0 < shape0 abi_lat)%nat -> (0 < shape1 abi_lat)%nat ->
  exists i0 j0 i1 j1 : nat,
    nearest_two_pass abi_lat abi_lon target_lat target_lon = Ok ((i0, j0), (i1, j1))
    /\ (i0 < shape0 abi_lat)%nat /\ (j0 < shape1 abi_lat)%nat
    /\ (i1 < shape0 abi_lat)%nat /\ (j1 < shape1 abi_lat)%nat.
Proof.
  intros Hwlat Hwlon Hs0 Hs1 Hr Hc. unfold nearest_two_pass.
  destruct (column_Ok abi_lat 0 Hwlat Hc) as (lat_0 & -> & Hl0 & _).
  destruct (row_Ok abi_lon 0 Hwlon ltac:(lia)) as (lon_0 & -> & Hm0 & _).
  rewrite !bind_Ok.
  destruct (find_nearest_indices_in_range lat_0 lon_0 target_lat target_lon)
    as (i0 & j0 & -> & Hi0 & Hj0).
  { apply nonempty_of_length. lia. }
  { apply nonempty_of_length. lia. }
  rewrite bind_Ok. cbn [fst snd].
  destruct (column_Ok abi_lat j0 Hwlat ltac:(lia)) as (lat_1 & -> & Hl1 & _).
  destruct (row_Ok abi_lon i0 Hwlon ltac:(lia)) as (lon_1 & -> & Hm1 & _).
  rewrite !bind_Ok.
  destruct (find_nearest_indices_in_range lat_1 lon_1 target_lat target_lon)
    as (i1 & j1 & -> & Hi1 & Hj1).
  { apply nonempty_of_length. lia. }
  { apply nonempty_of_length. lia. }
  rewrite bind_Ok. exists i0, j0, i1, j1.
  split; [reflexivity|]. lia.
Qed.

(** X3: on latitude and longitude grids of one shape with at least one
    row and one column, whatever the cells hold, both passes of the search
    return and both guesses are positions of the grid; on a grid without
    rows or without columns the search raises IndexError. *)
Theorem nearest_two_pass_in_bounds
    (abi_lat abi_lon : array2 cell) (target_lat target_lon : float) :
  wf_array2 abi_lat -> wf_array2 abi_lon ->
  shape0 abi_lat = shape0 abi_lon -> shape1 abi_lat = shape1 abi_lon ->
  ((0 < shape0 abi_lat)%nat -> (0 < shape1 abi_lat)%nat ->
   exists i0 j0 i1 j1 : nat,
     nearest_two_pass abi_lat abi_lon target_lat target_lon = Ok ((i0, j0), (i1, j1))
     /\ (i0 < shape0 abi_lat)%nat /\ (j0 < shape1 abi_lat)%nat
     /\ (i1 < shape0 abi_lat)%nat /\ (j1 < shape1 abi_lat)%nat)
  /\ (shape0 abi_lat = 0%nat \/ shape1 abi_lat = 0%nat ->
      nearest_two_pass abi_lat abi_lon target_lat target_lon = Raise IndexError).
Proof.
  intros Hwlat Hwlon Hs0 Hs1. split.
  - by apply nearest_two_pass_returns.
  - intros Hempty. unfold nearest_two_pass.
    destruct (column abi_lat 0) as [lat_0|e] eqn:Hcol.
    + rewrite bind_Ok. rewrite row_no_rows; [reflexivity|].
      destruct Hempty as [H0|H1]; [lia|].
      rewrite column_no_columns in Hcol by lia. discriminate Hcol.
    + rewrite bind_Raise. f_equal. eapply column_raises, Hcol.
Qed.

Lemma nearest_two_pass_in_bounds_witness :
  exists i0 j0 i1 j1 : nat,
    nearest_two_pass skewed_lat skewed_lon 0 0 = Ok ((i0, j0), (i1, j1))
    /\ (i0 < shape0 skewed_lat)%nat /\ (j0 < shape1 skewed_lat)%nat
    /\ (i1 < shape0 skewed_lat)%nat /\ (j1 < shape1 skewed_lat)%nat.
Proof.
  refine (proj1 (nearest_two_pass_in_bounds skewed_lat skewed_lon 0 0 _ _ _ _) _ _).
  - repeat constructor.
  - repeat constructor.
  - reflexivity.
  - reflexivity.
  - cbn. lia.
  - cbn. lia.
Defined.

Lemma column_ext (a : array2 cell) (c c' : nat) (col col' : list cell) :
  is_column a c col -> is_column a c' col' ->
  (forall r : nat, item a r c = item a r c') -> col = col'.
Proof.
  intros [_ H] [_ H'] Hext. apply list_eq. intros r. by rewrite H, H', Hext.
Qed.

(** X4: on a grid whose latitude depends on the row only and whose
    longitude depends on the column only, the second pass searches the same
    values as the first and returns the first guess again. *)
Theorem nearest_two_pass_separable
    (abi_lat abi_lon : array2 cell) (target_lat target_lon : float) :
  wf_array2 abi_lat -> wf_array2 abi_lon ->
  shape0 abi_lat = shape0 abi_lon -> shape1 abi_lat = shape1 abi_lon ->
  (0 < shape0 abi_lat)%nat -> (0 < shape1 abi_lat)%nat ->
  (forall r c : nat, (c < shape1 abi_lat)%nat -> item abi_lat r c = item abi_lat r 0) ->
  (forall r c : nat, (r < shape0 abi_lon)%nat -> item abi_lon r c = item abi_lon 0 c) ->
  exists guess : nat * nat,
    nearest_two_pass abi_lat abi_lon target_lat target_lon = Ok (guess, guess).
Proof.
  intros Hwlat Hwlon Hs0 Hs1 Hr Hc Hlat Hlon. unfold nearest_two_pass.
  destruct (column_is_column abi_lat 0 Hwlat Hc) as (lat_0 & -> & Hic0).
  destruct (row_Ok abi_lon 0 Hwlon ltac:(lia)) as (lon_0 & -> & Hm0 & Hj0).
  rewrite !bind_Ok.
  destruct (find_nearest_indices_in_range lat_0 lon_0 target_lat target_lon)
    as (i0 & j0 & Hfind & Hi0 & Hj0').
  { apply nonempty_of_length. destruct Hic0 as [Hl _]. lia. }
  { apply nonempty_of_length. lia. }
  rewrite Hfind, bind_Ok. cbn [fst snd].
  assert (Hi0' : (i0 < shape0 abi_lat)%nat) by (destruct Hic0 as [Hl _]; lia).
  destruct (column_is_column abi_lat j0 Hwlat ltac:(lia)) as (lat_1 & -> & Hic1).
  destruct (row_Ok abi_lon i0 Hwlon ltac:(lia)) as (lon_1 & -> & Hm1 & Hj1).
  rewrite !bind_Ok.
  assert (lat_1 = lat_0) as ->.
  { apply (column_ext abi_lat j0 0 _ _ Hic1 Hic0). intros r. apply Hlat. lia. }
  assert (lon_1 = lon_0) as ->.
  { apply list_eq. intros c. rewrite Hj1, Hj0. apply Hlon. lia. }
  rewrite Hfind, bind_Ok. by exists (i0, j0).
Qed.

Lemma nearest_two_pass_separable_witness :
  exists guess : nat * nat,
    nearest_two_pass plate_lat plate_lon 26 (-79) = Ok (guess, guess).
Proof.
  apply (nearest_two_pass_separable plate_lat plate_lon 26 (-79)).
  - repeat constructor.
  - repeat constructor.
  - reflexivity.
  - reflexivity.
  - cbn. lia.
  - cbn. lia.
  - intros r c Hc. cbn in Hc.
    destruct r as [|[|r]]; destruct c as [|[|[|c]]]; try lia; reflexivity.
  - intros r c Hr. cbn in Hr.
    destruct r as [|[|r]]; [reflexivity| |lia].
    destruct c as [|[|[|c]]]; reflexivity.
Defined.

(** *** The positions calculate_points returns *)

Lemma calculate_points_positions (lat_idx lon_idx istep : Z) :
  map position (calculate_points lat_idx lon_idx istep)
  = [ (lat_idx + 1, lon_idx + 1); (lat_idx, lon_idx + 1); (lat_idx - 1, lon_idx + 1);
      (lat_idx + 1, lon_idx); (lat_idx - 1, lon_idx);
      (lat_idx + 1, lon_idx - 1); (lat_idx, lon_idx - 1); (lat_idx - 1, lon_idx - 1) ].
Proof. reflexivity. Qed.

Lemma calculate_points_positions_NoDup (lat_idx lon_idx istep : Z) :
  NoDup (map position (calculate_points lat_idx lon_idx istep)).
Proof.
  rewrite calculate_points_positions.
  repeat (apply NoDup_cons_2;
          [rewrite ?elem_of_cons, elem_of_nil; intros H;
           repeat (destruct H as [H|H]; [injection H; lia|]); exact H|]).
  apply NoDup_nil_2.
Qed.

(** X5: whatever the names are, the eight positions are right: they are
    pairwise distinct, and a grid cell is among them exactly when it is at
    Chebyshev distance 1 from the centre (the centre itself is not). *)
Theorem calculate_points_ring (lat_idx lon_idx istep : Z) :
  NoDup (map position (calculate_points lat_idx lon_idx istep))
  /\ forall r c : Z,
       (r, c) ∈ map position (calculate_points lat_idx lon_idx istep)
       <-> Z.max (Z.abs (r - lat_idx)) (Z.abs (c - lon_idx)) = 1.
Proof.
  split; [apply calculate_points_positions_NoDup|].
  rewrite calculate_points_positions.
  - intros r c. rewrite !elem_of_cons, elem_of_nil. split.
    + intros H. repeat (destruct H as [H|H]; [injection H as -> ->; lia|]).
      destruct H.
    + intros H.
      assert (Hr : r = lat_idx - 1 \/ r = lat_idx \/ r = lat_idx + 1) by lia.
      assert (Hc : c = lon_idx - 1 \/ c = lon_idx \/ c = lon_idx + 1) by lia.
      destruct Hr as [-> | [-> | ->]], Hc as [-> | [-> | ->]];
        try (exfalso; lia); tauto.
Qed.

(** X6: the function and the hand-written table of the notebook list the
    same eight cells, in a different order: for every step argument, the
    positions of calculate_points are a permutation of [data_points] at
    step 1. *)
Theorem calculate_points_data_points (lat_idx lon_idx istep : Z) :
  map position (calculate_points lat_idx lon_idx istep)
    ≡ₚ data_points lat_idx lon_idx 1
  /\ map position (calculate_points lat_idx lon_idx istep)
     <> data_points lat_idx lon_idx 1.
Proof.
  split.
  - apply NoDup_Permutation.
    + apply calculate_points_positions_NoDup.
    + unfold data_points.
      repeat (apply NoDup_cons_2;
              [rewrite ?elem_of_cons, elem_of_nil; intros H;
               repeat (destruct H as [H|H]; [injection H; lia|]); exact H|]).
      apply NoDup_nil_2.
    + intros [r c]. rewrite calculate_points_positions. unfold data_points.
      rewrite !elem_of_cons, !elem_of_nil. tauto.
  - rewrite calculate_points_positions. unfold data_points.
    intros H. injection H. lia.
Qed.

(** X7: the eight neighbours are all within the bounds of a field exactly
    when the centre is an interior cell of its grid. *)
Theorem calculate_points_in_bounds_iff {A : Type} (ds : DataArray A)
    (lat_idx lon_idx istep : Z) :
  Forall (in_bounds ds) (calculate_points lat_idx lon_idx istep)
  <-> (1 <= lat_idx /\ lat_idx + 1 < Z.of_nat (size_y ds))
      /\ (1 <= lon_idx /\ lon_idx + 1 < Z.of_nat (size_x ds)).
Proof.
  unfold calculate_points, in_bounds. split.
  - intros H. repeat (apply Forall_cons in H as [? H]).
    cbn [point.i point.j] in *. lia.
  - intros H. repeat constructor; cbn [point.i point.j]; lia.
Qed.

(** *** The extraction loop on any list of points *)

Section ExtractionMore.
Context {A : Type}.
Implicit Types (ds : DataArray A) (points : list point.t).

Lemma isel_accepted ds (p : point.t) :
  wf_DataArray ds -> accepted ds p ->
  exists s : list A,
    isel ds (point.j p) (point.i p) = Ok s
    /\ length s = length (values ds)
    /\ forall t : nat, (t < length (values ds))%nat ->
         is_Some (s !! t)
         /\ s !! t = direct_index ds t (wrap_index (size_y ds) (point.j p))
                                       (wrap_index (size_x ds) (point.i p)).
Proof.
  intros Hwf [Hy Hx].
  destruct (isel_wrap_point ds p Hy Hx) as [-> Hin].
  destruct (isel_in_bounds ds (wrap_point ds p) Hwf Hin) as (s & Hs & Hlen & Hval).
  exists s. split; [exact Hs|]. split; [exact Hlen|exact Hval].
Qed.

Lemma isel_all_accepted ds points :
  wf_DataArray ds -> Forall (accepted ds) points ->
  exists rs : list (list A),
    Forall2 (fun p s => isel ds (point.j p) (point.i p) = Ok s) points rs.
Proof.
  intros Hwf HF. induction HF as [|p points Hp _ IH].
  - exists []. constructor.
  - destruct IH as [rs Hrs].
    destruct (isel_accepted ds p Hwf Hp) as (s & Hs & _).
    exists (s :: rs). by constructor.
Qed.

Lemma isel_Ok_accepted ds (p : point.t) (s : list A) :
  isel ds (point.j p) (point.i p) = Ok s -> accepted ds p.
Proof.
  intros Hs. split; intros Hb.
  - rewrite isel_beyond in Hs by (by left). discriminate Hs.
  - rewrite isel_beyond in Hs by (by right). discriminate Hs.
Qed.

End ExtractionMore.

(** X8: on a well-formed field the extraction returns exactly when the
    list of points is not empty and every index is one its axis accepts
    (from minus the dimension up to the dimension, excluded); in every other
    case it raises IndexError. *)
Theorem extract_points_returns_iff {A : Type} (ds : DataArray A)
    (points : list point.t) :
  wf_DataArray ds ->
  ((exists c : combined A, extract_points ds points = Ok c)
   <-> points <> [] /\ Forall (accepted ds) points)
  /\ ((forall c : combined A, extract_points ds points <> Ok c)
      -> extract_points ds points = Raise IndexError).
Proof.
  intros Hwf. split; [split|].
  - intros [c Hc]. split.
    + intros ->. discriminate Hc.
    + apply extract_points_Ok in Hc. eapply Forall_impl; [exact Hc|].
      intros p [s Hs]. by eapply isel_Ok_accepted.
  - intros [Hne Hall].
    destruct (isel_all_accepted ds points Hwf Hall) as [rs Hrs].
    destruct points as [|p0 [|p1 points]]; [congruence| |].
    + apply Forall2_cons_inv_l in Hrs as (s0 & rs' & Hs0 & _ & _).
      exists (Series s0). unfold extract_points. cbn [lookup list_lookup of_option].
      change ([p0] !! 0%nat) with (Some p0). cbn [of_option].
      rewrite bind_Ok, Hs0, bind_Ok. reflexivity.
    + exists (Stacked rs). apply extract_points_stacks; [cbn; lia|exact Hrs].
  - intros Hno. destruct (extract_points ds points) as [c|e] eqn:Hres.
    + by destruct (Hno c).
    + f_equal. eapply extract_points_raises, Hres.
Qed.

Lemma extract_points_returns_iff_witness :
  (exists c : combined Z,
      extract_points (field_5x5 2) (calculate_points 0 1 1) = Ok c)
  <-> calculate_points 0 1 1 <> [] /\ Forall (accepted (field_5x5 2)) (calculate_points 0 1 1).
Proof.
  apply (extract_points_returns_iff (field_5x5 2) (calculate_points 0 1 1)).
  apply field_5x5_wf.
Defined.

(** X9: for any number of points from two on, each with indices its axis
    accepts, the extraction stacks as many series as there are points, each
    as long as the time axis; series k holds, at every time step, the sample
    at the position of point k, a negative index being counted from the end
    of its axis. *)
Theorem extract_points_any_number {A : Type} (ds : DataArray A)
    (points : list point.t) :
  wf_DataArray ds -> (2 <= length points)%nat -> Forall (accepted ds) points ->
  exists rs : list (list A),
    extract_points ds points = Ok (Stacked rs)
    /\ length rs = length points
    /\ forall (k : nat) (p : point.t),
         points !! k = Some p ->
         exists s : list A,
           rs !! k = Some s
           /\ length s = length (values ds)
           /\ forall t : nat, (t < length (values ds))%nat ->
                s !! t = direct_index ds t (wrap_index (size_y ds) (point.j p))
                                          (wrap_index (size_x ds) (point.i p))
                /\ is_Some (s !! t).
Proof.
  intros Hwf Hlen Hall.
  destruct (isel_all_accepted ds points Hwf Hall) as [rs Hrs].
  exists rs. split; [by apply extract_points_stacks|].
  pose proof (Forall2_length _ _ _ Hrs) as Hl. split; [lia|].
  intros k p Hp.
  destruct (lookup_lt_is_Some_2 rs k) as [s Hs].
  { apply lookup_lt_Some in Hp. lia. }
  exists s. split; [exact Hs|].
  pose proof (Forall2_lookup_lr _ _ _ _ _ _ Hrs Hp Hs) as Hsel.
  destruct (isel_accepted ds p Hwf) as (s' & Hs' & Hlen' & Hval).
  { eapply (proj1 (Forall_forall _ _) Hall), list_elem_of_lookup_2, Hp. }
  rewrite Hsel in Hs'. injection Hs' as <-.
  split; [exact Hlen'|]. intros t Ht. destruct (Hval t Ht). done.
Qed.

Lemma extract_points_any_number_witness :
  exists rs : list (list Z),
    extract_points (field_5x5 2)
      [point.mk (-1) 0 "a"; point.mk 4 (-5) "b"; point.mk 0 0 "c"] = Ok (Stacked rs)
    /\ length rs = 3%nat.
Proof.
  destruct (extract_points_any_number (field_5x5 2)
              [point.mk (-1) 0 "a"; point.mk 4 (-5) "b"; point.mk 0 0 "c"])
    as (rs & Hrs & Hlen & _).
  - apply field_5x5_wf.
  - cbn. lia.
  - unfold accepted, beyond. repeat constructor; cbn; lia.
  - exists rs. split; [exact Hrs|exact Hlen].
Defined.

(** X10: with a single point the loop never concatenates: the result is
    the series of that point alone, with the time dimension only and no
    points_index dimension. *)
Theorem extract_points_single {A : Type} (ds : DataArray A) (p : point.t) :
  wf_DataArray ds -> accepted ds p ->
  exists s : list A,
    extract_points ds [p] = Ok (Series s)
    /\ isel ds (point.j p) (point.i p) = Ok s
    /\ length s = length (values ds).
Proof.
  intros Hwf Hp.
  destruct (isel_accepted ds p Hwf Hp) as (s & Hs & Hlen & _).
  exists s. split; [|split; [exact Hs|exact Hlen]].
  unfold extract_points. change ([p] !! 0%nat) with (Some p). cbn [of_option].
  rewrite bind_Ok, Hs, bind_Ok. reflexivity.
Qed.

Lemma extract_points_single_witness :
  exists s : list Z,
    extract_points (field_5x5 3) [point.mk 1 1 "x"] = Ok (Series s)
    /\ isel (field_5x5 3) 1 1 = Ok s
    /\ length s = 3%nat.
Proof.
  apply (extract_points_single (field_5x5 3) (point.mk 1 1 "x")).
  - apply field_5x5_wf.
  - unfold accepted, beyond. cbn. lia.
Defined.

(** *** calculate_points followed by the extraction loop *)

Lemma extract_points_beyond {A : Type} (ds : DataArray A) (points : list point.t) :
  Exists (fun p => beyond (size_y ds) (point.j p) \/ beyond (size_x ds) (point.i p))
         points ->
  extract_points ds points = Raise IndexError.
Proof.
  intros Hex. destruct (extract_points ds points) as [c|e] eqn:Hres.
  - exfalso. apply extract_points_Ok in Hres.
    apply Exists_exists in Hex as (p & Hp & Hb).
    pose proof (proj1 (Forall_forall _ _) Hres p Hp) as [s Hs].
    rewrite (isel_beyond ds _ _ Hb) in Hs. discriminate Hs.
  - f_equal. eapply extract_points_raises, Hres.
Qed.

(** X11: the two sides of the grid behave differently.  With the centre
    on the last row or the last column (or past them) the extraction of the
    eight neighbours raises IndexError.  With the centre on the first row,
    away from the last row and the last column, it returns eight series, and
    those of the three neighbours at row index -1 are the series of the last
    row of the grid. *)
Theorem extract_ring_at_the_edges {A : Type} (ds : DataArray A)
    (lat_idx lon_idx istep : Z) :
  (Z.of_nat (size_y ds) <= lat_idx + 1 \/ Z.of_nat (size_x ds) <= lon_idx + 1 ->
   extract_points ds (calculate_points lat_idx lon_idx istep) = Raise IndexError)
  /\ (wf_DataArray ds -> lat_idx = 0 -> 1 < Z.of_nat (size_y ds) ->
      0 <= lon_idx -> lon_idx + 1 < Z.of_nat (size_x ds) ->
      exists rs : list (list A),
        extract_points ds (calculate_points lat_idx lon_idx istep) = Ok (Stacked rs)
        /\ length rs = 8%nat
        /\ forall (k : nat) (p : point.t) (t : nat),
             calculate_points lat_idx lon_idx istep !! k = Some p ->
             point.j p = -1 -> (t < length (values ds))%nat ->
             rs !! k ≫= (.!! t)
             = direct_index ds t (Z.of_nat (size_y ds) - 1)
                                 (wrap_index (size_x ds) (point.i p))).
Proof.
  split.
  - intros Hedge. apply extract_points_beyond.
    apply Exists_cons_hd. unfold beyond. cbn [point.i point.j]. lia.
  - intros Hwf -> Hny Hlon Hnx.
    assert (Hall : Forall (accepted ds) (calculate_points 0 lon_idx istep)).
    { unfold accepted, beyond. repeat constructor; cbn [point.i point.j]; lia. }
    destruct (isel_all_accepted ds _ Hwf Hall) as [rs Hrs].
    exists rs. split; [apply extract_points_stacks; [cbn; lia|exact Hrs]|].
    pose proof (Forall2_length _ _ _ Hrs) as Hl. split; [cbn in Hl; lia|].
    intros k p t Hp Hj Ht.
    destruct (lookup_lt_is_Some_2 rs k) as [s Hs].
    { apply lookup_lt_Some in Hp. lia. }
    pose proof (Forall2_lookup_lr _ _ _ _ _ _ Hrs Hp Hs) as Hsel.
    destruct (isel_accepted ds p Hwf) as (s' & Hs' & _ & Hval).
    { eapply (proj1 (Forall_forall _ _) Hall), list_elem_of_lookup_2, Hp. }
    rewrite Hsel in Hs'. injection Hs' as <-.
    rewrite Hs. cbn. destruct (Hval t Ht) as [_ ->].
    rewrite Hj. unfold wrap_index at 1. cbn. f_equal; lia.
Qed.

Lemma extract_ring_at_the_edges_witness :
  extract_points (field_5x5 2) (calculate_points 4 2 1) = Raise IndexError
  /\ exists rs : list (list Z),
       extract_points (field_5x5 2) (calculate_points 0 1 1) = Ok (Stacked rs)
       /\ length rs = 8%nat.
Proof.
  split.
  - apply (proj1 (extract_ring_at_the_edges (field_5x5 2) 4 2 1)). left. cbn. lia.
  - destruct (proj2 (extract_ring_at_the_edges (field_5x5 2) 0 1 1))
      as (rs & Hrs & Hlen & _).
    + apply field_5x5_wf.
    + reflexivity.
    + cbn. lia.
    + lia.
    + cbn. lia.
    + exists rs. split; [exact Hrs|exact Hlen].
Defined.

(** *** forward_fill_2d: what an unfillable column leaves behind *)

Section LoopMore.
Variable arr : positive.
Implicit Types (h : gmap positive (array2 cell)) (a : array2 cell).

Lemma forward_fill_loop_app (l1 l2 : list nat) :
  forall h,
    forward_fill_loop arr (l1 ++ l2) h
    = match forward_fill_loop arr l1 h with
      | (h1, Ok _) => forward_fill_loop arr l2 h1
      | (h1, Raise e) => (h1, Raise e)
      end.
Proof.
  induction l1 as [|i l1 IH]; intros h; [reflexivity|].
  cbn [app forward_fill_loop].
  destruct (h !! arr) as [a|]; [|reflexivity].
  destruct (fill_column a i) as [a'|e]; [apply IH|reflexivity].
Qed.

(** The loop over columns that each hold a defined value. *)
Lemma forward_fill_loop_filled_on (cols : list nat) :
  forall h a,
    h !! arr = Some a -> wf_array2 a -> NoDup cols ->
    Forall (fun c => (c < shape1 a)%nat
                     /\ exists (r : nat) (v : float),
                          item a r c = Some v /\ isnan v = false) cols ->
    exists a' : array2 cell,
      forward_fill_loop arr cols h = (<[arr := a']> h, Ok tt)
      /\ shape1 a' = shape1 a /\ shape0 a' = shape0 a /\ wf_array2 a'
      /\ (forall (c : nat) (col : list cell),
            c ∈ cols -> is_column a c col -> is_column a' c (filled col))
      /\ (forall r c : nat, c ∉ cols -> item a' r c = item a r c).
Proof.
  induction cols as [|i cols IH]; intros h a Ha Hwf Hnd Hcols.
  - exists a. cbn. rewrite (insert_id h arr a Ha).
    split; [reflexivity|]. split; [reflexivity|]. split; [reflexivity|].
    split; [exact Hwf|]. split; [|reflexivity].
    intros c col Hc. by apply elem_of_nil in Hc.
  - apply Forall_cons in Hcols as [[Hi (r0 & v0 & Hv0 & Hv0n)] Hcols].
    apply NoDup_cons in Hnd as [Hni Hnd].
    cbn [forward_fill_loop]. rewrite Ha.
    destruct (column_is_column a i Hwf Hi) as (col & Hcol & Hic).
    assert (Hdcol : has_defined col).
    { apply (has_defined_of_lookup col r0 v0); [|exact Hv0n].
      destruct Hic as [_ Hitem]. by rewrite Hitem. }
    destruct (fill_column_filled a i col Hwf Hi Hcol Hic Hdcol)
      as (a1 & -> & Hs1 & Hs0 & Hwf1 & Hfi & Hfo).
    destruct (IH (<[arr := a1]> h) a1) as (a' & Hloop & Hs1' & Hs0' & Hwf' & Hin & Hout).
    { apply lookup_insert_eq. }
    { exact Hwf1. }
    { exact Hnd. }
    { apply Forall_forall. intros c Hc.
      destruct (proj1 (Forall_forall _ _) Hcols c Hc) as (Hlt & r & v & Hv & Hvn).
      split; [lia|]. exists r, v. split; [|exact Hvn].
      rewrite Hfo; [exact Hv|]. intros ->. by apply Hni. }
    exists a'. rewrite Hloop, insert_insert_eq.
    split; [reflexivity|]. split; [congruence|]. split; [congruence|].
    split; [exact Hwf'|]. split.
    + intros c col' Hc Hic'. apply elem_of_cons in Hc as [->|Hc].
      * rewrite (is_column_unique a i col' col Hic' Hic).
        split; [rewrite filled_length; destruct Hic as [Hl _]; congruence|].
        intros r. by rewrite (Hout r i Hni), Hfi.
      * apply Hin; [exact Hc|].
        apply (is_column_ext a a1 c col' Hs0); [|exact Hic'].
        intros r. apply Hfo. intros ->. by apply Hni.
    + intros r c Hc. apply not_elem_of_cons in Hc as [Hne Hc].
      by rewrite (Hout r c Hc), Hfo.
Qed.

End LoopMore.

Lemma has_defined_lookup (col : list cell) :
  has_defined col -> exists (r : nat) (v : float), col !! r = Some v /\ isnan v = false.
Proof.
  intros Hd. apply Exists_exists in Hd as (c & Hc & Hcn).
  apply list_elem_of_lookup_1 in Hc as [k Hk]. by exists k, c.
Qed.

(** X13: when column c is the first column without any defined value,
    forward_fill_2d raises ValueError, and the array is left half done: the
    columns before c have been filled (and, the cells being NaN or finite
    and the rows fewer than 2^53, no undefined cell is left in them),
    column c and the columns after it are as they were.  Nothing is rolled
    back. *)
Theorem forward_fill_2d_unfillable_column (h : gmap positive (array2 cell))
    (arr : positive) (a : array2 cell) (c : nat) :
  h !! arr = Some a -> wf_array2 a -> (c < shape1 a)%nat ->
  (forall c' : nat, (c' < c)%nat ->
     exists (r : nat) (v : float), item a r c' = Some v /\ isnan v = false) ->
  (forall (r : nat) (v : float), item a r c = Some v -> isnan v = true) ->
  exists a' : array2 cell,
    forward_fill_2d arr h = (<[arr := a']> h, Raise ValueError)
    /\ shape0 a' = shape0 a /\ shape1 a' = shape1 a
    /\ (forall (c' : nat) (col : list cell),
          (c' < c)%nat -> is_column a c' col -> is_column a' c' (filled col))
    /\ (no_inf2 a -> exact_rows a ->
        forall (r c' : nat) (x : cell),
          (c' < c)%nat -> item a' r c' = Some x -> isnan x = false)
    /\ (forall r c' : nat, (c <= c')%nat -> item a' r c' = item a r c').
Proof.
  intros Ha Hwf Hc Hbefore Hnone.
  unfold forward_fill_2d. rewrite Ha.
  assert (Hseq : seq 0 (shape1 a) = seq 0 c ++ c :: seq (S c) (shape1 a - S c)).
  { replace (shape1 a) with (c + S (shape1 a - S c))%nat at 1 by lia.
    by rewrite seq_app. }
  rewrite Hseq, forward_fill_loop_app.
  destruct (forward_fill_loop_filled_on arr (seq 0 c) h a Ha Hwf)
    as (a1 & -> & Hs1 & Hs0 & Hwf1 & Hin & Hout).
  { apply NoDup_seq. }
  { apply Forall_forall. intros c' Hc'. apply elem_of_seq in Hc'.
    split; [lia|]. apply Hbefore. lia. }
  cbn [forward_fill_loop]. rewrite lookup_insert_eq.
  destruct (column_is_column a1 c Hwf1 ltac:(lia)) as (col & Hcol & Hic).
  assert (Hunch : forall r c' : nat, (c <= c')%nat -> item a1 r c' = item a r c').
  { intros r c' Hc'. apply Hout. rewrite elem_of_seq. lia. }
  rewrite (fill_column_undefined a1 c col Hcol).
  2:{ intros Hd. apply has_defined_lookup in Hd as (r & v & Hv & Hvn).
      destruct Hic as [_ Hi]. rewrite Hi, Hunch in Hv by lia.
      rewrite (Hnone r v Hv) in Hvn. discriminate Hvn. }
  exists a1. split; [reflexivity|]. split; [exact Hs0|]. split; [exact Hs1|].
  assert (Hfill : forall (c' : nat) (col' : list cell),
             (c' < c)%nat -> is_column a c' col' -> is_column a1 c' (filled col')).
  { intros c' col' Hc'. apply Hin. apply elem_of_seq. lia. }
  split; [exact Hfill|]. split; [|exact Hunch].
  intros Hinf Hrows r c' x Hc' Hx.
  destruct (column_is_column a c' Hwf ltac:(lia)) as (col' & _ & Hic').
  destruct (Hfill c' col' Hc' Hic') as [_ Hi1].
  rewrite <- Hi1 in Hx.
  assert (Hd : has_defined col').
  { destruct (Hbefore c' Hc') as (r0 & v & Hv & Hvn).
    apply (has_defined_of_lookup col' r0 v); [|exact Hvn].
    destruct Hic' as [_ Hi]. by rewrite Hi. }
  assert (Hlen : Z.of_nat (length col') <= 2 ^ 53).
  { destruct Hic' as [Hl _]. rewrite Hl. exact Hrows. }
  exact (proj1 (Forall_lookup _ _)
           (filled_no_nan col' Hd (no_inf_column a c' col' Hinf Hic') Hlen) r x Hx).
Qed.

Lemma forward_fill_2d_unfillable_column_witness :
  exists a' : array2 cell,
    forward_fill_2d 1%positive blind_heap
    = (<[1%positive := a']> blind_heap, Raise ValueError)
    /\ shape0 a' = shape0 blind_grid /\ shape1 a' = shape1 blind_grid
    /\ (forall (c' : nat) (col : list cell),
          (c' < 1)%nat -> is_column blind_grid c' col -> is_column a' c' (filled col))
    /\ (no_inf2 blind_grid -> exact_rows blind_grid ->
        forall (r c' : nat) (x : cell),
          (c' < 1)%nat -> item a' r c' = Some x -> isnan x = false)
    /\ (forall r c' : nat, (1 <= c')%nat -> item a' r c' = item blind_grid r c').
Proof.
  apply (forward_fill_2d_unfillable_column blind_heap 1%positive blind_grid 1).
  - reflexivity.
  - repeat constructor.
  - cbn. lia.
  - intros c' Hc'. destruct c' as [|c']; [|lia]. exists 1%nat, 1%float. by split.
  - intros r v. destruct r as [|[|r]]; cbn; intros [= <-] || discriminate; reflexivity.
Defined.

(** *** forward_fill_2d on grids without undefined cells, and without rows *)

(** X14: a grid without undefined cells that has at least one row, or
    no column at all, is returned as it is, the heap untouched; but a grid
    with columns and no rows makes forward_fill_2d raise ValueError (np.interp
    gets no sample point), the heap untouched as well. *)
Theorem forward_fill_2d_nothing_to_fill (h : gmap positive (array2 cell))
    (arr : positive) (a : array2 cell) :
  h !! arr = Some a -> wf_array2 a -> no_nan2 a ->
  ((shape1 a = 0%nat \/ (0 < shape0 a)%nat) -> forward_fill_2d arr h = (h, Ok arr))
  /\ (shape0 a = 0%nat -> (0 < shape1 a)%nat ->
      forward_fill_2d arr h = (h, Raise ValueError)).
Proof.
  intros Ha Hwf Hnn. unfold forward_fill_2d. rewrite Ha. split.
  - intros [Hz|Hr].
    + rewrite Hz. reflexivity.
    + rewrite (forward_fill_loop_no_nan arr (seq 0 (shape1 a)) h a Ha Hwf);
        [reflexivity| |exact Hr|exact Hnn].
      apply Forall_forall. intros c Hc. apply elem_of_seq in Hc. lia.
  - intros Hz Hc.
    destruct (shape1 a) as [|n] eqn:Hn; [lia|].
    cbn [seq forward_fill_loop]. rewrite Ha.
    destruct (column_is_column a 0 Hwf ltac:(lia)) as (col & Hcol & [Hl _]).
    rewrite (fill_column_undefined a 0 col Hcol); [reflexivity|].
    rewrite Hz in Hl. destruct col; [|discriminate Hl].
    intros Hd. by apply Exists_nil in Hd.
Qed.

Lemma forward_fill_2d_nothing_to_fill_witness :
  forward_fill_2d 1%positive {[ 1%positive := skewed_lat ]}
  = ({[ 1%positive := skewed_lat ]}, Ok 1%positive)
  /\ forward_fill_2d 1%positive {[ 1%positive := mkArray2 2 [] ]}
     = ({[ 1%positive := mkArray2 2 [] ]}, Raise ValueError).
Proof.
  split.
  - refine (proj1 (forward_fill_2d_nothing_to_fill
                     {[ 1%positive := skewed_lat ]} 1%positive skewed_lat _ _ _) _).
    + reflexivity.
    + repeat constructor.
    + repeat constructor.
    + right. cbn. lia.
  - refine (proj2 (forward_fill_2d_nothing_to_fill
                     {[ 1%positive := mkArray2 2 [] ]} 1%positive (mkArray2 2 []) _ _ _)
                  _ _).
    + reflexivity.
    + constructor.
    + constructor.
    + reflexivity.
    + cbn. lia.
Defined.

(** *** calculate_degrees: undefined scan angles, and mirror symmetry *)

Section CellNaN.
Variables (m : libm) (info : projection_info) (xv yv : float).
Hypothesis Harctan : arctan_keeps_nan m.

Lemma abi_lat_nan_of_r_s :
  PrimFloat.is_nan (r_s_at m info xv yv) = true ->
  PrimFloat.is_nan (abi_lat_at m info xv yv) = true.
Proof.
  intros Hr. unfold abi_lat_at. apply mul_nan_r, Harctan, mul_nan_r, div_nan_l.
  unfold s_z_at. apply mul_nan_l, mul_nan_l, Hr.
Qed.

Lemma abi_lon_nan_of_r_s :
  PrimFloat.is_nan (r_s_at m info xv yv) = true ->
  PrimFloat.is_nan (abi_lon_at m info xv yv) = true.
Proof.
  intros Hr. unfold abi_lon_at. apply mul_nan_l, sub_nan_r, Harctan, div_nan_l.
  unfold s_y_at. apply mul_nan_l, opp_nan, Hr.
Qed.

Hypothesis Hsin : sin_keeps_nan m.

Lemma a_var_nan :
  PrimFloat.is_nan xv = true \/ PrimFloat.is_nan yv = true ->
  PrimFloat.is_nan (a_var_at m info xv yv) = true.
Proof.
  unfold a_var_at, square. intros [Hx|Hy].
  - apply add_nan_l, mul_nan_l, Hsin, Hx.
  - apply add_nan_r, mul_nan_r, add_nan_r, mul_nan_r, mul_nan_l, Hsin, Hy.
Qed.

Lemma r_s_nan_of_angle :
  PrimFloat.is_nan xv = true \/ PrimFloat.is_nan yv = true ->
  PrimFloat.is_nan (r_s_at m info xv yv) = true.
Proof.
  intros H. unfold r_s_at. apply div_nan_r, mul_nan_r, a_var_nan, H.
Qed.

End CellNaN.

(** X15: an undefined (NaN) scan angle gives undefined coordinates: when
    the x angle of a column or the y angle of a row is NaN, every cell of
    that column or row is NaN in both returned arrays; nothing is raised. *)
Theorem calculate_degrees_nan_angle (m : libm) (file_id : dataset) :
  arctan_keeps_nan m -> sin_keeps_nan m ->
  exists abi_lat abi_lon : array2 float,
    calculate_degrees m file_id = Ok (abi_lat, abi_lon)
    /\ forall (r c : nat) (xv yv : float),
         variables_x file_id !! c = Some xv ->
         variables_y file_id !! r = Some yv ->
         PrimFloat.is_nan xv = true \/ PrimFloat.is_nan yv = true ->
         exists lat lon : float,
           item abi_lat r c = Some lat /\ PrimFloat.is_nan lat = true
           /\ item abi_lon r c = Some lon /\ PrimFloat.is_nan lon = true.
Proof.
  intros Harctan Hsin.
  eexists _, _. split; [apply calculate_degrees_tabulate|].
  intros r c xv yv Hx Hy Hnan.
  rewrite !(tabulate_item _ _ _ r c xv yv Hx Hy).
  pose proof (r_s_nan_of_angle m (goes_imager_projection file_id) xv yv Hsin Hnan) as Hr.
  eexists _, _. split; [reflexivity|].
  split; [by apply abi_lat_nan_of_r_s|].
  split; [reflexivity|by apply abi_lon_nan_of_r_s].
Qed.

Lemma series_libm_sin_keeps_nan : sin_keeps_nan series_libm.
Proof.
  intros v Hv. cbn [np_sin series_libm]. by apply add_nan_l, sub_nan_l.
Qed.

Lemma calculate_degrees_nan_angle_witness :
  exists abi_lat abi_lon : array2 float,
    calculate_degrees series_libm (mkDataset [0%float; nan] [0.0625%float] goes16)
    = Ok (abi_lat, abi_lon)
    /\ exists lat lon : float,
         item abi_lat 0 1 = Some lat /\ PrimFloat.is_nan lat = true
         /\ item abi_lon 0 1 = Some lon /\ PrimFloat.is_nan lon = true.
Proof.
  destruct (calculate_degrees_nan_angle series_libm
              (mkDataset [0%float; nan] [0.0625%float] goes16)
              series_libm_arctan_keeps_nan series_libm_sin_keeps_nan)
    as (abi_lat & abi_lon & Hrun & Hcell).
  exists abi_lat, abi_lon. split; [exact Hrun|].
  apply (Hcell 0%nat 1%nat nan 0.0625%float eq_refl eq_refl).
  left. reflexivity.
Defined.

Lemma binary_round_aux_negb (prec emax : Z) (s : bool) (mx ex : Z) (lx : location) :
  binary_round_aux prec emax (negb s) mx ex lx
  = SFopp (binary_round_aux prec emax s mx ex lx).
Proof.
  unfold binary_round_aux.
  destruct (shr_fexp prec emax mx ex lx) as [mrs' e'].
  destruct (shr_fexp prec emax _ e' loc_Exact) as [mrs'' e''].
  destruct (shr_m mrs''); [reflexivity| |reflexivity].
  destruct (Z.leb e'' (emax - prec)); reflexivity.
Qed.

Lemma mul_opp_l (a b : float) : (- a * b)%float = (- (a * b))%float.
Proof.
  apply Prim2SF_inj. rewrite opp_spec, !mul_spec, opp_spec.
  unfold SF64mul.
  destruct (Prim2SF a) as [sa|sa| |sa ma ea], (Prim2SF b) as [sb|sb| |sb mb eb];
    cbn [SFmul SFopp]; try reflexivity;
    try (destruct sa, sb; reflexivity).
  rewrite <- binary_round_aux_negb. by destruct sa, sb.
Qed.

Lemma mul_opp_r (a b : float) : (a * - b)%float = (- (a * b))%float.
Proof.
  apply Prim2SF_inj. rewrite opp_spec, !mul_spec, opp_spec.
  unfold SF64mul.
  destruct (Prim2SF a) as [sa|sa| |sa ma ea], (Prim2SF b) as [sb|sb| |sb mb eb];
    cbn [SFmul SFopp]; try reflexivity;
    try (destruct sa, sb; reflexivity).
  rewrite <- binary_round_aux_negb. by destruct sa, sb.
Qed.

Lemma opp_involutive (a : float) : (- - a)%float = a.
Proof.
  apply Prim2SF_inj. rewrite !opp_spec.
  destruct (Prim2SF a) as [s|s| |s ma ea]; cbn; rewrite ?negb_involutive; reflexivity.
Qed.

Lemma square_opp (a : float) : square (- a) = square a.
Proof. unfold square. by rewrite mul_opp_l, mul_opp_r, opp_involutive. Qed.

Lemma div_opp_l (a b : float) : (- a / b)%float = (- (a / b))%float.
Proof.
  apply Prim2SF_inj. rewrite opp_spec, !div_spec, opp_spec.
  unfold SF64div.
  destruct (Prim2SF a) as [sa|sa| |sa ma ea], (Prim2SF b) as [sb|sb| |sb mb eb];
    cbn [SFdiv SFopp]; try reflexivity;
    try (destruct sa, sb; reflexivity).
  destruct (SFdiv_core_binary prec emax (Z.pos ma) ea (Z.pos mb) eb) as [[mz ez] lz].
  rewrite <- binary_round_aux_negb. by destruct sa, sb.
Qed.

Section CellMirror.
Variables (m : libm) (info : projection_info) (xv yv : float).
Hypothesis Hsym : libm_symmetric m.

Let Hsin : forall v : float, np_sin m (- v)%float = (- np_sin m v)%float := proj1 Hsym.
Let Hcos : forall v : float, np_cos m (- v)%float = np_cos m v := proj1 (proj2 Hsym).
Let Harctan : forall v : float, np_arctan m (- v)%float = (- np_arctan m v)%float :=
  proj2 (proj2 Hsym).

Lemma a_var_mirror_y : a_var_at m info xv (- yv) = a_var_at m info xv yv.
Proof. unfold a_var_at. by rewrite Hsin, Hcos, square_opp. Qed.

Lemma a_var_mirror_x : a_var_at m info (- xv) yv = a_var_at m info xv yv.
Proof. unfold a_var_at. by rewrite Hsin, Hcos, square_opp. Qed.

Lemma b_var_mirror_y : b_var_at m info xv (- yv) = b_var_at m info xv yv.
Proof. unfold b_var_at. by rewrite Hcos. Qed.

Lemma b_var_mirror_x : b_var_at m info (- xv) yv = b_var_at m info xv yv.
Proof. unfold b_var_at. by rewrite Hcos. Qed.

Lemma r_s_mirror_y : r_s_at m info xv (- yv) = r_s_at m info xv yv.
Proof.
  unfold r_s_at, discriminant_at. by rewrite a_var_mirror_y, b_var_mirror_y.
Qed.

Lemma r_s_mirror_x : r_s_at m info (- xv) yv = r_s_at m info xv yv.
Proof.
  unfold r_s_at, discriminant_at. by rewrite a_var_mirror_x, b_var_mirror_x.
Qed.

Lemma s_x_mirror_y : s_x_at m info xv (- yv) = s_x_at m info xv yv.
Proof. unfold s_x_at. by rewrite r_s_mirror_y, Hcos. Qed.

Lemma s_x_mirror_x : s_x_at m info (- xv) yv = s_x_at m info xv yv.
Proof. unfold s_x_at. by rewrite r_s_mirror_x, Hcos. Qed.

Lemma s_y_mirror_y : s_y_at m info xv (- yv) = s_y_at m info xv yv.
Proof. unfold s_y_at. by rewrite r_s_mirror_y. Qed.

Lemma s_y_mirror_x : s_y_at m info (- xv) yv = (- s_y_at m info xv yv)%float.
Proof. unfold s_y_at. by rewrite r_s_mirror_x, Hsin, mul_opp_r. Qed.

Lemma s_z_mirror_y : s_z_at m info xv (- yv) = (- s_z_at m info xv yv)%float.
Proof. unfold s_z_at. by rewrite r_s_mirror_y, Hsin, mul_opp_r. Qed.

Lemma s_z_mirror_x : s_z_at m info (- xv) yv = s_z_at m info xv yv.
Proof. unfold s_z_at. by rewrite r_s_mirror_x, Hcos. Qed.

Lemma abi_lat_mirror_y :
  abi_lat_at m info xv (- yv) = (- abi_lat_at m info xv yv)%float.
Proof.
  unfold abi_lat_at.
  rewrite s_z_mirror_y, s_x_mirror_y, s_y_mirror_y.
  by rewrite div_opp_l, mul_opp_r, Harctan, mul_opp_r.
Qed.

Lemma abi_lon_mirror_y : abi_lon_at m info xv (- yv) = abi_lon_at m info xv yv.
Proof. unfold abi_lon_at. by rewrite s_x_mirror_y, s_y_mirror_y. Qed.

Lemma abi_lat_mirror_x : abi_lat_at m info (- xv) yv = abi_lat_at m info xv yv.
Proof.
  unfold abi_lat_at.
  rewrite s_z_mirror_x, s_x_mirror_x, s_y_mirror_x.
  by rewrite mul_opp_l, mul_opp_r, opp_involutive.
Qed.

End CellMirror.

(** X16: the grid is mirror symmetric, exactly, in binary64: two rows
    whose y angles are opposite hold opposite latitudes and equal
    longitudes, column by column; two columns whose x angles are opposite
    hold equal latitudes, row by row. *)
Theorem calculate_degrees_mirror (m : libm) (file_id : dataset) :
  libm_symmetric m ->
  exists abi_lat abi_lon : array2 float,
    calculate_degrees m file_id = Ok (abi_lat, abi_lon)
    /\ (forall (r r' c : nat) (xv yv : float),
          variables_x file_id !! c = Some xv ->
          variables_y file_id !! r = Some yv ->
          variables_y file_id !! r' = Some (- yv)%float ->
          exists lat lon : float,
            item abi_lat r c = Some lat /\ item abi_lat r' c = Some (- lat)%float
            /\ item abi_lon r c = Some lon /\ item abi_lon r' c = Some lon)
    /\ (forall (r c c' : nat) (xv yv : float),
          variables_x file_id !! c = Some xv ->
          variables_x file_id !! c' = Some (- xv)%float ->
          variables_y file_id !! r = Some yv ->
          exists lat : float,
            item abi_lat r c = Some lat /\ item abi_lat r c' = Some lat).
Proof.
  intros Hsym.
  eexists _, _. split; [apply calculate_degrees_tabulate|]. split.
  - intros r r' c xv yv Hx Hy Hy'.
    rewrite !(tabulate_item _ _ _ r c xv yv Hx Hy).
    rewrite !(tabulate_item _ _ _ r' c xv _ Hx Hy').
    eexists _, _. split; [reflexivity|].
    split; [by rewrite abi_lat_mirror_y|].
    split; [reflexivity|by rewrite abi_lon_mirror_y].
  - intros r c c' xv yv Hx Hx' Hy.
    rewrite !(tabulate_item _ _ _ r c xv yv Hx Hy).
    rewrite !(tabulate_item _ _ _ r c' _ yv Hx' Hy).
    eexists. split; [reflexivity|]. by rewrite abi_lat_mirror_x.
Qed.

Lemma small_angle_libm_symmetric : libm_symmetric small_angle_libm.
Proof. split; [|split]; intros v; reflexivity. Qed.

Lemma calculate_degrees_mirror_witness :
  exists abi_lat abi_lon : array2 float,
    calculate_degrees small_angle_libm
      (mkDataset [0.0625%float; (-0.0625)%float] [0.03125%float; (-0.03125)%float] goes16)
    = Ok (abi_lat, abi_lon)
    /\ exists lat lon : float,
         item abi_lat 0 0 = Some lat /\ item abi_lat 1 0 = Some (- lat)%float
         /\ item abi_lon 0 0 = Some lon /\ item abi_lon 1 0 = Some lon.
Proof.
  destruct (calculate_degrees_mirror small_angle_libm
              (mkDataset [0.0625%float; (-0.0625)%float]
                         [0.03125%float; (-0.03125)%float] goes16)
              small_angle_libm_symmetric)
    as (abi_lat & abi_lon & Hrun & Hrows & _).
  exists abi_lat, abi_lon. split; [exact Hrun|].
  apply (Hrows 0%nat 1%nat 0%nat 0.0625%float 0.03125%float); reflexivity.
Defined.

(** *** From the raw grids to the guesses *)

Lemma forward_fill_2d_no_nan (h : gmap positive (array2 cell)) (arr : positive)
    (a : array2 cell) :
  h !! arr = Some a -> wf_array2 a -> columns_defined a ->
  no_inf2 a -> exact_rows a ->
  exists a' : array2 cell,
    forward_fill_2d arr h = (<[arr := a']> h, Ok arr)
    /\ shape1 a' = shape1 a /\ shape0 a' = shape0 a /\ wf_array2 a'
    /\ (forall (c : nat) (col : list cell),
          (c < shape1 a)%nat -> is_column a c col -> is_column a' c (filled col))
    /\ no_nan2 a'.
Proof.
  intros Ha Hwf Hdef Hinf Hrows.
  destruct (forward_fill_2d_filled h arr a Ha Hwf Hdef)
    as (a' & Hrun & Hs1 & Hs0 & Hwf' & Hfill).
  exists a'. split; [exact Hrun|]. split; [exact Hs1|]. split; [exact Hs0|].
  split; [exact Hwf'|]. split; [exact Hfill|].
  exact (filled_columns_no_nan a a' Hwf Hwf' Hs1 Hdef Hinf Hrows Hfill).
Qed.

Lemma forward_fill_copy_no_nan (h : gmap positive (array2 cell)) (arr : positive)
    (a : array2 cell) :
  h !! arr = Some a -> wf_array2 a -> columns_defined a ->
  no_inf2 a -> exact_rows a ->
  exists (l : positive) (a' : array2 cell),
    h !! l = None
    /\ forward_fill_copy arr h = (<[l := a']> h, Ok l)
    /\ shape1 a' = shape1 a /\ shape0 a' = shape0 a /\ wf_array2 a'
    /\ (forall (c : nat) (col : list cell),
          (c < shape1 a)%nat -> is_column a c col -> is_column a' c (filled col))
    /\ no_nan2 a'.
Proof.
  intros Ha Hwf Hdef Hinf Hrows.
  set (l := fresh (dom h)).
  assert (Hl : h !! l = None) by (apply not_elem_of_dom, is_fresh).
  destruct (forward_fill_2d_no_nan (<[l := a]> h) l a (lookup_insert_eq h l a)
              Hwf Hdef Hinf Hrows)
    as (a' & Hrun & Hs1 & Hs0 & Hwf' & Hfill & Hnn).
  exists l, a'. split; [exact Hl|]. split; [|done].
  unfold forward_fill_copy, ndarray_copy. rewrite Ha. fold l.
  rewrite Hrun, insert_insert_eq. reflexivity.
Qed.

(** X17: the notebook's chain holds together: from raw latitude and
    longitude grids of one shape (cells NaN or finite, fewer than 2^53
    rows), with at least one row and one column and a defined value in
    every column, the chain makes two new arrays, the filled copies of the
    two grids, which hold no undefined cell; the two guesses are the result
    of the search on these two arrays and are positions of the grid; the raw
    grids are still in the heap, unchanged. *)
Theorem fill_and_search_returns (h : gmap positive (array2 cell))
    (abi_lat abi_lon : positive) (a b : array2 cell) (target_lat target_lon : float) :
  h !! abi_lat = Some a -> h !! abi_lon = Some b ->
  wf_array2 a -> wf_array2 b ->
  shape0 a = shape0 b -> shape1 a = shape1 b ->
  (0 < shape0 a)%nat -> (0 < shape1 a)%nat ->
  columns_defined a -> columns_defined b ->
  no_inf2 a -> no_inf2 b -> exact_rows a ->
  exists (l1 l2 : positive) (a' b' : array2 cell) (i0 j0 i1 j1 : nat),
    fill_and_search abi_lat abi_lon target_lat target_lon h
    = (<[l2 := b']> (<[l1 := a']> h), Ok ((i0, j0), (i1, j1)))
    /\ h !! l1 = None /\ h !! l2 = None /\ l1 <> l2
    /\ forward_fill_copy abi_lat h = (<[l1 := a']> h, Ok l1)
    /\ forward_fill_copy abi_lon (<[l1 := a']> h)
       = (<[l2 := b']> (<[l1 := a']> h), Ok l2)
    /\ (forall (c : nat) (col : list cell),
          (c < shape1 a)%nat -> is_column a c col -> is_column a' c (filled col))
    /\ (forall (c : nat) (col : list cell),
          (c < shape1 b)%nat -> is_column b c col -> is_column b' c (filled col))
    /\ no_nan2 a' /\ no_nan2 b'
    /\ nearest_two_pass a' b' target_lat target_lon = Ok ((i0, j0), (i1, j1))
    /\ (i0 < shape0 a)%nat /\ (j0 < shape1 a)%nat
    /\ (i1 < shape0 a)%nat /\ (j1 < shape1 a)%nat
    /\ (<[l2 := b']> (<[l1 := a']> h)) !! abi_lat = Some a
    /\ (<[l2 := b']> (<[l1 := a']> h)) !! abi_lon = Some b.
Proof.
  intros Ha Hb Hwa Hwb Hs0 Hs1 Hr Hc Hda Hdb Hia Hib Hrows.
  assert (Hrowsb : exact_rows b) by (unfold exact_rows in *; by rewrite <- Hs0).
  destruct (forward_fill_copy_no_nan h abi_lat a Ha Hwa Hda Hia Hrows)
    as (l1 & a' & Hl1 & Hrun1 & Ha1 & Ha0 & Hwa' & Hfa & Hna).
  assert (Hne1a : l1 <> abi_lat) by (intros ->; congruence).
  assert (Hne1b : l1 <> abi_lon) by (intros ->; congruence).
  destruct (forward_fill_copy_no_nan (<[l1 := a']> h) abi_lon b)
    as (l2 & b' & Hl2 & Hrun2 & Hb1 & Hb0 & Hwb' & Hfb & Hnb); try assumption.
  { by rewrite lookup_insert_ne. }
  assert (Hne21 : l2 <> l1).
  { intros ->. by rewrite lookup_insert_eq in Hl2. }
  rewrite lookup_insert_ne in Hl2 by congruence.
  assert (Hne2a : l2 <> abi_lat) by (intros ->; congruence).
  assert (Hne2b : l2 <> abi_lon) by (intros ->; congruence).
  destruct (nearest_two_pass_returns a' b' target_lat target_lon)
    as (i0 & j0 & i1 & j1 & Hsearch & Hb0' & Hb1' & Hb2' & Hb3'); try lia;
    [exact Hwa'|exact Hwb'|].
  exists l1, l2, a', b', i0, j0, i1, j1.
  split.
  { unfold fill_and_search. rewrite Hrun1, Hrun2.
    rewrite lookup_insert_ne, lookup_insert_eq by congruence.
    rewrite lookup_insert_eq. by rewrite Hsearch. }
  split; [exact Hl1|]. split; [exact Hl2|]. split; [congruence|].
  split; [exact Hrun1|]. split; [exact Hrun2|].
  split; [exact Hfa|]. split; [exact Hfb|].
  split; [exact Hna|]. split; [exact Hnb|]. split; [exact Hsearch|].
  split; [lia|]. split; [lia|]. split; [lia|]. split; [lia|].
  split; by rewrite !lookup_insert_ne by congruence.
Qed.

Lemma gappy_lon_columns_defined : columns_defined gappy_lon.
Proof.
  intros c Hc. destruct c as [|[|c]].
  - exists 0%nat, (-80)%float. by split.
  - exists 2%nat, (-78)%float. by split.
  - cbn in Hc. lia.
Qed.

Lemma fill_and_search_returns_witness :
  exists (l1 l2 : positive) (a' b' : array2 cell) (i0 j0 i1 j1 : nat),
    fill_and_search 1%positive 2%positive 3 (-79) raw_heap
    = (<[l2 := b']> (<[l1 := a']> raw_heap), Ok ((i0, j0), (i1, j1)))
    /\ no_nan2 a' /\ no_nan2 b'
    /\ nearest_two_pass a' b' 3 (-79) = Ok ((i0, j0), (i1, j1))
    /\ (<[l2 := b']> (<[l1 := a']> raw_heap)) !! 1%positive = Some gappy_grid
    /\ (<[l2 := b']> (<[l1 := a']> raw_heap)) !! 2%positive = Some gappy_lon.
Proof.
  destruct (fill_and_search_returns raw_heap 1%positive 2%positive
              gappy_grid gappy_lon 3 (-79))
    as (l1 & l2 & a' & b' & i0 & j0 & i1 & j1 & H1 & _ & _ & _ & _ & _ & _ & _
        & H2 & H3 & H4 & _ & _ & _ & _ & H5 & H6).
  - reflexivity.
  - reflexivity.
  - repeat constructor.
  - repeat constructor.
  - reflexivity.
  - reflexivity.
  - cbn. lia.
  - cbn. lia.
  - exact gappy_grid_columns_defined.
  - exact gappy_lon_columns_defined.
  - exact gappy_grid_no_inf.
  - repeat constructor.
  - exact gappy_grid_exact_rows.
  - exists l1, l2, a', b', i0, j0, i1, j1. done.
Defined.

Example fill_and_search_raw_heap :
  snd (fill_and_search 1%positive 2%positive 3 (-79) raw_heap)
  = Ok ((2%nat, 0%nat), (2%nat, 1%nat)).
Proof. vm_compute. reflexivity. Qed.

(** X18: on a grid without undefined cells whose latitude depends on
    the row only and whose longitude on the column only, and for finite
    targets, the search is exact in the distances it computes: the cell it
    returns has the smallest float64 latitude error [np.abs(lat - target)]
    and the smallest float64 longitude error of the whole grid. *)
Theorem nearest_two_pass_exact_on_separable
    (abi_lat abi_lon : array2 cell) (target_lat target_lon : float) :
  wf_array2 abi_lat -> wf_array2 abi_lon ->
  shape0 abi_lat = shape0 abi_lon -> shape1 abi_lat = shape1 abi_lon ->
  (0 < shape0 abi_lat)%nat -> (0 < shape1 abi_lat)%nat ->
  no_nan2 abi_lat -> no_nan2 abi_lon ->
  isfinite target_lat = true -> isfinite target_lon = true ->
  (forall r c : nat, (c < shape1 abi_lat)%nat -> item abi_lat r c = item abi_lat r 0) ->
  (forall r c : nat, (r < shape0 abi_lon)%nat -> item abi_lon r c = item abi_lon 0 c) ->
  exists (guess : nat * nat) (e_lat e_lon : float),
    nearest_two_pass abi_lat abi_lon target_lat target_lon = Ok (guess, guess)
    /\ axis_error abi_lat target_lat guess = Some e_lat
    /\ axis_error abi_lon target_lon guess = Some e_lon
    /\ (forall (rc : nat * nat) (e : float),
          axis_error abi_lat target_lat rc = Some e -> (e_lat <=? e)%float = true)
    /\ (forall (rc : nat * nat) (e : float),
          axis_error abi_lon target_lon rc = Some e -> (e_lon <=? e)%float = true).
Proof.
  intros Hwlat Hwlon Hs0 Hs1 Hr Hc Hnlat Hnlon Htlat Htlon Hlat Hlon.
  unfold nearest_two_pass.
  destruct (column_is_column abi_lat 0 Hwlat Hc) as (lat_0 & -> & Hic0).
  destruct (row_Ok abi_lon 0 Hwlon ltac:(lia)) as (lon_0 & -> & Hm0 & Hj0).
  rewrite !bind_Ok.
  destruct (find_nearest_indices_Ok lat_0 lon_0 target_lat target_lon)
    as (i0 & j0 & Hfind & Hfi & Hfj); try assumption.
  { apply nonempty_of_length. destruct Hic0 as [Hl _]. lia. }
  { apply nonempty_of_length. lia. }
  { exact (no_nan_column abi_lat 0 lat_0 Hnlat Hic0). }
  { eapply (no_nan_of_items abi_lon); [exact Hj0|]. intros k x. by apply no_nan2_item. }
  rewrite Hfind, bind_Ok. cbn [fst snd].
  pose proof (first_nearest_lt _ _ _ Hfi) as Hi0.
  pose proof (first_nearest_lt _ _ _ Hfj) as Hj0'.
  assert (Hi0' : (i0 < shape0 abi_lat)%nat) by (destruct Hic0 as [Hl _]; lia).
  destruct (column_is_column abi_lat j0 Hwlat ltac:(lia)) as (lat_1 & -> & Hic1).
  destruct (row_Ok abi_lon i0 Hwlon ltac:(lia)) as (lon_1 & -> & Hm1 & Hj1).
  rewrite !bind_Ok.
  assert (lat_1 = lat_0) as ->.
  { apply (column_ext abi_lat j0 0 _ _ Hic1 Hic0). intros r. apply Hlat. lia. }
  assert (lon_1 = lon_0) as ->.
  { apply list_eq. intros c. rewrite Hj1, Hj0. apply Hlon. lia. }
  rewrite Hfind, bind_Ok.
  destruct Hfi as (v & Hv & Hvle & _). destruct Hfj as (w & Hw & Hwle & _).
  destruct Hic0 as [_ Hi0c].
  exists (i0, j0), (abs (v - target_lat)), (abs (w - target_lon)).
  split; [reflexivity|]. unfold axis_error. cbn [fst snd].
  split; [by rewrite (Hlat i0 j0) by lia; rewrite <- Hi0c, Hv|].
  split; [by rewrite (Hlon i0 j0) by lia; rewrite <- Hj0, Hw|].
  split.
  - intros [r c] e. cbn [fst snd].
    destruct (item abi_lat r c) as [x|] eqn:Hx; [|discriminate].
    intros [= <-].
    destruct (item_Some_lt abi_lat r c _ Hwlat Hx) as [_ Hclt].
    rewrite (Hlat r c Hclt), <- Hi0c in Hx. by apply (Hvle r).
  - intros [r c] e. cbn [fst snd].
    destruct (item abi_lon r c) as [x|] eqn:Hx; [|discriminate].
    intros [= <-].
    destruct (item_Some_lt abi_lon r c _ Hwlon Hx) as [Hrlt _].
    rewrite (Hlon r c Hrlt), <- Hj0 in Hx. by apply (Hwle c).
Qed.

Lemma plate_separable :
  (forall r c : nat, (c < shape1 plate_lat)%nat -> item plate_lat r c = item plate_lat r 0)
  /\ (forall r c : nat, (r < shape0 plate_lon)%nat -> item plate_lon r c = item plate_lon 0 c).
Proof.
  split.
  - intros r c Hc. cbn in Hc.
    destruct r as [|[|r]]; destruct c as [|[|[|c]]]; try lia; reflexivity.
  - intros r c Hr. cbn in Hr.
    destruct r as [|[|r]]; [reflexivity| |lia].
    destruct c as [|[|[|c]]]; reflexivity.
Qed.

Lemma nearest_two_pass_exact_on_separable_witness :
  exists (guess : nat * nat) (e_lat e_lon : float),
    nearest_two_pass plate_lat plate_lon 26 (-79) = Ok (guess, guess)
    /\ axis_error plate_lat 26 guess = Some e_lat
    /\ axis_error plate_lon (-79) guess = Some e_lon
    /\ (forall (rc : nat * nat) (e : float),
          axis_error plate_lat 26 rc = Some e -> (e_lat <=? e)%float = true)
    /\ (forall (rc : nat * nat) (e : float),
          axis_error plate_lon (-79) rc = Some e -> (e_lon <=? e)%float = true).
Proof.
  apply (nearest_two_pass_exact_on_separable plate_lat plate_lon 26 (-79)).
  - repeat constructor.
  - repeat constructor.
  - reflexivity.
  - reflexivity.
  - cbn. lia.
  - cbn. lia.
  - repeat constructor.
  - repeat constructor.
  - reflexivity.
  - reflexivity.
  - apply plate_separable.
  - apply plate_separable.
Defined.

(** *** The plotted differences *)



